(** * deepmpls: the lowering of an MPLS network and a query into a typed graph

    A shallow embedding of [graph_transformation.py].  The networkx graph
    that the Python code mutates is an explicit state, threaded through a
    small state-and-exception monad; Python objects used as node keys carry
    an identifier standing for their reference identity. *)

From Stdlib Require Import ZArith Lia.
From stdpp Require Import base decidable option list strings gmap pretty.

Local Open Scope string_scope.
Local Open Scope list_scope.

(** ** Node types: the [NodeType] enumeration *)

Module NodeType.

Inductive t :=
| Router | Interface | Label | Rule | PushAction | SwapAction | PopAction
| Query | QueryAtom | Any | OneOrMore | ZeroOrMore.

#[global] Instance eq_dec : EqDecision t.
Proof. solve_decision. Defined.

End NodeType.

(** ** The network model ([prex.prnml.model]) as the code consumes it *)

Module model.

(** Modelled from the spec: the label class of the P-Rex network model, which
    is not part of the sources.  Labels have value identity; [NoLabel] is the
    "no label" sentinel (section 3 of the specification). *)
Inductive Label := NoLabel | MkLabel (name : string).

(** Modelled from the spec: the [name] attribute of a label.  The display
    name of the sentinel is not given; it is taken empty, and nothing below
    depends on it. *)
Definition name (l : Label) : string :=
  match l with NoLabel => "" | MkLabel n => n end.

Record Interface := { iface_id : nat; iface_name : string }.

Record Router :=
  { rtr_id : nat; rtr_name : string; interfaces : list Interface }.

Record Endpoint := { interface : Interface }.

Record Link := { lnk_from_ : Endpoint; lnk_to : Endpoint }.

(** Actions are [PushAction], [SwapAction], [PopAction] or an object of any
    other class, which the encoder rejects. *)
Inductive Action :=
| PushAction (id : nat) (label : Label)
| SwapAction (id : nat) (label : Label)
| PopAction (id : nat)
| OtherAction (id : nat).

Record Rule :=
  { rule_id : nat; from_ : Interface; label : Label;
    actions : list Action; to : Interface }.

Record TEGroup := { rules : list Rule }.

Record Destination := { te_groups : list TEGroup }.

(** [destinations] is the list of values of the Python dict, in its order. *)
Record RoutingTable := { destinations : list Destination }.

(** [collect_labels] is a method of the external model; its result is taken
    as part of the input. *)
Record Routing :=
  { routingTables : list (Router * RoutingTable);
    collect_labels : list Label }.

Record Topology := { routers : list Router; links : list Link }.

Record Model := { topology : Topology; routing : Routing }.

#[global] Instance Label_eq_dec : EqDecision Label.
Proof. solve_decision. Defined.
#[global] Instance Interface_eq_dec : EqDecision Interface.
Proof. solve_decision. Defined.
#[global] Instance Router_eq_dec : EqDecision Router.
Proof. solve_decision. Defined.
#[global] Instance Action_eq_dec : EqDecision Action.
Proof. solve_decision. Defined.
#[global] Instance Rule_eq_dec : EqDecision Rule.
Proof. solve_decision. Defined.

End model.

(** Modelled from the spec: [xml.get_label] of the P-Rex reader, which is not
    part of the sources: [None] is the sentinel, and two occurrences of one
    label value resolve to the same label. *)
Module xml.

Definition get_label (name : option string) : model.Label :=
  match name with None => model.NoLabel | Some n => model.MkLabel n end.

End xml.

(** ** The query syntax tree ([prex.lang.prex]) *)

Inductive Quantifier :=
| AZeroOrMoreQuantifier | AOneOrMoreQuantifier | AOtherQuantifier.

(** Every atom object carries [id], its reference identity.  [getSymbol] of
    a simple atom is the token text.  [AOtherAtom] stands for a node of any
    other class. *)
Inductive Atom :=
| ASimpleAtom (id : nat) (getSymbol : string)
| AAnyAtom (id : nat)
| AQuantifiedAtom (id : nat) (getAtom : Atom) (getQuantifier : Quantifier)
| AOtherAtom (id : nat).

#[global] Instance Quantifier_eq_dec : EqDecision Quantifier.
Proof. solve_decision. Defined.
#[global] Instance Atom_eq_dec : EqDecision Atom.
Proof. solve_decision. Defined.

(** A pattern object is identified with the list [getAtoms] returns; an
    absent pattern is [None]. *)
Record PQuery :=
  { getConstructing : option (list Atom);
    getNetwork : list Atom;
    getDestructing : option (list Atom) }.

(** [str.strip]: whitespace removed at both ends.  A character is a code
    point below 256; the ones Python takes as whitespace are 9 to 13, 28 to
    32, 133 and 160. *)
Definition is_space (c : Ascii.ascii) : bool :=
  let n := Ascii.nat_of_ascii c in
  ((9 <=? n)%nat && (n <=? 13)%nat) || ((28 <=? n)%nat && (n <=? 32)%nat)
  || (n =? 133)%nat || (n =? 160)%nat.

Fixpoint lstrip (s : string) : string :=
  match s with
  | EmptyString => EmptyString
  | String c r => if is_space c then lstrip r else s
  end.

Definition strip (s : string) : string :=
  String.rev (lstrip (String.rev (lstrip s))).

(** ** Graph: the part of [networkx.Graph] the code uses *)

(** Node keys.  Python objects are keys by identity; labels by value; the
    strings "empty" and unknown router names are keys too, as is the
    enumeration member [NodeType.Query]. *)
Inductive key :=
| KRouter (r : model.Router)
| KInterface (i : model.Interface)
| KLabel (l : model.Label)
| KRule (r : model.Rule)
| KAction (a : model.Action)
| KAtom (a : Atom)
| KStr (s : string)
| KEnum (t : NodeType.t).

#[global] Instance key_eq_dec : EqDecision key.
Proof. solve_decision. Defined.

(** Node attributes: a keyword left out of [add_node] is [None]. *)
Record attrs :=
  { ntype : option NodeType.t; nlabel : option string; k : option Z }.

Definition no_attrs : attrs := {| ntype := None; nlabel := None; k := None |}.

(** [dict.update]: the given keywords overwrite, the others stay. *)
Definition update (old new : attrs) : attrs :=
  {| ntype := match ntype new with Some t => Some t | None => ntype old end;
     nlabel := match nlabel new with Some s => Some s | None => nlabel old end;
     k := match k new with Some n => Some n | None => k old end |}.

(** Nodes and edges in insertion order; an edge is stored once, with the
    orientation of the call that created it. *)
Record Graph := { nodes : list (key * attrs); edges : list (key * key) }.

Definition empty_graph : Graph := {| nodes := []; edges := [] |}.

Definition has_node (G : Graph) (n : key) : bool :=
  bool_decide (n ∈ (nodes G).*1).

Fixpoint lookup_attrs (l : list (key * attrs)) (n : key) : option attrs :=
  match l with
  | [] => None
  | (m, a) :: r => if decide (m = n) then Some a else lookup_attrs r n
  end.

Definition node_attrs (G : Graph) (n : key) : option attrs :=
  lookup_attrs (nodes G) n.

Definition node_type (G : Graph) (n : key) : option NodeType.t :=
  a ← node_attrs G n; ntype a.

Definition has_edge (G : Graph) (u v : key) : bool :=
  bool_decide ((u, v) ∈ edges G ∨ (v, u) ∈ edges G).

Definition update_node (n : key) (a : attrs) (p : key * attrs) : key * attrs :=
  if decide (p.1 = n) then (p.1, update p.2 a) else p.

(** [G.add_node(n, **a)] *)
Definition add_node (n : key) (a : attrs) (G : Graph) : Graph :=
  if has_node G n
  then {| nodes := update_node n a <$> nodes G; edges := edges G |}
  else {| nodes := nodes G ++ [(n, a)]; edges := edges G |}.

Definition touch (n : key) (G : Graph) : Graph :=
  if has_node G n then G
  else {| nodes := nodes G ++ [(n, no_attrs)]; edges := edges G |}.

(** [G.add_edge(u, v)]: missing endpoints become nodes without attributes,
    and an edge already present is not stored again. *)
Definition add_edge (u v : key) (G : Graph) : Graph :=
  let G' := touch v (touch u G) in
  if has_edge G' u v then G'
  else {| nodes := nodes G'; edges := edges G' ++ [(u, v)] |}.

(** The edges incident to a node. *)
Definition incident (G : Graph) (n : key) : list (key * key) :=
  filter (λ e, e.1 = n ∨ e.2 = n) (edges G).

(** ** Exceptions and the construction monad *)

Inductive error :=
| Exception (msg : string)
| AssertionError
| IndexError
| TypeError.

Inductive result (A : Type) :=
| Ok (a : A)
| Raise (e : error).
Arguments Ok {A} a.
Arguments Raise {A} e.

(** A computation on the graph under construction; an exception leaves no
    graph behind. *)
Definition M (A : Type) : Type := Graph → result (A * Graph).

#[global] Instance M_ret : MRet M := λ A x G, Ok (x, G).

#[global] Instance M_bind : MBind M := λ A B f m G,
  match m G with
  | Ok (x, G') => f x G'
  | Raise e => Raise e
  end.

Definition raise {A} (e : error) : M A := λ _, Raise e.

Definition G_add_node_attrs (n : key) (a : attrs) : M unit :=
  λ G, Ok (tt, add_node n a G).

(** The keywords [ntype=t, nlabel=lbl]. *)
Definition mk_attrs (t : NodeType.t) (lbl : string) : attrs :=
  {| ntype := Some t; nlabel := Some lbl; k := None |}.

(** [G.add_node(n, ntype=t, nlabel=lbl)] *)
Definition G_add_node (n : key) (t : NodeType.t) (lbl : string) : M unit :=
  G_add_node_attrs n (mk_attrs t lbl).

Definition G_add_edge (u v : key) : M unit :=
  λ G, Ok (tt, add_edge u v G).

Definition G_has_node (n : key) : M bool :=
  λ G, Ok (has_node G n, G).

(** A value that is either one node or a Python list of nodes: what
    [build_labels_graph_repr] returns and takes as [lastnode]. *)
Inductive last_t :=
| Node (n : key)
| Nodes (l : list key).

(** [G.add_edge(lastnode, v)]: a list is not hashable. *)
Definition G_add_edge_from (u : last_t) (v : key) : M unit :=
  match u with
  | Node n => G_add_edge n v
  | Nodes _ => raise TypeError
  end.

(** [for n in l: G.add_edge(n, v)] *)
Fixpoint G_add_edges_from (l : list key) (v : key) : M unit :=
  match l with
  | [] => mret tt
  | n :: r => G_add_edge n v ;; G_add_edges_from r v
  end.

(** A Python [for] loop whose body updates the loop variables [s]. *)
Fixpoint for_each {S A : Type} (body : S → A → M S) (s : S) (l : list A) : M S :=
  match l with
  | [] => mret s
  | x :: r => s' ← body s x; for_each body s' r
  end.

(** ** [ensure_label_nodes] (lines 31-53) *)

Definition label_of_symbol (symb : string) : model.Label :=
  xml.get_label (Some (strip symb)).

Definition ensure_label_nodes_atom (_ : unit) (atom : Atom) : M unit :=
  let symb :=
    match atom with
    | ASimpleAtom _ symb => Some symb
    | AQuantifiedAtom _ (ASimpleAtom _ symb) _ => Some symb
    | _ => None
    end in
  match symb with
  | None => mret tt
  | Some symb =>
      let lbl := label_of_symbol symb in
      present ← G_has_node (KLabel lbl);
      if (present : bool) then mret tt
      else G_add_node (KLabel lbl) NodeType.Label ("label:" +:+ model.name lbl)
  end.

Definition ensure_label_nodes (st : option (list Atom)) : M unit :=
  match st with
  | None => mret tt
  | Some atoms => for_each ensure_label_nodes_atom tt atoms
  end.

(** ** [atom_label_to_node] (lines 56-70)

    The text of the exceptions is kept up to the formatted type name. *)
Definition atom_label_to_node (atom : Atom) : M key :=
  match atom with
  | ASimpleAtom _ symb =>
      let lbl := label_of_symbol symb in
      present ← G_has_node (KLabel lbl);
      if (present : bool) then
        G_add_node (KAtom atom) NodeType.QueryAtom
          ("atom:label:" +:+ model.name lbl);;
        G_add_edge (KAtom atom) (KLabel lbl);;
        mret (KAtom atom)
      else raise AssertionError
  | AAnyAtom _ =>
      G_add_node (KAtom atom) NodeType.Label "atom:any";;
      mret (KAtom atom)
  | _ => raise (Exception "Unknown atom type")
  end.

(** ** [build_labels_graph_repr] (lines 73-134) *)

(** The variables of the loop over the atoms. *)
Record loop_state :=
  { lastnode : last_t; par_nodes : list key;
    lastatom : option Atom; branch_next : bool }.

Definition is_ASimpleAtom (a : option Atom) : bool :=
  match a with Some (ASimpleAtom _ _) => true | _ => false end.

(** Lines 95-97 and 100-102: a quantified "any" atom becomes a node of type
    [t], linked from the current node, which it replaces. *)
Definition build_labels_any (s : loop_state) (atom : Atom)
    (t : NodeType.t) (lbl : string) : M loop_state :=
  G_add_node (KAtom atom) t lbl;;
  G_add_edge_from (lastnode s) (KAtom atom);;
  mret {| lastnode := Node (KAtom atom); par_nodes := par_nodes s;
          lastatom := Some atom; branch_next := branch_next s |}.

(** Lines 105-108: a one-or-more quantifier on another atom. *)
Definition build_labels_branch (s : loop_state) (atom inner : Atom)
    : M loop_state :=
  node ← atom_label_to_node inner;
  G_add_edge_from (lastnode s) node;;
  mret {| lastnode := lastnode s; par_nodes := par_nodes s ++ [node];
          lastatom := Some atom; branch_next := true |}.

(** Lines 114-128: an atom that is not quantified. *)
Definition build_labels_plain (s : loop_state) (atom : Atom) : M loop_state :=
  node ← atom_label_to_node atom;
  if branch_next s then
    G_add_edge_from (lastnode s) node;;
    mret {| lastnode := lastnode s; par_nodes := par_nodes s ++ [node];
            lastatom := Some atom; branch_next := false |}
  else if bool_decide (0 < length (par_nodes s))%nat then
    G_add_edges_from (par_nodes s) node;;
    mret {| lastnode := Node node; par_nodes := [];
            lastatom := Some atom; branch_next := false |}
  else
    G_add_edge_from (lastnode s) node;;
    mret {| lastnode := Node node; par_nodes := par_nodes s;
            lastatom := Some atom; branch_next := false |}.

(** Lines 88-130: the body of the loop. *)
Definition build_labels_step (s : loop_state) (atom : Atom) : M loop_state :=
  match atom with
  | AQuantifiedAtom _ inner quantifier =>
      if is_ASimpleAtom (lastatom s) then
        raise (Exception "Case not covered by code")
      else
        match quantifier, inner with
        | AZeroOrMoreQuantifier, AAnyAtom _ =>
            build_labels_any s atom NodeType.ZeroOrMore "atom:label:.*"
        | AOneOrMoreQuantifier, AAnyAtom _ =>
            build_labels_any s atom NodeType.OneOrMore "atom:label:.+"
        | AOneOrMoreQuantifier, _ => build_labels_branch s atom inner
        | _, _ => raise (Exception "Unknown quantifier type")
        end
  | _ => build_labels_plain s atom
  end.

Definition build_labels_graph_repr (lastnode0 : last_t)
    (st : option (list Atom)) : M last_t :=
  match st with
  | None =>
      G_add_node (KStr "empty") NodeType.Label "label:empty";;
      G_add_edge_from lastnode0 (KStr "empty");;
      mret (Node (KStr "empty"))
  | Some atoms =>
      s ← for_each build_labels_step
            {| lastnode := lastnode0; par_nodes := [];
               lastatom := None; branch_next := false |} atoms;
      if bool_decide (0 < length (par_nodes s))%nat
      then mret (Nodes (par_nodes s))
      else mret (lastnode s)
  end.

(** ** [mpls2graph] (lines 137-271) *)

(** Lines 151-158: one router, its interfaces, and its entry of
    [name2router]. *)
Definition encode_router (name2router : gmap string model.Router)
    (rtr : model.Router) : M (gmap string model.Router) :=
  G_add_node (KRouter rtr) NodeType.Router
    ("router:" +:+ model.rtr_name rtr);;
  for_each (λ _ iface,
      G_add_node (KInterface iface) NodeType.Interface
        ("intf:" +:+ model.rtr_name rtr +:+ ":" +:+ model.iface_name iface);;
      G_add_edge (KRouter rtr) (KInterface iface))
    tt (model.interfaces rtr);;
  mret (<[model.rtr_name rtr := rtr]> name2router).

(** Lines 160-162. *)
Definition encode_link (_ : unit) (lnk : model.Link) : M unit :=
  G_add_edge (KInterface (model.interface (model.lnk_from_ lnk)))
             (KInterface (model.interface (model.lnk_to lnk))).

(** Lines 164-167. *)
Definition encode_labels (lbls : list model.Label) : M unit :=
  G_add_node (KLabel (xml.get_label None)) NodeType.Label "label:none";;
  for_each (λ _ lbl,
      G_add_node (KLabel lbl) NodeType.Label ("label:" +:+ model.name lbl))
    tt lbls.

(** The display labels [f"{rtr.name}:rule{i}"] and
    [f"{rtr.name}:rule{i}:action{j}:KIND"]. *)
Definition rule_nlabel (rtr : model.Router) (i : nat) : string :=
  model.rtr_name rtr +:+ ":rule" +:+ pretty i.

Definition action_nlabel (rtr : model.Router) (i j : nat) (kind : string)
    : string :=
  rule_nlabel rtr i +:+ ":action" +:+ pretty j +:+ ":" +:+ kind.

(** Lines 179-195: one action; the loop variables are [last] and the
    counter [j] of [enumerate]. *)
Definition encode_action (rtr : model.Router) (i : nat)
    (s : key * nat) (action : model.Action) : M (key * nat) :=
  match action with
  | model.PushAction _ l =>
      G_add_node (KAction action) NodeType.PushAction
        (action_nlabel rtr i s.2 "PUSH");;
      G_add_edge (KAction action) (KLabel l)
  | model.SwapAction _ l =>
      G_add_node (KAction action) NodeType.SwapAction
        (action_nlabel rtr i s.2 "SWAP");;
      G_add_edge (KAction action) (KLabel l)
  | model.PopAction _ =>
      G_add_node (KAction action) NodeType.PopAction
        (action_nlabel rtr i s.2 "POP")
  | model.OtherAction _ => raise (Exception "Unknown action type")
  end;;
  G_add_edge s.1 (KAction action);;
  mret (KAction action, S s.2).

(** Lines 173-198: the rule of one destination. *)
Definition encode_rule (rtr : model.Router) (i : nat)
    (rule : model.Rule) : M unit :=
  G_add_node (KRule rule) NodeType.Rule (rule_nlabel rtr i);;
  G_add_edge (KRule rule) (KInterface (model.from_ rule));;
  (if decide (model.label rule = model.NoLabel) then mret tt
   else G_add_edge (KRule rule) (KLabel (model.label rule)));;
  s ← for_each (encode_action rtr i) (KRule rule, 0%nat) (model.actions rule);
  G_add_edge s.1 (KInterface (model.to rule)).

(** Lines 171-199: the body of the loop over the destinations; [i] is the
    rule counter.  An empty list of groups or of rules raises [IndexError]. *)
Definition encode_destination (rtr : model.Router) (i : nat)
    (dest : model.Destination) : M nat :=
  match model.te_groups dest with
  | [] => raise IndexError
  | g :: _ =>
      match model.rules g with
      | [] => raise IndexError
      | rule :: _ => encode_rule rtr i rule;; mret (S i)
      end
  end.

(** Lines 169-199. *)
Definition encode_table (_ : unit)
    (e : model.Router * model.RoutingTable) : M unit :=
  for_each (encode_destination e.1) 0%nat (model.destinations e.2);;
  mret tt.

(** [if isinstance(last, list): ... else: ...] (lines 230-234, 249-253,
    259-263). *)
Definition edges_from_last (last : last_t) (atom : key) : M unit :=
  match last with
  | Nodes l => G_add_edges_from l atom
  | Node n => G_add_edge n atom
  end.

(** Lines 221-267: one atom of the router path. *)
Definition encode_network_atom (name2router : gmap string model.Router)
    (last : last_t) (atom : Atom) : M last_t :=
  match atom with
  | ASimpleAtom _ symb =>
      let rtr := strip symb in
      G_add_node (KAtom atom) NodeType.QueryAtom ("atom:router:" +:+ rtr);;
      rtr_node ←
        match name2router !! rtr with
        | None => G_add_node (KStr rtr) NodeType.Router rtr;; mret (KStr rtr)
        | Some r => mret (KRouter r)
        end;
      edges_from_last last (KAtom atom);;
      G_add_edge (KAtom atom) rtr_node;;
      mret (Node (KAtom atom))
  | AQuantifiedAtom _ inner quantifier =>
      match quantifier, inner with
      | AOneOrMoreQuantifier, AAnyAtom _ =>
          G_add_node (KAtom atom) NodeType.ZeroOrMore "atom:router:.*"
      | AZeroOrMoreQuantifier, AAnyAtom _ =>
          G_add_node (KAtom atom) NodeType.OneOrMore "atom:router:.+"
      | _, _ => raise (Exception "Unknown atom")
      end;;
      edges_from_last last (KAtom atom);;
      mret (Node (KAtom atom))
  | AAnyAtom _ =>
      G_add_node (KAtom atom) NodeType.Any "router:.";;
      edges_from_last last (KAtom atom);;
      mret (Node (KAtom atom))
  | AOtherAtom _ => raise (Exception "Unknown atom type")
  end.

(** Lines 150-199: topology, labels and forwarding rules. *)
Definition encode_network (net : model.Model) : M (gmap string model.Router) :=
  name2router ← for_each encode_router ∅ (model.routers (model.topology net));
  for_each encode_link tt (model.links (model.topology net));;
  encode_labels (model.collect_labels (model.routing net));;
  for_each encode_table tt (model.routingTables (model.routing net));;
  mret name2router.

(** Lines 210-270: the query, given the tree the parser returned. *)
Definition encode_query (name2router : gmap string model.Router)
    (query_ast : PQuery) (k0 : Z) : M unit :=
  let constr := getConstructing query_ast in
  let destr := getDestructing query_ast in
  ensure_label_nodes constr;;
  ensure_label_nodes destr;;
  G_add_node_attrs (KEnum NodeType.Query)
    {| ntype := Some NodeType.Query; nlabel := Some "query"; k := Some k0 |};;
  last ← build_labels_graph_repr (Node (KEnum NodeType.Query)) constr;
  last ← for_each (encode_network_atom name2router) last (getNetwork query_ast);
  build_labels_graph_repr last destr;;
  mret tt.

(** [mpls2graph(net, query, k)], with the parsed query in place of its text
    (the lexer and parser of lines 202-204 are external). *)
Definition mpls2graph_body (net : model.Model) (query_ast : PQuery) (k0 : Z)
    : M unit :=
  name2router ← encode_network net;
  encode_query name2router query_ast k0.

Definition mpls2graph (net : model.Model) (query_ast : PQuery) (k0 : Z)
    : result Graph :=
  match mpls2graph_body net query_ast k0 empty_graph with
  | Ok (_, G) => Ok G
  | Raise e => Raise e
  end.

(** * [neural_network_qpred.py]: the graph as tensors *)

(** ** Views of [networkx.Graph] that the consumers read *)

(** [G.number_of_nodes()] and [G.number_of_edges()] *)
Definition number_of_nodes (G : Graph) : nat := length (nodes G).

Definition number_of_edges (G : Graph) : nat := length (edges G).

(** The other end of an edge at [n]. *)
Definition neighbour (n : key) (e : key * key) : option key :=
  if decide (e.1 = n) then Some e.2
  else if decide (e.2 = n) then Some e.1 else None.

(** [G.adj[n]]: the neighbours of [n], in the order their edges were
    added. *)
Definition adj (G : Graph) (n : key) : list key :=
  omap (neighbour n) (edges G).

(** [G.edges()]: the nodes in their order, each with its neighbours that
    were not visited before it. *)
Fixpoint edges_from (G : Graph) (seen ns : list key) : list (key * key) :=
  match ns with
  | [] => []
  | n :: r =>
      ((λ nbr, (n, nbr)) <$> filter (λ nbr, nbr ∉ seen) (adj G n))
      ++ edges_from G (n :: seen) r
  end.

Definition G_edges (G : Graph) : list (key * key) :=
  edges_from G [] (nodes G).*1.

(** ** Values and exceptions of [graph2torch] *)

(** The value of a member of the [IntEnum]: the members are numbered from
    1 in the order of their declaration (lines 15-28 of
    [graph_transformation.py]). *)
Definition NodeType_value (t : NodeType.t) : nat :=
  match t with
  | NodeType.Router => 1
  | NodeType.Interface => 2
  | NodeType.Label => 3
  | NodeType.Rule => 4
  | NodeType.PushAction => 5
  | NodeType.SwapAction => 6
  | NodeType.PopAction => 7
  | NodeType.Query => 8
  | NodeType.QueryAtom => 9
  | NodeType.Any => 10
  | NodeType.OneOrMore => 11
  | NodeType.ZeroOrMore => 12
  end.

(** [len(NodeType)] *)
Definition NodeType_len : nat := 12.

(** What a run ends in: a value, [KeyError] (a missing dict key),
    [IndexError] of a tensor, the error of a value that does not fit a
    64-bit integer, or an exception of [mpls2graph]. *)
Inductive outcome (A : Type) :=
| Done (a : A)
| KeyError
| TensorIndexError
| OverflowError
| Lowering (e : error).
Arguments Done {A} a.
Arguments KeyError {A}.
Arguments TensorIndexError {A}.
Arguments OverflowError {A}.
Arguments Lowering {A} e.

#[global] Instance outcome_ret : MRet outcome := λ A x, Done x.

#[global] Instance outcome_bind : MBind outcome := λ A B f m,
  match m with
  | Done a => f a
  | KeyError => KeyError
  | TensorIndexError => TensorIndexError
  | OverflowError => OverflowError
  | Lowering e => Lowering e
  end.

(** [d[k]] *)
Definition getitem {A} (d : option A) : outcome A :=
  match d with Some a => Done a | None => KeyError end.

(** A loop whose body updates the loop variables [s]. *)
Fixpoint for_outcome {S A : Type} (body : S → A → outcome S) (s : S)
    (l : list A) : outcome S :=
  match l with
  | [] => mret s
  | x :: r => s' ← body s x; for_outcome body s' r
  end.

(** [dict(zip(ks, vs))]: a later pair overwrites an earlier one. *)
Fixpoint dict_zip (ks : list key) (vs : list nat) (k : key) : option nat :=
  match ks, vs with
  | k' :: ks', v :: vs' =>
      match dict_zip ks' vs' k with
      | Some w => Some w
      | None => if decide (k' = k) then Some v else None
      end
  | _, _ => None
  end.

(** Tensors of rank one and two, as lists and lists of rows.
    [t[i] = v] and [t[i, j] = v] for indices that are not negative. *)
Definition setitem {A} (t : list A) (i : nat) (v : A) : outcome (list A) :=
  if decide (i < length t)%nat then Done (<[i := v]> t)
  else TensorIndexError.

Definition setitem2 {A} (t : list (list A)) (i j : nat) (v : A)
    : outcome (list (list A)) :=
  match t !! i with
  | None => TensorIndexError
  | Some row => row' ← setitem row j v; Done (<[i := row']> t)
  end.

(** A Python integer stored in an [int64] tensor. *)
Definition int64 (v : Z) : outcome Z :=
  if decide (- 2 ^ 63 ≤ v < 2 ^ 63)%Z then Done v else OverflowError.

(** [torch_geometric.data.Data(x, edge_index, y, mask)] *)
Module Data.
Record t :=
  { x : list (list Z); edge_index : list (list Z);
    y : list Z; mask : list bool }.
End Data.

(** ** [graph2torch] (lines 74-110)

    [G] holds the attributes [mpls2graph] sets; the key ["pred"] of the node
    data, which only the caller sets, is given by [pred]. *)

(** Lines 91-97: one node; the loop variables are [x], [y] and [mask]. *)
Definition graph2torch_node (ids : key → option nat) (pred : key → option Z)
    (s : list (list Z) * list Z * list bool) (nd : key * attrs)
    : outcome (list (list Z) * list Z * list bool) :=
  let '(x, y, mask) := s in
  nid ← getitem (ids nd.1);
  t ← getitem (ntype nd.2);
  x ← setitem2 x nid (NodeType_value t - 1) 1%Z;
  match pred nd.1 with
  | Some p =>
      p ← int64 p;
      y ← setitem y nid p;
      mask ← setitem mask nid true;
      mret (x, y, mask)
  | None => mret (x, y, mask)
  end.

(** Lines 101-108: one edge, as two directed edges; the loop variables are
    [edge_index] and [i]. *)
Definition graph2torch_edge (ids : key → option nat)
    (s : list (list Z) * nat) (e : key * key) : outcome (list (list Z) * nat) :=
  let '(edge_index, i) := s in
  src ← getitem (ids e.1);
  edge_index ← setitem2 edge_index 0 i (Z.of_nat src);
  dst ← getitem (ids e.2);
  edge_index ← setitem2 edge_index 1 i (Z.of_nat dst);
  let i := S i in
  dst ← getitem (ids e.2);
  edge_index ← setitem2 edge_index 0 i (Z.of_nat dst);
  src ← getitem (ids e.1);
  edge_index ← setitem2 edge_index 1 i (Z.of_nat src);
  mret (edge_index, S i).

Definition graph2torch (G : Graph) (pred : key → option Z)
    : outcome Data.t :=
  let n := number_of_nodes G in
  let ids := dict_zip (nodes G).*1 (seq 0 n) in
  let x := replicate n (replicate NodeType_len 0%Z) in
  let y := replicate n 0%Z in
  let mask := replicate n false in
  '(x, y, mask) ← for_outcome (graph2torch_node ids pred) (x, y, mask)
                    (nodes G);
  let edge_index := replicate 2 (replicate (number_of_edges G * 2) 0%Z) in
  '(edge_index, _) ← for_outcome (graph2torch_edge ids) (edge_index, 0%nat)
                       (G_edges G);
  mret {| Data.x := x; Data.edge_index := edge_index;
          Data.y := y; Data.mask := mask |}.

(** ** [graph2torch_worker] (lines 118-122): one query

    The query text is split by the regular expression and parsed outside;
    [query_result] is the recorded answer. *)
Definition graph2torch_worker (net : model.Model) (query_ast : PQuery)
    (k0 : Z) (query_result : Z) : outcome Data.t :=
  match mpls2graph net query_ast k0 with
  | Raise e => Lowering e
  | Ok G =>
      if has_node G (KEnum NodeType.Query) then
        graph2torch G
          (λ n, if decide (n = KEnum NodeType.Query) then Some query_result
                else None)
      else KeyError
  end.

(** * Vocabulary of the properties *)

(** ** Graphs, operations and growth *)

Definition keys (G : Graph) : list key := (nodes G).*1.

(** Every step of the construction is one of two operations.  [ext Φ G G']
    says that [G'] is reached from [G] by operations that satisfy [Φ]. *)
Inductive op :=
| AddNode (n : key) (a : attrs)
| AddEdge (u v : key).

Definition apply_op (G : Graph) (o : op) : Graph :=
  match o with
  | AddNode n a => add_node n a G
  | AddEdge u v => add_edge u v G
  end.

Inductive ext (Φ : op → Prop) (G : Graph) : Graph → Prop :=
| ext_refl : ext Φ G G
| ext_step G' o : ext Φ G G' → Φ o → ext Φ G (apply_op G' o).

(** [writes Φ m R]: a run of [m] that returns does so with a value in [R],
    by operations in [Φ]. *)
Definition writes {A} (Φ : op → Prop) (m : M A) (R : A → Prop) : Prop :=
  ∀ G, match m G with
       | Ok (x, G') => R x ∧ ext Φ G G'
       | Raise _ => True
       end.

(** The rule the encoder takes from a destination: the first rule of the
    first group. *)
Definition primary_of (dest : model.Destination) : option model.Rule :=
  match model.te_groups dest with
  | [] => None
  | g :: _ => head (model.rules g)
  end.

Definition primary (net : model.Model) (r : model.Rule) : Prop :=
  ∃ e dest, e ∈ model.routingTables (model.routing net) ∧
            dest ∈ model.destinations e.2 ∧ primary_of dest = Some r.

Definition action_label (x : model.Action) : option model.Label :=
  match x with
  | model.PushAction _ l | model.SwapAction _ l => Some l
  | _ => None
  end.

Definition action_type (x : model.Action) : option NodeType.t :=
  match x with
  | model.PushAction _ _ => Some NodeType.PushAction
  | model.SwapAction _ _ => Some NodeType.SwapAction
  | model.PopAction _ => Some NodeType.PopAction
  | model.OtherAction _ => None
  end.

(** Keys of the query part: atoms, strings and the enumeration member. *)
Definition is_query_key (n : key) : Prop :=
  match n with KAtom _ | KStr _ | KEnum _ => True | _ => False end.

Definition is_query_type (t : option NodeType.t) : Prop :=
  t ∈ [Some NodeType.Label; Some NodeType.QueryAtom; Some NodeType.ZeroOrMore;
       Some NodeType.OneOrMore; Some NodeType.Any; Some NodeType.Router;
       Some NodeType.Query].

(** The actions the encoder visits: those of the primary rules. *)
Definition encoded_action (net : model.Model) (x : model.Action) : Prop :=
  ∃ r, primary net r ∧ x ∈ model.actions r.

Definition rule_or_action (net : model.Model) (n : key) : Prop :=
  match n with
  | KRule r => primary net r
  | KAction x => encoded_action net x
  | _ => False
  end.

(** One constructor for each call of [add_node] and [add_edge] outside the
    query part, and two for the calls of the query part. *)
Inductive issued (net : model.Model) : op → Prop :=
| i_router r a :
    ntype a = Some NodeType.Router → issued net (AddNode (KRouter r) a)
| i_interface i a :
    ntype a = Some NodeType.Interface → issued net (AddNode (KInterface i) a)
| i_router_interface r i : issued net (AddEdge (KRouter r) (KInterface i))
| i_link i j : issued net (AddEdge (KInterface i) (KInterface j))
| i_label l a :
    ntype a = Some NodeType.Label → issued net (AddNode (KLabel l) a)
| i_rule r a :
    primary net r → ntype a = Some NodeType.Rule →
    issued net (AddNode (KRule r) a)
| i_rule_from r :
    primary net r →
    issued net (AddEdge (KRule r) (KInterface (model.from_ r)))
| i_rule_label r :
    primary net r → model.label r ≠ model.NoLabel →
    issued net (AddEdge (KRule r) (KLabel (model.label r)))
| i_action x a :
    encoded_action net x → ntype a = action_type x → action_type x ≠ None →
    issued net (AddNode (KAction x) a)
| i_action_label x l :
    encoded_action net x → action_label x = Some l →
    issued net (AddEdge (KAction x) (KLabel l))
| i_chain u x :
    rule_or_action net u → encoded_action net x →
    issued net (AddEdge u (KAction x))
| i_rule_to u i :
    rule_or_action net u → issued net (AddEdge u (KInterface i))
| i_query_node n a :
    is_query_key n → is_query_type (ntype a) → issued net (AddNode n a)
| i_query_edge u v :
    is_query_key u →
    (is_query_key v ∨ (∃ l, v = KLabel l) ∨ (∃ r, v = KRouter r)) →
    issued net (AddEdge u v).

Definition is_query_last (l : last_t) : Prop :=
  match l with
  | Node n => is_query_key n
  | Nodes l => ∀ n, n ∈ l → is_query_key n
  end.

Definition query_state (s : loop_state) : Prop :=
  is_query_last (lastnode s) ∧ ∀ n, n ∈ par_nodes s → is_query_key n.

Definition returns {A} (m : M A) (R : A → Prop) : Prop :=
  ∀ G x G', m G = Ok (x, G') → R x.

Definition always_raises {A} (m : M A) : Prop := ∀ G, ∃ e, m G = Raise e.

Definition action_ops (rtr : model.Router) (i j : nat) (last : key)
    (x : model.Action) : list op :=
  match x with
  | model.PushAction _ l =>
      [AddNode (KAction x)
         (mk_attrs NodeType.PushAction (action_nlabel rtr i j "PUSH"));
       AddEdge (KAction x) (KLabel l)]
  | model.SwapAction _ l =>
      [AddNode (KAction x)
         (mk_attrs NodeType.SwapAction (action_nlabel rtr i j "SWAP"));
       AddEdge (KAction x) (KLabel l)]
  | model.PopAction _ =>
      [AddNode (KAction x)
         (mk_attrs NodeType.PopAction (action_nlabel rtr i j "POP"))]
  | model.OtherAction _ => []
  end ++ [AddEdge last (KAction x)].

Fixpoint actions_ops (rtr : model.Router) (i j : nat) (last : key)
    (xs : list model.Action) : list op :=
  match xs with
  | [] => []
  | x :: r => action_ops rtr i j last x ++ actions_ops rtr i (S j) (KAction x) r
  end.

(** The nodes of the chain of a rule: the rule, its actions, the output
    interface. *)
Definition rule_path (rule : model.Rule) : list key :=
  KRule rule :: (KAction <$> model.actions rule)
             ++ [KInterface (model.to rule)].

Definition rule_ops (rtr : model.Router) (i : nat) (rule : model.Rule)
    : list op :=
  [AddNode (KRule rule) (mk_attrs NodeType.Rule (rule_nlabel rtr i));
   AddEdge (KRule rule) (KInterface (model.from_ rule))]
  ++ (if decide (model.label rule = model.NoLabel) then []
      else [AddEdge (KRule rule) (KLabel (model.label rule))])
  ++ actions_ops rtr i 0 (KRule rule) (model.actions rule)
  ++ [AddEdge (List.last (KAction <$> model.actions rule) (KRule rule))
              (KInterface (model.to rule))].

Definition known_action (x : model.Action) : Prop := action_type x ≠ None.

(** The consecutive pairs of a path. *)
Fixpoint path_edges (p : list key) : list (key * key) :=
  match p with
  | [] => []
  | u :: r => match r with [] => [] | v :: _ => (u, v) :: path_edges r end
  end.

Definition edge_op (e : key * key) : op := AddEdge e.1 e.2.

#[global] Instance known_action_dec x : Decision (known_action x).
Proof. unfold known_action. apply _. Defined.

Definition nodes_of (l : last_t) : list key :=
  match l with Node n => [n] | Nodes l => l end.

Definition node_label (G : Graph) (n : key) : option string :=
  a ← node_attrs G n; nlabel a.

(** The atoms the router path supports. *)
Definition supported_network_atom (atom : Atom) : Prop :=
  match atom with
  | ASimpleAtom _ _ | AAnyAtom _ => True
  | AQuantifiedAtom _ (AAnyAtom _) AZeroOrMoreQuantifier
  | AQuantifiedAtom _ (AAnyAtom _) AOneOrMoreQuantifier => True
  | _ => False
  end.

(** A model without routers and rules, to name the operations of the query
    part. *)
Definition empty_model : model.Model :=
  {| model.topology := {| model.routers := []; model.links := [] |};
     model.routing :=
       {| model.routingTables := []; model.collect_labels := [] |} |}.

(** The label an atom names, as [ensure_label_nodes] reads it. *)
Definition named_label (atom : Atom) : option model.Label :=
  match atom with
  | ASimpleAtom _ symb => Some (label_of_symbol symb)
  | AQuantifiedAtom _ (ASimpleAtom _ symb) _ => Some (label_of_symbol symb)
  | _ => None
  end.

Definition pattern_labels (st : option (list Atom)) : list model.Label :=
  match st with None => [] | Some atoms => omap named_label atoms end.

Definition registered (L : list model.Label) (G : Graph) : Prop :=
  ∀ l, l ∈ L → has_node G (KLabel l) = true.

(** [safe L m]: from a graph in which the labels of [L] are nodes, [m] does
    not raise [AssertionError], and the labels are still nodes afterwards. *)
Definition safe {A} (L : list model.Label) (m : M A) : Prop :=
  ∀ G, registered L G →
       match m G with
       | Ok (_, G') => registered L G'
       | Raise e => e ≠ AssertionError
       end.

(** The one operation of [ensure_label_nodes]: a label node of type
    [Label]. *)
Definition label_op (o : op) : Prop :=
  ∃ l a, o = AddNode (KLabel l) a ∧ ntype a = Some NodeType.Label.

(** ** A small network and four queries *)

Definition R1_i0 : model.Interface :=
  {| model.iface_id := 1; model.iface_name := "i0" |}.
Definition R1_i1 : model.Interface :=
  {| model.iface_id := 2; model.iface_name := "i1" |}.
Definition R2_i0 : model.Interface :=
  {| model.iface_id := 3; model.iface_name := "i0" |}.

Definition R1 : model.Router :=
  {| model.rtr_id := 1; model.rtr_name := "R1";
     model.interfaces := [R1_i0; R1_i1] |}.
Definition R2 : model.Router :=
  {| model.rtr_id := 2; model.rtr_name := "R2"; model.interfaces := [R2_i0] |}.

Definition L1 : model.Label := model.MkLabel "L1".
Definition L2 : model.Label := model.MkLabel "L2".

(** Swap to [L2], then pop, from [i0] to [i1]. *)
Definition rule_swap : model.Rule :=
  {| model.rule_id := 1; model.from_ := R1_i0; model.label := L1;
     model.actions := [model.SwapAction 1 L2; model.PopAction 2];
     model.to := R1_i1 |}.

Definition rule_backup : model.Rule :=
  {| model.rule_id := 2; model.from_ := R1_i1; model.label := model.NoLabel;
     model.actions := [model.PushAction 3 L1]; model.to := R1_i0 |}.

(** One destination whose first group holds two rules and whose second
    group holds one; only [rule_swap] is primary. *)
Definition small_net : model.Model :=
  {| model.topology :=
       {| model.routers := [R1; R2];
          model.links :=
            [{| model.lnk_from_ := {| model.interface := R1_i1 |};
                model.lnk_to := {| model.interface := R2_i0 |} |}] |};
     model.routing :=
       {| model.routingTables :=
            [(R1, {| model.destinations :=
                       [{| model.te_groups :=
                             [{| model.rules := [rule_swap; rule_backup] |};
                              {| model.rules := [rule_backup] |}] |}] |})];
          model.collect_labels := [L1; L2] |} |}.

Definition atom_a : Atom := ASimpleAtom 1 "L1".
Definition atom_b : Atom := ASimpleAtom 2 "L2".

(** [<L1+ L2> R1 <>] *)
Definition query_branch : PQuery :=
  {| getConstructing :=
       Some [AQuantifiedAtom 3 atom_a AOneOrMoreQuantifier; atom_b];
     getNetwork := [ASimpleAtom 4 "R1"];
     getDestructing := None |}.

(** [<> R9 <.>]: no router is called [R9]. *)
Definition query_unknown_router : PQuery :=
  {| getConstructing := None;
     getNetwork := [ASimpleAtom 1 "R9"];
     getDestructing := Some [AAnyAtom 2] |}.

(** [<> empty <.>]: no router is called [empty]. *)
Definition query_router_named_empty : PQuery :=
  {| getConstructing := None;
     getNetwork := [ASimpleAtom 1 "empty"];
     getDestructing := Some [AAnyAtom 2] |}.

(** [<L1 .*> . <>] *)
Definition query_star_after_plain : PQuery :=
  {| getConstructing :=
       Some [atom_a; AQuantifiedAtom 2 (AAnyAtom 3) AZeroOrMoreQuantifier];
     getNetwork := [AAnyAtom 4];
     getDestructing := None |}.

(** The graph with the two labels registered and the query node. *)
Definition labels_graph : Graph :=
  add_node (KEnum NodeType.Query) (mk_attrs NodeType.Query "query")
    (add_node (KLabel L2) (mk_attrs NodeType.Label "label:L2")
       (add_node (KLabel L1) (mk_attrs NodeType.Label "label:L1")
          empty_graph)).

(** ** Simple graphs *)

(** What [networkx.Graph] keeps: a key is a node once, the ends of an edge
    are nodes, and two nodes have at most one edge, stored once. *)
Definition simple_graph (G : Graph) : Prop :=
  NoDup (keys G) ∧
  (∀ u v, (u, v) ∈ edges G → u ∈ keys G ∧ v ∈ keys G) ∧
  NoDup (edges G) ∧
  (∀ u v, (u, v) ∈ edges G → u ≠ v → (v, u) ∉ edges G).

(** ** The operations of the topology and of the labels *)

Definition interface_ops (rtr : model.Router) (iface : model.Interface)
    : list op :=
  [AddNode (KInterface iface)
     (mk_attrs NodeType.Interface
        ("intf:" +:+ model.rtr_name rtr +:+ ":" +:+ model.iface_name iface));
   AddEdge (KRouter rtr) (KInterface iface)].

Definition router_ops (rtr : model.Router) : list op :=
  AddNode (KRouter rtr)
    (mk_attrs NodeType.Router ("router:" +:+ model.rtr_name rtr))
  :: concat (interface_ops rtr <$> model.interfaces rtr).

Definition link_op (lnk : model.Link) : op :=
  AddEdge (KInterface (model.interface (model.lnk_from_ lnk)))
          (KInterface (model.interface (model.lnk_to lnk))).

Definition label_node_op (lbl : model.Label) : op :=
  AddNode (KLabel lbl) (mk_attrs NodeType.Label ("label:" +:+ model.name lbl)).

Definition labels_ops (lbls : list model.Label) : list op :=
  AddNode (KLabel model.NoLabel) (mk_attrs NodeType.Label "label:none")
  :: (label_node_op <$> lbls).

(** ** Router names *)

(** The router a name stands for in [name2router]: the last router of the
    list with that name. *)
Definition router_named (name : string) (l : list model.Router)
    : option model.Router :=
  last (filter (λ r, model.rtr_name r = name) l).

#[global] Instance supported_network_atom_dec atom :
  Decision (supported_network_atom atom).
Proof.
  destruct atom as [? ?| ? |? [] []| ?]; cbn; apply _.
Defined.

(** ** Patterns of plain atoms *)

(** An atom that is not quantified and that [atom_label_to_node] accepts. *)
Definition plain_atom (atom : Atom) : Prop :=
  match atom with ASimpleAtom _ _ | AAnyAtom _ => True | _ => False end.

(** The loop variables between two atoms when no branch is open. *)
Definition chain_state (m : key) (prev : option Atom) : loop_state :=
  {| lastnode := Node m; par_nodes := []; lastatom := prev;
     branch_next := false |}.

(** ** The query node *)

(** Every operation but the creation of the query node: it is no
    [add_node] on the key of the query node and sets no type [Query]. *)
Definition not_query_op (o : op) : Prop :=
  match o with
  | AddNode n a => n ≠ KEnum NodeType.Query ∧ ntype a ≠ Some NodeType.Query
  | AddEdge _ _ => True
  end.

(** The attributes [mpls2graph] gives the query node. *)
Definition query_attrs (k0 : Z) : attrs :=
  {| ntype := Some NodeType.Query; nlabel := Some "query"; k := Some k0 |}.

(** ** Typed nodes *)

(** Every node has the attributes [ntype] and [nlabel]: what the
    documentation of [mpls2graph] promises, and what [graph2torch] and [main]
    read from the nodes. *)
Definition typed (G : Graph) : Prop :=
  ∀ n, n ∈ keys G → is_Some (node_type G n) ∧ is_Some (node_label G n).

(** [keeps pre m post]: on a graph whose nodes all have the two attributes
    and on which the keys of [pre] are nodes, a run of [m] that returns
    leaves such a graph, keeps the nodes, and the keys of [post] are nodes. *)
Definition keeps {A} (pre : list key) (m : M A) (post : A → list key) : Prop :=
  ∀ G, typed G → (∀ n, n ∈ pre → n ∈ keys G) →
       match m G with
       | Ok (x, G') =>
           typed G' ∧ (∀ n, n ∈ keys G → n ∈ keys G') ∧
           (∀ n, n ∈ post x → n ∈ keys G')
       | Raise _ => True
       end.

(** The model is well formed: links and primary rules refer to interfaces
    of the routers, and rules and actions to labels that [collect_labels]
    gives (or to the sentinel). *)
Definition all_interfaces (net : model.Model) : list model.Interface :=
  model.routers (model.topology net) ≫= model.interfaces.

Definition known_label (net : model.Model) (l : model.Label) : Prop :=
  l ∈ model.NoLabel :: model.collect_labels (model.routing net).

Definition wf_rule (net : model.Model) (r : model.Rule) : Prop :=
  model.from_ r ∈ all_interfaces net ∧
  model.to r ∈ all_interfaces net ∧
  known_label net (model.label r) ∧
  ∀ x l, x ∈ model.actions r → action_label x = Some l → known_label net l.

Definition wf_model (net : model.Model) : Prop :=
  (∀ lnk, lnk ∈ model.links (model.topology net) →
     model.interface (model.lnk_from_ lnk) ∈ all_interfaces net ∧
     model.interface (model.lnk_to lnk) ∈ all_interfaces net) ∧
  (∀ r, primary net r → wf_rule net r).

(** The keys the topology and the labels leave as nodes. *)
Definition router_keys (rtr : model.Router) : list key :=
  KRouter rtr :: (KInterface <$> model.interfaces rtr).

Definition base_keys (net : model.Model) : list key :=
  (KLabel <$> model.NoLabel :: model.collect_labels (model.routing net))
  ++ (model.routers (model.topology net) ≫= router_keys).

(** The nodes the loop of [build_labels_graph_repr] still refers to. *)
Definition loop_keys (s : loop_state) : list key :=
  nodes_of (lastnode s) ++ par_nodes s.

(** ** The tensors of [graph2torch] *)

(** The position of a node in the order of the nodes. *)
Definition node_id (G : Graph) (n : key) : nat :=
  default 0%nat (fst <$> list_find (λ m, m = n) (keys G)).

(** The row of [x] of a node of type [t]: a one in the column of [t]. *)
Definition one_hot (t : NodeType.t) : list Z :=
  <[(NodeType_value t - 1)%nat := 1%Z]> (replicate NodeType_len 0%Z).

Definition feature_row (a : attrs) : list Z :=
  match ntype a with
  | Some t => one_hot t
  | None => replicate NodeType_len 0%Z
  end.

(** The recorded answers fit a 64-bit integer. *)
Definition fits_int64 (pred : key → option Z) : Prop :=
  ∀ n p, pred n = Some p → (- 2 ^ 63 ≤ p < 2 ^ 63)%Z.

(** The columns of [edge_index]: pairs of a source and a target. *)
Definition columns (d : Data.t) : list (Z * Z) :=
  match Data.edge_index d with
  | [r0; r1] => zip r0 r1
  | _ => []
  end.

(** The graph of the small network and of the query with a branch. *)
Definition small_graph : Graph :=
  match mpls2graph small_net query_branch 5 with
  | Ok G => G
  | Raise _ => empty_graph
  end.

(** A graph in which an edge has created a node: the node has no
    attributes. *)
Definition dangling_graph : Graph :=
  add_edge (KEnum NodeType.Query) (KStr "x") labels_graph.

(** An interface of no router, and the small network with a link to it. *)
Definition stray : model.Interface :=
  {| model.iface_id := 9; model.iface_name := "i9" |}.

Definition dangling_net : model.Model :=
  {| model.topology :=
       {| model.routers := [R1; R2];
          model.links :=
            [{| model.lnk_from_ := {| model.interface := R1_i1 |};
                model.lnk_to := {| model.interface := stray |} |}] |};
     model.routing := model.routing small_net |}.

(** Every operation but [add_node] on the key [n]. *)
Definition not_node_op (n : key) (o : op) : Prop :=
  match o with
  | AddNode m _ => m ≠ n
  | AddEdge _ _ => True
  end.

(** ** The kinds of the edges *)

(** The pairs of keys an edge joins, in the order of the call that creates
    it: a router and its interface, the two interfaces of a link, a rule and its input
    interface, its label or its first action, an action and its label, the
    next action or the output interface, and in the query part a node of
    the query and a node of the query, a label or a router. *)
Definition edge_kind (u v : key) : Prop :=
  match u, v with
  | KRouter _, KInterface _
  | KInterface _, KInterface _
  | KRule _, (KInterface _ | KLabel _ | KAction _)
  | KAction _, (KInterface _ | KLabel _ | KAction _)
  | (KAtom _ | KStr _ | KEnum _),
    (KAtom _ | KStr _ | KEnum _ | KLabel _ | KRouter _) => True
  | _, _ => False
  end.

(** ** The types of the nodes by their keys *)

(** The types the node of an atom can have: a plain atom is a [QueryAtom];
    an "any" atom is a [Label] in a label pattern and an [Any] on the router
    path; a quantified atom is a [ZeroOrMore] or a [OneOrMore]. *)
Definition atom_type (a : Atom) (t : NodeType.t) : Prop :=
  match a with
  | ASimpleAtom _ _ => t = NodeType.QueryAtom
  | AAnyAtom _ => t = NodeType.Label ∨ t = NodeType.Any
  | AQuantifiedAtom _ _ _ => t = NodeType.ZeroOrMore ∨ t = NodeType.OneOrMore
  | AOtherAtom _ => False
  end.

Definition key_type (n : key) (t : NodeType.t) : Prop :=
  match n with
  | KRouter _ => t = NodeType.Router
  | KInterface _ => t = NodeType.Interface
  | KLabel _ => t = NodeType.Label
  | KRule _ => t = NodeType.Rule
  | KAction x => action_type x = Some t
  | KAtom a => atom_type a t
  | KStr s => t = NodeType.Router ∨ (t = NodeType.Label ∧ s = "empty")
  | KEnum _ => t = NodeType.Query
  end.

(** Keys of the network part. *)
Definition net_key (n : key) : Prop :=
  match n with
  | KRouter _ | KInterface _ | KLabel _ | KRule _ | KAction _ => True
  | _ => False
  end.

(** The operations of [encode_network]: typed nodes on keys of the network
    part, and edges between such keys. *)
Definition net_op (o : op) : Prop :=
  match o with
  | AddNode n a => net_key n ∧ ∃ t, ntype a = Some t ∧ key_type n t
  | AddEdge u v => net_key u ∧ net_key v
  end.

(** The operations of the pattern encoders: typed nodes on atoms and
    strings, and edges. *)
Definition pattern_op (o : op) : Prop :=
  match o with
  | AddNode n a =>
      match n with KAtom _ | KStr _ => True | _ => False end
      ∧ ∃ t, ntype a = Some t ∧ key_type n t
  | AddEdge _ _ => True
  end.

(** * Properties *)

(** ** The graph operations *)

Lemma has_node_true G n : has_node G n = true ↔ n ∈ keys G.
Proof. unfold has_node, keys. by rewrite bool_decide_eq_true. Qed.

Lemma has_edge_true G u v :
  has_edge G u v = true ↔ (u, v) ∈ edges G ∨ (v, u) ∈ edges G.
Proof. unfold has_edge. by rewrite bool_decide_eq_true. Qed.

Lemma has_edge_false G u v :
  has_edge G u v = false ↔ ((u, v) ∉ edges G) ∧ ((v, u) ∉ edges G).
Proof. unfold has_edge. rewrite bool_decide_eq_false. tauto. Qed.

Lemma has_edge_sym G u v : has_edge G u v = has_edge G v u.
Proof. unfold has_edge. apply bool_decide_ext. tauto. Qed.

Lemma update_node_fst n a p : (update_node n a p).1 = p.1.
Proof. unfold update_node. by destruct (decide _). Qed.

Lemma keys_update_node n a l : (update_node n a <$> l).*1 = l.*1.
Proof.
  induction l as [|p l IH]; [done|]. cbn. by rewrite update_node_fst, IH.
Qed.

Lemma edges_add_node n a G : edges (add_node n a G) = edges G.
Proof. unfold add_node. by destruct (has_node G n). Qed.

Lemma keys_add_node n a G :
  keys (add_node n a G) = if has_node G n then keys G else keys G ++ [n].
Proof.
  unfold add_node, keys. destruct (has_node G n); cbn.
  - apply keys_update_node.
  - by rewrite fmap_app.
Qed.

Lemma elem_of_keys_add_node n a G m :
  m ∈ keys (add_node n a G) ↔ m ∈ keys G ∨ m = n.
Proof.
  rewrite keys_add_node. destruct (has_node G n) eqn:E.
  - apply has_node_true in E. split; [auto|]. intros [?| ->]; auto.
  - rewrite elem_of_app, list_elem_of_singleton. done.
Qed.

Lemma edges_touch n G : edges (touch n G) = edges G.
Proof. unfold touch. by destruct (has_node G n). Qed.

Lemma elem_of_keys_touch n G m :
  m ∈ keys (touch n G) ↔ m ∈ keys G ∨ m = n.
Proof.
  unfold touch. destruct (has_node G n) eqn:E.
  - apply has_node_true in E. split; [auto|]. intros [?| ->]; auto.
  - unfold keys. cbn. rewrite fmap_app, elem_of_app. cbn.
    by rewrite list_elem_of_singleton.
Qed.

Lemma has_edge_touch n G u v : has_edge (touch n G) u v = has_edge G u v.
Proof. unfold has_edge. by rewrite edges_touch. Qed.

Lemma edges_add_edge u v G :
  edges (add_edge u v G) =
  if has_edge G u v then edges G else edges G ++ [(u, v)].
Proof.
  unfold add_edge. cbn. rewrite !has_edge_touch.
  destruct (has_edge G u v); cbn; by rewrite !edges_touch.
Qed.

Lemma elem_of_keys_add_edge u v G m :
  m ∈ keys (add_edge u v G) ↔ m ∈ keys G ∨ m = u ∨ m = v.
Proof.
  unfold add_edge. cbn.
  assert (keys (if has_edge (touch v (touch u G)) u v
                then touch v (touch u G)
                else {| nodes := nodes (touch v (touch u G));
                        edges := edges (touch v (touch u G)) ++ [(u, v)] |})
          = keys (touch v (touch u G))) as ->
    by (by destruct (has_edge _ u v)).
  rewrite !elem_of_keys_touch. tauto.
Qed.

Lemma elem_of_edges_add_edge u v G e :
  e ∈ edges (add_edge u v G) ↔
  e ∈ edges G ∨ (e = (u, v) ∧ has_edge G u v = false).
Proof.
  rewrite edges_add_edge. destruct (has_edge G u v) eqn:E.
  - split; [auto|]. by intros [?|[_ ?]].
  - rewrite elem_of_app, list_elem_of_singleton. naive_solver.
Qed.

Lemma has_edge_add_edge u v G x y :
  has_edge (add_edge u v G) x y =
  has_edge G x y || bool_decide ((x = u ∧ y = v) ∨ (x = v ∧ y = u)).
Proof.
  apply eq_true_iff_eq.
  rewrite orb_true_iff, bool_decide_eq_true, !has_edge_true,
    !elem_of_edges_add_edge.
  destruct (has_edge G u v) eqn:E.
  - apply has_edge_true in E. naive_solver.
  - naive_solver.
Qed.

Lemma has_edge_add_node n a G x y :
  has_edge (add_node n a G) x y = has_edge G x y.
Proof. unfold has_edge. by rewrite edges_add_node. Qed.

(** Attributes after the two operations. *)

Lemma update_no_attrs a : update no_attrs a = a.
Proof. by destruct a as [[?|] [?|] [?|]]. Qed.

Lemma lookup_attrs_None l n : lookup_attrs l n = None ↔ n ∉ l.*1.
Proof.
  induction l as [|[m a] l IH]; cbn.
  - split; [intros _; apply not_elem_of_nil | done].
  - rewrite not_elem_of_cons. destruct (decide (m = n)); naive_solver.
Qed.

Lemma lookup_attrs_app l1 l2 n :
  lookup_attrs (l1 ++ l2) n =
  match lookup_attrs l1 n with Some a => Some a | None => lookup_attrs l2 n end.
Proof.
  induction l1 as [|[m a] l1 IH]; cbn; [done|]. by destruct (decide (m = n)).
Qed.

Lemma lookup_attrs_update n a l m :
  lookup_attrs (update_node n a <$> l) m =
  if decide (m = n) then (λ b, update b a) <$> lookup_attrs l m
  else lookup_attrs l m.
Proof.
  induction l as [|[m' b] l IH]; cbn.
  - by destruct (decide (m = n)).
  - unfold update_node at 1. cbn.
    destruct (decide (m' = n)) as [->|]; cbn;
      destruct (decide _) as [->|]; try done;
      destruct (decide _); try done; congruence.
Qed.

Lemma node_attrs_add_node n a G m :
  node_attrs (add_node n a G) m =
  if decide (m = n)
  then Some (update (default no_attrs (node_attrs G n)) a)
  else node_attrs G m.
Proof.
  unfold node_attrs, add_node. destruct (has_node G n) eqn:E; cbn.
  - rewrite lookup_attrs_update. destruct (decide (m = n)) as [->|]; [|done].
    apply has_node_true in E.
    destruct (lookup_attrs (nodes G) n) eqn:L; [done|].
    by apply lookup_attrs_None in L.
  - assert (n ∉ keys G) as Hn.
    { intros ?%has_node_true. congruence. }
    apply lookup_attrs_None in Hn. rewrite lookup_attrs_app. cbn.
    destruct (decide (m = n)) as [->|].
    + rewrite Hn. cbn. rewrite update_no_attrs.
      by destruct (decide (n = n)).
    + destruct (lookup_attrs (nodes G) m); [done|].
      by destruct (decide (n = m)).
Qed.

Lemma node_type_add_node n a G m :
  node_type (add_node n a G) m =
  if decide (m = n)
  then match ntype a with Some t => Some t | None => node_type G n end
  else node_type G m.
Proof.
  unfold node_type. rewrite node_attrs_add_node.
  destruct (decide (m = n)) as [->|]; [|done]. cbn.
  destruct (ntype a); [done|]. by destruct (node_attrs G n).
Qed.

Lemma node_type_touch n G m : node_type (touch n G) m = node_type G m.
Proof.
  unfold node_type, node_attrs, touch. destruct (has_node G n) eqn:E; [done|].
  cbn. rewrite lookup_attrs_app. cbn.
  destruct (lookup_attrs (nodes G) m); [done|]. by destruct (decide _).
Qed.

Lemma node_type_add_edge u v G m :
  node_type (add_edge u v G) m = node_type G m.
Proof.
  unfold add_edge. cbn.
  transitivity (node_type (touch v (touch u G)) m).
  - by destruct (has_edge _ u v).
  - by rewrite !node_type_touch.
Qed.

(** ** Computations: inversion of [bind] and loops *)

Lemma bind_Ok {A B} (m : M A) (f : A → M B) G r :
  (m ≫= f) G = Ok r ↔ ∃ x G1, m G = Ok (x, G1) ∧ f x G1 = Ok r.
Proof.
  unfold mbind, M_bind. destruct (m G) as [[x G1]|e].
  - split; [eauto|]. by intros (? & ? & [= <- <-] & ?).
  - split; [done|]. by intros (? & ? & ? & ?).
Qed.

Lemma bind_Raise {A B} (m : M A) (f : A → M B) G e :
  (m ≫= f) G = Raise e ↔
  m G = Raise e ∨ ∃ x G1, m G = Ok (x, G1) ∧ f x G1 = Raise e.
Proof.
  unfold mbind, M_bind. destruct (m G) as [[x G1]|e'].
  - split; [intros ?; right; eauto|]. by intros [?|(? & ? & [= <- <-] & ?)].
  - split; [intros [= ->]; by left|]. by intros [[= ->]|(? & ? & ? & ?)].
Qed.

Lemma bind_run_Ok {A B} (m : M A) (f : A → M B) G x G1 :
  m G = Ok (x, G1) → (m ≫= f) G = f x G1.
Proof. unfold mbind, M_bind. by intros ->. Qed.

Lemma bind_run_Raise {A B} (m : M A) (f : A → M B) G e :
  m G = Raise e → (m ≫= f) G = Raise e.
Proof. unfold mbind, M_bind. by intros ->. Qed.

Lemma run_ret {A} (x : A) G : (mret x : M A) G = Ok (x, G).
Proof. reflexivity. Qed.

Lemma run_add_node n t lbl G :
  G_add_node n t lbl G = Ok (tt, add_node n (mk_attrs t lbl) G).
Proof. reflexivity. Qed.

Lemma run_add_edge u v G : G_add_edge u v G = Ok (tt, add_edge u v G).
Proof. reflexivity. Qed.

Lemma for_each_nil {S A} (body : S → A → M S) s G :
  for_each body s [] G = Ok (s, G).
Proof. done. Qed.

Lemma for_each_app {S A} (body : S → A → M S) l1 l2 s G :
  for_each body s (l1 ++ l2) G =
  match for_each body s l1 G with
  | Ok (s', G') => for_each body s' l2 G'
  | Raise e => Raise e
  end.
Proof.
  revert s G. induction l1 as [|x l1 IH]; intros s G; cbn; [done|].
  unfold mbind, M_bind. destruct (body s x G) as [[s1 G1]|e]; [|done].
  apply IH.
Qed.

(** A loop over a list that holds [x] raises as soon as the body raises on
    [x] whatever the loop variables and the graph are. *)
Lemma for_each_raises {S A} (body : S → A → M S) x l :
  x ∈ l → (∀ s G, ∃ e, body s x G = Raise e) →
  ∀ s G, ∃ e, for_each body s l G = Raise e.
Proof.
  intros Hx Hbody. induction l as [|y l IH]; intros s G.
  - by apply elem_of_nil in Hx.
  - cbn. unfold mbind, M_bind.
    apply elem_of_cons in Hx as [<-|Hx].
    + destruct (Hbody s G) as [e ->]. eauto.
    + destruct (body s y G) as [[s1 G1]|e]; eauto.
Qed.

(** ** Graphs only grow *)

Lemma ext_trans Φ G1 G2 G3 : ext Φ G1 G2 → ext Φ G2 G3 → ext Φ G1 G3.
Proof. intros H12 H23. induction H23; [done|]. by constructor. Qed.

Lemma ext_weaken (Φ Ψ : op → Prop) G G' :
  (∀ o, Φ o → Ψ o) → ext Φ G G' → ext Ψ G G'.
Proof. intros HΦ H. induction H; [constructor|]. constructor; auto. Qed.

Lemma ext_one (Φ : op → Prop) G o : Φ o → ext Φ G (apply_op G o).
Proof. intros. constructor; [constructor|done]. Qed.

Section ext_facts.
Context (Φ : op → Prop).

Lemma ext_keys G G' n : ext Φ G G' → n ∈ keys G → n ∈ keys G'.
Proof.
  intros H Hn. induction H as [|G' [m a|u v] _ IH _]; [done| |]; cbn.
  - apply elem_of_keys_add_node. auto.
  - apply elem_of_keys_add_edge. auto.
Qed.

Lemma ext_has_node G G' n :
  ext Φ G G' → has_node G n = true → has_node G' n = true.
Proof. rewrite !has_node_true. apply ext_keys. Qed.

Lemma ext_edges G G' : ext Φ G G' → ∃ es, edges G' = edges G ++ es.
Proof.
  intros H. induction H as [|G' [m a|u v] _ [es IH] _]; cbn.
  - exists []. by rewrite app_nil_r.
  - exists es. by rewrite edges_add_node.
  - rewrite edges_add_edge. destruct (has_edge G' u v); [eauto|].
    exists (es ++ [(u, v)]). by rewrite IH, app_assoc.
Qed.

Lemma ext_has_edge G G' u v :
  ext Φ G G' → has_edge G u v = true → has_edge G' u v = true.
Proof.
  intros [es Hes]%ext_edges. rewrite !has_edge_true, Hes, !elem_of_app. tauto.
Qed.

(** Where an edge, a node and a node type of the later graph come from. *)

Lemma ext_edge_origin G G' u v :
  ext Φ G G' → (u, v) ∈ edges G' → (u, v) ∈ edges G ∨ Φ (AddEdge u v).
Proof.
  intros H. induction H as [|G' [m a|x y] _ IH HΦ]; cbn; [auto| |].
  - by rewrite edges_add_node.
  - rewrite elem_of_edges_add_edge. intros [?|[[= -> ->] _]]; auto.
Qed.

Lemma ext_key_origin G G' n :
  ext Φ G G' → n ∈ keys G' →
  n ∈ keys G ∨ (∃ a, Φ (AddNode n a)) ∨
  (∃ v, Φ (AddEdge n v)) ∨ (∃ u, Φ (AddEdge u n)).
Proof.
  intros H. induction H as [|G' [m a|x y] _ IH HΦ]; cbn; [auto| |].
  - rewrite elem_of_keys_add_node. intros [?| ->]; [auto|]. eauto.
  - rewrite elem_of_keys_add_edge. intros [?|[->| ->]]; [auto| |]; eauto 6.
Qed.

Lemma ext_type_origin G G' n t :
  ext Φ G G' → node_type G' n = Some t →
  node_type G n = Some t ∨ ∃ a, Φ (AddNode n a) ∧ ntype a = Some t.
Proof.
  intros H. induction H as [|G' [m a|x y] _ IH HΦ]; cbn; [auto| |].
  - rewrite node_type_add_node. destruct (decide (n = m)) as [->|]; [|done].
    destruct (ntype a) eqn:Ea; [|done]. intros [= ->]. eauto.
  - by rewrite node_type_add_edge.
Qed.

Lemma ext_type_stable G G' n t :
  (∀ a, Φ (AddNode n a) → ntype a = Some t ∨ ntype a = None) →
  ext Φ G G' → node_type G n = Some t → node_type G' n = Some t.
Proof.
  intros Hn H Ht. induction H as [|G' [m a|x y] _ IH HΦ]; cbn; [auto| |].
  - rewrite node_type_add_node. destruct (decide (n = m)) as [->|]; [|done].
    by destruct (Hn _ HΦ) as [-> | ->].
  - by rewrite node_type_add_edge.
Qed.

End ext_facts.

Section writes_rules.
Context (Φ : op → Prop).

Lemma writes_ret {A} (x : A) (R : A → Prop) : R x → writes Φ (mret x) R.
Proof. intros ? G. cbn. split; [done|constructor]. Qed.

Lemma writes_raise {A} e (R : A → Prop) : writes Φ (raise e) R.
Proof. by intros G. Qed.

Lemma writes_bind {A B} (m : M A) (f : A → M B) R R' :
  writes Φ m R → (∀ x, R x → writes Φ (f x) R') → writes Φ (m ≫= f) R'.
Proof.
  intros Hm Hf G. specialize (Hm G). unfold mbind, M_bind.
  destruct (m G) as [[x G1]|e]; [|done]. destruct Hm as [HR H1].
  specialize (Hf x HR G1). destruct (f x G1) as [[y G2]|e]; [|done].
  destruct Hf. eauto using ext_trans.
Qed.

Lemma writes_conseq {A} (m : M A) (R R' : A → Prop) :
  writes Φ m R → (∀ x, R x → R' x) → writes Φ m R'.
Proof.
  intros Hm HR G. specialize (Hm G). destruct (m G) as [[x G1]|e]; [|done].
  naive_solver.
Qed.

Lemma writes_add_node_attrs n a (R : unit → Prop) :
  Φ (AddNode n a) → R tt → writes Φ (G_add_node_attrs n a) R.
Proof. intros ?? G. cbn. split; [done|]. by apply (ext_one Φ G (AddNode n a)). Qed.

Lemma writes_add_node n t lbl (R : unit → Prop) :
  Φ (AddNode n (mk_attrs t lbl)) → R tt →
  writes Φ (G_add_node n t lbl) R.
Proof. apply writes_add_node_attrs. Qed.

Lemma writes_add_edge u v (R : unit → Prop) :
  Φ (AddEdge u v) → R tt → writes Φ (G_add_edge u v) R.
Proof. intros ?? G. cbn. split; [done|]. by apply (ext_one Φ G (AddEdge u v)). Qed.

Lemma writes_has_node n (R : bool → Prop) :
  (∀ b, R b) → writes Φ (G_has_node n) R.
Proof. intros ? G. cbn. split; [done|constructor]. Qed.

Lemma writes_add_edge_from u v (R : unit → Prop) :
  (∀ n, u = Node n → Φ (AddEdge n v)) → R tt →
  writes Φ (G_add_edge_from u v) R.
Proof.
  intros Hu ?. destruct u; cbn; [|apply writes_raise].
  apply writes_add_edge; auto.
Qed.

Lemma writes_add_edges_from l v (R : unit → Prop) :
  (∀ n, n ∈ l → Φ (AddEdge n v)) → R tt →
  writes Φ (G_add_edges_from l v) R.
Proof.
  intros Hl ?. induction l as [|n l IH]; cbn; [by apply writes_ret|].
  eapply writes_bind with (R := λ _, True).
  - apply writes_add_edge; [|done]. apply Hl. by left.
  - intros _ _. apply IH. intros. apply Hl. by right.
Qed.

Lemma writes_for_each {S A} (body : S → A → M S) (I : S → Prop) l s :
  (∀ s x, I s → x ∈ l → writes Φ (body s x) I) → I s →
  writes Φ (for_each body s l) I.
Proof.
  revert s. induction l as [|x l IH]; intros s Hbody Hs; cbn.
  - by apply writes_ret.
  - eapply writes_bind.
    + apply Hbody; [done|by left].
    + intros s' Hs'. apply IH; [|done]. intros. apply Hbody; [done|by right].
Qed.

End writes_rules.

(** ** The operations [mpls2graph] can issue *)

Create HintDb fp.

Section footprint.
Context (net : model.Model).

Local Hint Constructors issued : fp.
Local Hint Resolve writes_ret writes_raise writes_add_node writes_add_edge
  writes_add_node_attrs writes_has_node : fp.
Local Hint Extern 1 (is_query_type _) => (unfold is_query_type; cbn; set_solver) : fp.
Local Hint Extern 1 (is_query_key _) => exact I : fp.

Lemma writes_encode_router n2r rtr :
  writes (issued net) (encode_router n2r rtr) (λ _, True).
Proof.
  unfold encode_router.
  eapply writes_bind with (R := λ _, True); [auto with fp|]. intros _ _.
  eapply writes_bind with (R := λ _, True); [|auto with fp].
  apply writes_for_each; [|done]. intros [] iface _ _.
  eapply writes_bind with (R := λ _, True); auto with fp.
Qed.

Lemma writes_encode_link u lnk :
  writes (issued net) (encode_link u lnk) (λ _, True).
Proof. unfold encode_link. auto with fp. Qed.

Lemma writes_encode_labels lbls :
  writes (issued net) (encode_labels lbls) (λ _, True).
Proof.
  unfold encode_labels.
  eapply writes_bind with (R := λ _, True); [auto with fp|]. intros _ _.
  apply writes_for_each; [|done]. intros. auto with fp.
Qed.

Lemma writes_encode_action rtr i s action :
  rule_or_action net s.1 → encoded_action net action →
  writes (issued net) (encode_action rtr i s action)
    (λ s', rule_or_action net s'.1).
Proof.
  intros Hs Ha. unfold encode_action.
  eapply writes_bind with (R := λ _, True).
  - destruct action; auto with fp;
      (eapply writes_bind with (R := λ _, True); [|intros _ _]);
      eauto with fp.
  - intros _ _. eapply writes_bind with (R := λ _, True); eauto with fp.
Qed.

Lemma writes_encode_rule rtr i rule :
  primary net rule →
  writes (issued net) (encode_rule rtr i rule) (λ _, True).
Proof.
  intros Hp. unfold encode_rule.
  eapply writes_bind with (R := λ _, True); [auto with fp|]. intros _ _.
  eapply writes_bind with (R := λ _, True); [auto with fp|]. intros _ _.
  eapply writes_bind with (R := λ _, True).
  { destruct (decide _); auto with fp. }
  intros _ _.
  eapply writes_bind with (R := λ s, rule_or_action net s.1).
  - apply writes_for_each; [|done]. intros.
    apply writes_encode_action; [done|]. by exists rule.
  - intros s Hs. auto with fp.
Qed.

Lemma writes_encode_table u e :
  e ∈ model.routingTables (model.routing net) →
  writes (issued net) (encode_table u e) (λ _, True).
Proof.
  intros He. unfold encode_table.
  eapply writes_bind with (R := λ _, True); [|auto with fp].
  apply writes_for_each; [|done]. intros i dest _ Hdest.
  unfold encode_destination.
  destruct (model.te_groups dest) as [|g gs] eqn:Eg; [auto with fp|].
  destruct (model.rules g) as [|rule rs] eqn:Er; [auto with fp|].
  eapply writes_bind with (R := λ _, True); [|auto with fp].
  apply writes_encode_rule. exists e, dest. split_and!; [done..|].
  unfold primary_of. by rewrite Eg, Er.
Qed.

Lemma writes_encode_network :
  writes (issued net) (encode_network net) (λ _, True).
Proof.
  unfold encode_network.
  eapply writes_bind with (R := λ _, True).
  { apply writes_for_each; [|done]. intros.
    eapply writes_conseq; [apply writes_encode_router|done]. }
  intros n2r _.
  eapply writes_bind with (R := λ _, True).
  { apply writes_for_each; [|done]. intros. apply writes_encode_link. }
  intros _ _.
  eapply writes_bind with (R := λ _, True); [apply writes_encode_labels|].
  intros _ _.
  eapply writes_bind with (R := λ _, True); [|auto with fp].
  apply writes_for_each; [|done]. intros. by apply writes_encode_table.
Qed.

(** The query part. *)

Lemma writes_ensure_label_nodes st :
  writes (issued net) (ensure_label_nodes st) (λ _, True).
Proof.
  destruct st as [atoms|]; cbn; [|auto with fp].
  apply writes_for_each; [|done]. intros [] atom _ _.
  unfold ensure_label_nodes_atom.
  destruct atom as [? ?| ? |? [] ?| ?]; auto with fp;
    (eapply writes_bind with (R := λ _, True); [auto with fp|]);
    intros [] _; auto with fp.
Qed.

Lemma writes_atom_label_to_node atom :
  writes (issued net) (atom_label_to_node atom) is_query_key.
Proof.
  destruct atom; cbn; auto with fp.
  - eapply writes_bind with (R := λ _, True); [auto with fp|].
    intros [] _; [|auto with fp].
    eapply writes_bind with (R := λ _, True); [auto with fp|]. intros _ _.
    eapply writes_bind with (R := λ _, True); [|auto with fp].
    apply writes_add_edge; [|done]. apply i_query_edge; [exact I|eauto].
  - eapply writes_bind with (R := λ _, True); auto with fp.
Qed.

Lemma writes_edge_from_query u v (R : unit → Prop) :
  is_query_last u → is_query_key v → R tt →
  writes (issued net) (G_add_edge_from u v) R.
Proof.
  intros Hu Hv HR. apply writes_add_edge_from; [|done].
  intros n ->. apply i_query_edge; auto.
Qed.

Lemma query_state_snoc s node :
  query_state s → is_query_key node →
  ∀ n, n ∈ par_nodes s ++ [node] → is_query_key n.
Proof.
  intros [_ Hp] ? n [?| ->%list_elem_of_singleton]%elem_of_app; auto.
Qed.

Lemma writes_build_labels_any s atom t lbl :
  query_state s → is_query_type (Some t) →
  writes (issued net) (build_labels_any s atom t lbl) query_state.
Proof.
  intros [Hl Hp] Ht. unfold build_labels_any.
  eapply writes_bind with (R := λ _, True); [auto with fp|]. intros _ _.
  eapply writes_bind with (R := λ _, True);
    [by apply writes_edge_from_query|].
  intros _ _. apply writes_ret. split; cbn; auto.
Qed.

Lemma writes_build_labels_branch s atom inner :
  query_state s →
  writes (issued net) (build_labels_branch s atom inner) query_state.
Proof.
  intros Hs. unfold build_labels_branch.
  eapply writes_bind; [apply writes_atom_label_to_node|].
  intros node Hnode.
  eapply writes_bind with (R := λ _, True);
    [apply writes_edge_from_query; [apply Hs|done..]|].
  intros _ _. apply writes_ret. split; cbn; [apply Hs|].
  by apply query_state_snoc.
Qed.

Lemma writes_build_labels_plain s atom :
  query_state s →
  writes (issued net) (build_labels_plain s atom) query_state.
Proof.
  intros Hs. unfold build_labels_plain.
  eapply writes_bind; [apply writes_atom_label_to_node|].
  intros node Hnode. destruct (branch_next s); [|destruct (bool_decide _)].
  - eapply writes_bind with (R := λ _, True);
      [apply writes_edge_from_query; [apply Hs|done..]|].
    intros _ _. apply writes_ret. split; cbn; [apply Hs|].
    by apply query_state_snoc.
  - eapply writes_bind with (R := λ _, True).
    + apply writes_add_edges_from; [|done]. intros.
      apply i_query_edge; [by apply Hs|auto].
    + intros _ _. apply writes_ret. split; cbn; [done|].
      by intros ? ?%elem_of_nil.
  - eapply writes_bind with (R := λ _, True);
      [apply writes_edge_from_query; [apply Hs|done..]|].
    intros _ _. apply writes_ret. split; cbn; [done|apply Hs].
Qed.

Lemma writes_build_labels_step s atom :
  query_state s →
  writes (issued net) (build_labels_step s atom) query_state.
Proof.
  intros Hs.
  destruct atom as [? ?| ? |? inner q| ?];
    try by apply writes_build_labels_plain.
  cbn. destruct (is_ASimpleAtom (lastatom s)); [apply writes_raise|].
  destruct q, inner;
    first [apply writes_raise
          |by apply writes_build_labels_branch
          |apply writes_build_labels_any; auto with fp].
Qed.

Lemma writes_build_labels_graph_repr last st :
  is_query_last last →
  writes (issued net) (build_labels_graph_repr last st) is_query_last.
Proof.
  intros Hl. destruct st as [atoms|]; cbn.
  - eapply writes_bind with (R := query_state).
    + apply writes_for_each; [|split; [done|by intros ? ?%elem_of_nil]].
      intros. by apply writes_build_labels_step.
    + intros s [? ?]. destruct (bool_decide _); by apply writes_ret.
  - eapply writes_bind with (R := λ _, True); [auto with fp|]. intros _ _.
    eapply writes_bind with (R := λ _, True);
      [by apply writes_edge_from_query|].
    intros _ _. by apply writes_ret.
Qed.

Lemma writes_edges_from_last last v (R : unit → Prop) :
  is_query_last last → is_query_key v → R tt →
  writes (issued net) (edges_from_last last v) R.
Proof.
  intros Hl Hv HR. destruct last; cbn.
  - apply writes_add_edge; [|done]. apply i_query_edge; auto.
  - apply writes_add_edges_from; [|done]. intros.
    apply i_query_edge; auto.
Qed.

Lemma writes_encode_network_atom n2r last atom :
  is_query_last last →
  writes (issued net) (encode_network_atom n2r last atom) is_query_last.
Proof.
  intros Hl.
  assert (∀ a, writes (issued net)
            (edges_from_last last (KAtom a);; mret (Node (KAtom a)))
            is_query_last) as Htail.
  { intros a. eapply writes_bind with (R := λ _, True);
      [by apply writes_edges_from_last|]. intros _ _. by apply writes_ret. }
  destruct atom as [? symb| ? |? inner q| ?]; cbn.
  - eapply writes_bind with (R := λ _, True); [auto with fp|]. intros _ _.
    eapply writes_bind
      with (R := λ v, is_query_key v ∨ (∃ l, v = KLabel l) ∨ ∃ r, v = KRouter r).
    { destruct (n2r !! strip symb); [apply writes_ret; eauto|].
      eapply writes_bind with (R := λ _, True); [auto with fp|]. intros _ _.
      apply writes_ret. by left. }
    intros v Hv.
    eapply writes_bind with (R := λ _, True);
      [by apply writes_edges_from_last|]. intros _ _.
    eapply writes_bind with (R := λ _, True); [|auto with fp].
    apply writes_add_edge; [|done]. by apply i_query_edge.
  - eapply writes_bind with (R := λ _, True); [auto with fp|]. intros _ _.
    apply Htail.
  - eapply writes_bind with (R := λ _, True);
      [destruct q, inner; first [apply writes_raise|auto with fp]|].
    intros _ _. apply Htail.
  - apply writes_raise.
Qed.

Lemma writes_encode_query n2r q k0 :
  writes (issued net) (encode_query n2r q k0) (λ _, True).
Proof.
  unfold encode_query.
  eapply writes_bind with (R := λ _, True);
    [apply writes_ensure_label_nodes|]. intros _ _.
  eapply writes_bind with (R := λ _, True);
    [apply writes_ensure_label_nodes|]. intros _ _.
  eapply writes_bind with (R := λ _, True); [auto with fp|]. intros _ _.
  eapply writes_bind; [by apply writes_build_labels_graph_repr|].
  intros last Hlast.
  eapply writes_bind with (R := is_query_last).
  { apply writes_for_each; [|done]. intros.
    by apply writes_encode_network_atom. }
  intros last' Hlast'.
  eapply writes_bind with (R := λ _, True); [|auto with fp].
  eapply writes_conseq; [by apply writes_build_labels_graph_repr|done].
Qed.

End footprint.

(** Every graph [mpls2graph] returns is built from the empty graph by issued
    operations. *)
Lemma mpls2graph_issued net q k0 G :
  mpls2graph net q k0 = Ok G → ext (issued net) empty_graph G.
Proof.
  unfold mpls2graph. intros H.
  pose proof (writes_bind (issued net) (encode_network net)
    (λ n2r, encode_query n2r q k0) (λ _, True) (λ _, True)
    (writes_encode_network net)
    (λ n2r _, writes_encode_query net n2r q k0) empty_graph) as Hw.
  fold (mpls2graph_body net q k0) in Hw.
  destruct (mpls2graph_body net q k0 empty_graph) as [[[] G']|e]; [|done].
  injection H as <-. by destruct Hw.
Qed.

(** ** Values returned, and runs that cannot return *)

Lemma returns_ret {A} (x : A) (R : A → Prop) : R x → returns (mret x) R.
Proof. by intros ? G y G' [= <- <-]. Qed.

Lemma returns_raise {A} e (R : A → Prop) : returns (raise e) R.
Proof. by intros G y G'. Qed.

Lemma returns_bind {A B} (m : M A) (f : A → M B) (R : B → Prop) :
  (∀ x, returns (f x) R) → returns (m ≫= f) R.
Proof. intros Hf G y G' (x & G1 & _ & H)%bind_Ok. by eapply Hf. Qed.

Lemma always_raises_raise {A} e : always_raises (@raise A e).
Proof. intros G. by exists e. Qed.

Lemma always_raises_bind_l {A B} (m : M A) (f : A → M B) :
  always_raises m → always_raises (m ≫= f).
Proof.
  intros Hm G. destruct (Hm G) as [e He]. exists e. by apply bind_run_Raise.
Qed.

Lemma always_raises_bind_r {A B} (m : M A) (f : A → M B) :
  (∀ x, always_raises (f x)) → always_raises (m ≫= f).
Proof.
  intros Hf G. unfold mbind, M_bind.
  destruct (m G) as [[x G1]|e]; [apply Hf|eauto].
Qed.

Lemma always_raises_for_each {S A} (body : S → A → M S) x l s :
  x ∈ l → (∀ s, always_raises (body s x)) → always_raises (for_each body s l).
Proof. intros Hx Hb G. by apply for_each_raises with (x := x). Qed.

(** In a loop that returned, the body ran on every element; the graph it
    left is extended to the final one. *)
Lemma for_each_elem {S A} Φ (I : S → Prop) (body : S → A → M S) l x :
  (∀ s y, I s → y ∈ l → writes Φ (body s y) I) →
  x ∈ l → ∀ s G s' G', I s → for_each body s l G = Ok (s', G') →
  ∃ s1 G1 s2 G2, I s1 ∧ ext Φ G G1 ∧ body s1 x G1 = Ok (s2, G2) ∧ ext Φ G2 G'.
Proof.
  intros Hbody Hx. induction l as [|y l IH]; intros s G s' G' Hs Hrun.
  - by apply elem_of_nil in Hx.
  - cbn in Hrun. apply bind_Ok in Hrun as (s1 & G1 & Hy & Hrest).
    pose proof (Hbody s y Hs ltac:(by left) G) as Hw. rewrite Hy in Hw.
    destruct Hw as [Hs1 Hext].
    assert (writes Φ (for_each body s1 l) I) as Hl.
    { apply writes_for_each; [|done]. intros. apply Hbody; [done|by right]. }
    apply elem_of_cons in Hx as [->|Hx].
    + exists s, G, s1, G1. split_and!; [done|constructor|done|].
      specialize (Hl G1). rewrite Hrest in Hl. apply Hl.
    + destruct (IH (λ s y Hs Hy, Hbody s y Hs ltac:(by right)) Hx
                  s1 G1 s' G' Hs1 Hrest) as (sa & Ga & sb & Gb & ? & ? & ? & ?).
      exists sa, Ga, sb, Gb. split_and!; eauto using ext_trans.
Qed.

Lemma writes_run {A} Φ (m : M A) R G x G' :
  writes Φ m R → m G = Ok (x, G') → R x ∧ ext Φ G G'.
Proof. intros Hw Hm. specialize (Hw G). by rewrite Hm in Hw. Qed.

(** ** Sequences of operations *)

Lemma ext_foldl G ops : ext (λ o, o ∈ ops) G (foldl apply_op G ops).
Proof.
  induction ops as [|o ops IH] using rev_ind; [constructor|].
  rewrite foldl_app. cbn. constructor; [|set_solver].
  eapply ext_weaken; [|apply IH]. set_solver.
Qed.

Lemma foldl_has_edge G ops u v :
  AddEdge u v ∈ ops → has_edge (foldl apply_op G ops) u v = true.
Proof.
  intros (l1 & l2 & ->)%list_elem_of_split.
  rewrite foldl_app. cbn.
  eapply ext_has_edge; [apply ext_foldl|].
  rewrite has_edge_add_edge. apply orb_true_iff. right.
  apply bool_decide_eq_true. auto.
Qed.

Lemma foldl_node_type G ops n t :
  (∃ a, AddNode n a ∈ ops) →
  (∀ a, AddNode n a ∈ ops → ntype a = Some t) →
  node_type (foldl apply_op G ops) n = Some t.
Proof.
  intros [a (l1 & l2 & ->)%list_elem_of_split] Hall.
  rewrite foldl_app. cbn.
  eapply ext_type_stable; [|apply ext_foldl|].
  - intros b Hb. left. apply Hall. set_solver.
  - rewrite node_type_add_node. destruct (decide (n = n)); [|done].
    rewrite (Hall a); [done|set_solver].
Qed.

(** ** The operations of one rule, in the order of the calls *)

Lemma last_default {A} (l : list A) (x d d' : A) :
  List.last (x :: l) d = List.last (x :: l) d'.
Proof.
  revert x. induction l as [|y l IH]; intros x; [done|].
  change (List.last (y :: l) d = List.last (y :: l) d'). apply IH.
Qed.

Lemma encode_action_run rtr i last j x G :
  known_action x →
  encode_action rtr i (last, j) x G =
  Ok ((KAction x, S j), foldl apply_op G (action_ops rtr i j last x)).
Proof.
  intros Hx.
  destruct x; [..|by destruct Hx];
    unfold encode_action, action_ops, mbind, M_bind, G_add_node,
      G_add_node_attrs, G_add_edge, mret, M_ret;
    cbn [fst snd foldl apply_op app]; reflexivity.
Qed.

Lemma encode_actions_run rtr i xs : ∀ last j G,
  Forall known_action xs →
  for_each (encode_action rtr i) (last, j) xs G =
  Ok ((List.last (KAction <$> xs) last, (j + length xs)%nat),
      foldl apply_op G (actions_ops rtr i j last xs)).
Proof.
  induction xs as [|x xs IH]; intros last j G Hxs; cbn.
  - by rewrite Nat.add_0_r.
  - apply Forall_cons in Hxs as [Hx Hxs].
    erewrite bind_run_Ok; [|by apply encode_action_run].
    rewrite IH by done. rewrite foldl_app.
    replace (S j + length xs)%nat with (j + S (length xs))%nat by lia.
    repeat f_equal. destruct xs; [done|]. apply last_default.
Qed.

Lemma encode_rule_run rtr i rule G :
  Forall known_action (model.actions rule) →
  encode_rule rtr i rule G = Ok (tt, foldl apply_op G (rule_ops rtr i rule)).
Proof.
  intros Hxs. unfold encode_rule, rule_ops.
  erewrite bind_run_Ok; [|apply run_add_node].
  erewrite bind_run_Ok; [|apply run_add_edge].
  rewrite !foldl_app. cbn [foldl apply_op].
  destruct (decide (model.label rule = model.NoLabel)).
  - erewrite bind_run_Ok; [|apply run_ret].
    erewrite bind_run_Ok; [|by apply encode_actions_run].
    cbn [fst foldl]. apply run_add_edge.
  - erewrite bind_run_Ok; [|apply run_add_edge].
    erewrite bind_run_Ok; [|by apply encode_actions_run].
    cbn [fst foldl apply_op]. apply run_add_edge.
Qed.

Lemma encode_actions_other rtr i xs : ∀ s G,
  Exists (λ x, ¬ known_action x) xs →
  for_each (encode_action rtr i) s xs G =
  Raise (Exception "Unknown action type").
Proof.
  induction xs as [|x xs IH]; intros s G Hex; [by apply Exists_nil in Hex|].
  cbn. destruct (decide (known_action x)) as [Hx|Hx].
  - destruct s as [last j].
    erewrite bind_run_Ok; [|by apply encode_action_run].
    apply IH. by apply Exists_cons in Hex as [?|?].
  - apply bind_run_Raise.
    destruct x; first [done|exfalso; apply Hx; by unfold known_action].
Qed.

Lemma encode_rule_other rtr i rule G :
  Exists (λ x, ¬ known_action x) (model.actions rule) →
  encode_rule rtr i rule G = Raise (Exception "Unknown action type").
Proof.
  intros Hex. unfold encode_rule.
  erewrite bind_run_Ok; [|done]. erewrite bind_run_Ok; [|done].
  destruct (decide (model.label rule = model.NoLabel)).
  - erewrite bind_run_Ok; [|done].
    apply bind_run_Raise. by apply encode_actions_other.
  - erewrite bind_run_Ok; [|done].
    apply bind_run_Raise. by apply encode_actions_other.
Qed.

Lemma last_cons_default {A} (l : list A) (x d : A) :
  List.last (x :: l) d = List.last l x.
Proof.
  destruct l as [|y l]; [done|].
  change (List.last (y :: l) d = List.last (y :: l) x). apply last_default.
Qed.

Lemma path_edges_length u p : length (path_edges (u :: p)) = length p.
Proof.
  revert u. induction p as [|v p IH]; intros u; [done|].
  change (path_edges (u :: v :: p)) with ((u, v) :: path_edges (v :: p)).
  cbn [length]. by rewrite IH.
Qed.

Lemma actions_chain_sublist rtr i xs : ∀ j u w,
  edge_op <$> path_edges (u :: (KAction <$> xs) ++ [w])
  `sublist_of`
  actions_ops rtr i j u xs ++ [AddEdge (List.last (KAction <$> xs) u) w].
Proof.
  induction xs as [|x xs IH]; intros j u w; [done|].
  rewrite fmap_cons, last_cons_default.
  change (edge_op (u, KAction x)
            :: (edge_op <$> path_edges (KAction x :: (KAction <$> xs) ++ [w]))
          `sublist_of`
          (action_ops rtr i j u x ++ actions_ops rtr i (S j) (KAction x) xs)
            ++ [AddEdge (List.last (KAction <$> xs) (KAction x)) w]).
  rewrite <-app_assoc.
  apply (sublist_app [edge_op (u, KAction x)]); [|apply IH].
  unfold action_ops. by apply sublist_inserts_l.
Qed.

Lemma rule_path_sublist rtr i rule :
  edge_op <$> path_edges (rule_path rule) `sublist_of` rule_ops rtr i rule.
Proof.
  unfold rule_path, rule_ops.
  apply sublist_inserts_l, sublist_inserts_l, actions_chain_sublist.
Qed.

(** What the operations of a chain of actions are. *)
Lemma elem_of_actions_ops rtr i xs : ∀ j last o,
  o ∈ actions_ops rtr i j last xs →
  (∃ x a, o = AddNode (KAction x) a ∧ x ∈ xs ∧ ntype a = action_type x) ∨
  (∃ x l, o = AddEdge (KAction x) (KLabel l) ∧ x ∈ xs ∧
          action_label x = Some l) ∨
  (∃ u x, o = AddEdge u (KAction x) ∧ x ∈ xs ∧
          (u = last ∨ ∃ y, y ∈ xs ∧ u = KAction y)).
Proof.
  induction xs as [|x xs IH]; intros j last o; cbn; [by intros ?%elem_of_nil|].
  rewrite elem_of_app. intros [Ho|Ho].
  - unfold action_ops in Ho. apply elem_of_app in Ho as [Ho|Ho].
    + destruct x; cbn in Ho; set_solver.
    + apply list_elem_of_singleton in Ho as ->.
      right; right. exists last, x. set_solver.
  - destruct (IH _ _ _ Ho)
      as [(y & a & -> & ? & ?)|[(y & l & -> & ? & ?)|(u & y & -> & ? & Hu)]].
    + left. exists y, a. set_solver.
    + right; left. exists y, l. set_solver.
    + right; right. exists u, y. split_and!; [done|set_solver|].
      right. destruct Hu as [->|(z & ? & ->)]; [exists x|exists z]; set_solver.
Qed.

Lemma actions_ops_node rtr i xs x : ∀ j last,
  x ∈ xs → known_action x →
  ∃ a, AddNode (KAction x) a ∈ actions_ops rtr i j last xs.
Proof.
  induction xs as [|y xs IH]; intros j last Hx Hk; [by apply elem_of_nil in Hx|].
  cbn. apply elem_of_cons in Hx as [->|Hx].
  - destruct y; try (by destruct Hk); eexists; apply elem_of_app; left;
      unfold action_ops; apply elem_of_app; left; by left.
  - destruct (IH (S j) (KAction y) Hx Hk) as [a Ha]. exists a.
    apply elem_of_app. by right.
Qed.

Lemma actions_ops_label rtr i xs x l : ∀ j last,
  x ∈ xs → action_label x = Some l →
  AddEdge (KAction x) (KLabel l) ∈ actions_ops rtr i j last xs.
Proof.
  induction xs as [|y xs IH]; intros j last Hx Hl; [by apply elem_of_nil in Hx|].
  cbn. apply elem_of_app. apply elem_of_cons in Hx as [->|Hx].
  - left. unfold action_ops. apply elem_of_app. left.
    destruct y; cbn in Hl; try done; injection Hl as ->; set_solver.
  - right. by apply IH.
Qed.

Lemma elem_of_rule_ops rtr i rule o :
  o ∈ rule_ops rtr i rule →
  (∃ a, o = AddNode (KRule rule) a ∧ ntype a = Some NodeType.Rule) ∨
  (∃ v, o = AddEdge (KRule rule) v) ∨
  (∃ x a, o = AddNode (KAction x) a ∧ x ∈ model.actions rule ∧
          ntype a = action_type x) ∨
  (∃ x l, o = AddEdge (KAction x) (KLabel l) ∧ x ∈ model.actions rule ∧
          action_label x = Some l) ∨
  (∃ x v, o = AddEdge (KAction x) v ∧ x ∈ model.actions rule ∧
          ((∃ y, v = KAction y) ∨ ∃ j, v = KInterface j)).
Proof.
  unfold rule_ops. rewrite !elem_of_app. intros [Ho|[Ho|[Ho|Ho]]].
  - apply elem_of_cons in Ho as [->|Ho]; [left; eauto|].
    apply list_elem_of_singleton in Ho as ->. right; left; eauto.
  - destruct (decide _); [by apply elem_of_nil in Ho|].
    apply list_elem_of_singleton in Ho as ->. right; left; eauto.
  - apply elem_of_actions_ops in Ho
      as [(x & a & -> & ? & ?)|[(x & l & -> & ? & ?)|(u & x & -> & ? & Hu)]].
    + right; right; left. eauto.
    + right; right; right; left. eauto.
    + destruct Hu as [->|(y & ? & ->)]; [right; left; eauto|].
      right; right; right; right. exists y, (KAction x). eauto.
  - apply list_elem_of_singleton in Ho as ->.
    destruct (model.actions rule) as [|x xs] eqn:E using rev_ind;
      [right; left; eauto|].
    rewrite fmap_app. cbn. rewrite last_last.
    right; right; right; right. exists x, (KInterface (model.to rule)).
    split_and!; [done|set_solver|eauto].
Qed.

(** ** Runs of [mpls2graph] that return *)

Lemma mpls2graph_Ok net q k0 G :
  mpls2graph net q k0 = Ok G →
  ∃ n2r G1, encode_network net empty_graph = Ok (n2r, G1) ∧
            encode_query n2r q k0 G1 = Ok (tt, G).
Proof.
  unfold mpls2graph. intros H.
  destruct (mpls2graph_body net q k0 empty_graph) as [[[] G']|e] eqn:E;
    [|done].
  injection H as ->. by apply bind_Ok in E.
Qed.

Lemma writes_encode_destination net e i dest :
  e ∈ model.routingTables (model.routing net) →
  dest ∈ model.destinations e.2 →
  writes (issued net) (encode_destination e.1 i dest) (λ _, True).
Proof.
  intros He Hdest. unfold encode_destination.
  destruct (model.te_groups dest) as [|g gs] eqn:Eg; [apply writes_raise|].
  destruct (model.rules g) as [|rule rs] eqn:Er; [apply writes_raise|].
  eapply writes_bind with (R := λ _, True); [|intros; by apply writes_ret].
  apply writes_encode_rule. exists e, dest. split_and!; [done..|].
  unfold primary_of. by rewrite Eg, Er.
Qed.

(** Every destination of every table had its primary rule encoded, and the
    graph only grew afterwards. *)
Lemma encode_network_rule_encoded net G0 n2r G1 e dest :
  encode_network net G0 = Ok (n2r, G1) →
  e ∈ model.routingTables (model.routing net) →
  dest ∈ model.destinations e.2 →
  ∃ rule i Ga Gb, primary_of dest = Some rule ∧
    encode_rule e.1 i rule Ga = Ok (tt, Gb) ∧ ext (issued net) Gb G1.
Proof.
  unfold encode_network. intros Hrun He Hdest.
  apply bind_Ok in Hrun as (m & Ga1 & _ & Hrun).
  apply bind_Ok in Hrun as ([] & Ga2 & _ & Hrun).
  apply bind_Ok in Hrun as ([] & Ga3 & _ & Hrun).
  apply bind_Ok in Hrun as ([] & Ga4 & Htables & Hret0).
  assert (Ga4 = G1) as -> by (by injection Hret0).
  destruct (for_each_elem (issued net) (λ _, True) encode_table _ e
              (λ s y _ Hy, writes_encode_table net s y Hy) He
              tt Ga3 tt G1 I Htables)
    as ([] & Gt & [] & Gt' & _ & _ & Htable & Hext).
  unfold encode_table in Htable.
  apply bind_Ok in Htable as (i' & Gd & Hdests & Hret).
  assert (Gd = Gt') as -> by (by injection Hret).
  destruct (for_each_elem (issued net) (λ _, True)
              (encode_destination e.1) _ dest
              (λ s y _ Hy, writes_encode_destination net e s y He Hy) Hdest
              0%nat Gt i' Gt' I Hdests)
    as (i & Ga & i2 & Gb & _ & _ & Hd & Hext').
  unfold encode_destination, primary_of in *.
  destruct (model.te_groups dest) as [|g gs]; [done|].
  destruct (model.rules g) as [|rule rs]; [done|].
  apply bind_Ok in Hd as ([] & Gb' & Hrule & Hret').
  assert (Gb' = Gb) as -> by (by injection Hret').
  exists rule, i, Ga, Gb. eauto using ext_trans.
Qed.

Lemma mpls2graph_rule_encoded net q k0 G e dest :
  mpls2graph net q k0 = Ok G →
  e ∈ model.routingTables (model.routing net) →
  dest ∈ model.destinations e.2 →
  ∃ rule i Ga Gb, primary_of dest = Some rule ∧
    encode_rule e.1 i rule Ga = Ok (tt, Gb) ∧ ext (issued net) Gb G.
Proof.
  intros (n2r & G1 & Hnet & Hq)%mpls2graph_Ok He Hdest.
  destruct (encode_network_rule_encoded _ _ _ _ _ _ Hnet He Hdest)
    as (rule & i & Ga & Gb & ? & ? & ?).
  exists rule, i, Ga, Gb. split_and!; [done..|].
  eapply ext_trans; [done|].
  by destruct (writes_run _ _ _ _ _ _ (writes_encode_query net n2r q k0) Hq).
Qed.

(** A rule whose encoding returned has only known actions, and its graph is
    the one its operations give. *)
Lemma encode_rule_Ok rtr i rule G G' :
  encode_rule rtr i rule G = Ok (tt, G') →
  Forall known_action (model.actions rule) ∧
  G' = foldl apply_op G (rule_ops rtr i rule).
Proof.
  intros H. destruct (decide (Forall known_action (model.actions rule)))
    as [Hk|Hk].
  - rewrite encode_rule_run in H by done. by injection H as <-.
  - apply not_Forall_Exists in Hk; [|apply _].
    by rewrite encode_rule_other in H.
Qed.

Lemma node_type_empty n : node_type empty_graph n = None.
Proof. done. Qed.

(** Consequences of the footprint for keys, types and edges. *)

Lemma issued_rule_node net r a :
  issued net (AddNode (KRule r) a) →
  primary net r ∧ ntype a = Some NodeType.Rule.
Proof. inversion 1; subst; try done. Qed.

Lemma issued_rule_type net n a :
  issued net (AddNode n a) → ntype a = Some NodeType.Rule →
  ∃ r, n = KRule r ∧ primary net r.
Proof.
  inversion 1 as [| | | | |r ? Hp| | |x ? ? Hx| | | |? ? ? Hq|]; subst;
    intros Ht; try congruence; [eauto| |].
  - rewrite Ht in Hx. by destruct x.
  - rewrite Ht in Hq. unfold is_query_type in Hq. set_solver.
Qed.

Lemma issued_edge_rule_src net r v :
  issued net (AddEdge (KRule r) v) → primary net r.
Proof. inversion 1; subst; try done. Qed.

Lemma issued_edge_rule_dst net u r : ¬ issued net (AddEdge u (KRule r)).
Proof. inversion 1; subst. naive_solver. Qed.

Lemma issued_rule_label net r l :
  issued net (AddEdge (KRule r) (KLabel l)) →
  l = model.label r ∧ l ≠ model.NoLabel.
Proof. inversion 1; subst; try done. Qed.

Lemma issued_edge_label_src net l v : ¬ issued net (AddEdge (KLabel l) v).
Proof. inversion 1; subst; try done. Qed.

Lemma issued_action_node net x a :
  issued net (AddNode (KAction x) a) → encoded_action net x.
Proof. inversion 1; subst; try done. Qed.

Lemma issued_edge_action_src net x v :
  issued net (AddEdge (KAction x) v) → encoded_action net x.
Proof. inversion 1; subst; try done. Qed.

Lemma issued_edge_action_dst net u x :
  issued net (AddEdge u (KAction x)) → encoded_action net x.
Proof. inversion 1; subst; try done. naive_solver. Qed.

Lemma issued_action_label net x l :
  issued net (AddEdge (KAction x) (KLabel l)) → action_label x = Some l.
Proof. inversion 1; subst; try done. Qed.

(** ** Forwarding rules *)

(** C3.  In every graph [mpls2graph] returns, each destination of each
    routing table has its primary rule (the first rule of its first group)
    as a node of type [Rule], with an edge to the rule's input interface and
    with an edge to the rule's label exactly when that label is not the
    sentinel.  There is no other node of type [Rule], and no rule or action
    other than the primary rules and their actions is a node: later groups
    and rules produce nothing. *)
Theorem primary_rule_nodes net q k0 G :
  mpls2graph net q k0 = Ok G →
  (∀ e dest,
     e ∈ model.routingTables (model.routing net) →
     dest ∈ model.destinations e.2 →
     ∃ rule, primary_of dest = Some rule ∧
       node_type G (KRule rule) = Some NodeType.Rule ∧
       has_edge G (KRule rule) (KInterface (model.from_ rule)) = true ∧
       (has_edge G (KRule rule) (KLabel (model.label rule)) = true
        ↔ model.label rule ≠ model.NoLabel)) ∧
  (∀ n, node_type G n = Some NodeType.Rule →
        ∃ rule, n = KRule rule ∧ primary net rule) ∧
  (∀ rule, KRule rule ∈ keys G → primary net rule) ∧
  (∀ x, KAction x ∈ keys G → encoded_action net x).
Proof.
  intros Hrun. pose proof (mpls2graph_issued _ _ _ _ Hrun) as Hext.
  split_and!.
  - intros e dest He Hdest.
    destruct (mpls2graph_rule_encoded _ _ _ _ _ _ Hrun He Hdest)
      as (rule & i & Ga & Gb & Hp & Hrule & Hgrow).
    apply encode_rule_Ok in Hrule as [Hk ->].
    exists rule. split_and!; [done| | |].
    + eapply ext_type_stable; [|done|].
      * intros a [_ ?]%issued_rule_node. by left.
      * apply foldl_node_type.
        -- eexists. unfold rule_ops. apply elem_of_app. left. by left.
        -- intros a Ha. apply elem_of_rule_ops in Ha.
           destruct Ha as [(? & [= <-] & ?)|[(? & ?)|[(? & ? & ? & _)
             |[(? & ? & ? & _)|(? & ? & ? & _)]]]]; done.
    + eapply ext_has_edge; [done|]. apply foldl_has_edge.
      unfold rule_ops. apply elem_of_app. left. set_solver.
    + split.
      * intros [Hin|Hin]%has_edge_true;
          apply (ext_edge_origin _ _ _ _ _ Hext) in Hin as [Hin|Hin];
          try by apply elem_of_nil in Hin.
        -- by apply issued_rule_label in Hin as [_ ?].
        -- by apply issued_edge_label_src in Hin.
      * intros Hl. eapply ext_has_edge; [done|]. apply foldl_has_edge.
        unfold rule_ops. rewrite !elem_of_app. right; left.
        destruct (decide _); [done|]. set_solver.
  - intros n Hn.
    apply (ext_type_origin _ _ _ _ _ Hext) in Hn as [Hn|(a & Ha & Ht)];
      [by rewrite node_type_empty in Hn|].
    by eapply issued_rule_type.
  - intros rule Hin.
    apply (ext_key_origin _ _ _ _ Hext) in Hin
      as [Hin|[[a Ha]|[[v Hv]|[u Hu]]]].
    + by apply elem_of_nil in Hin.
    + by apply issued_rule_node in Ha as [? _].
    + by eapply issued_edge_rule_src.
    + by apply issued_edge_rule_dst in Hu.
  - intros x Hin.
    apply (ext_key_origin _ _ _ _ Hext) in Hin
      as [Hin|[[a Ha]|[[v Hv]|[u Hu]]]].
    + by apply elem_of_nil in Hin.
    + by eapply issued_action_node.
    + by eapply issued_edge_action_src.
    + by eapply issued_edge_action_dst.
Qed.

#[global] Instance KAction_inj : Inj (=) (=) KAction.
Proof. by intros ?? [= ->]. Qed.

Lemma rule_path_NoDup rule :
  NoDup (model.actions rule) → NoDup (rule_path rule).
Proof.
  intros Hnd. unfold rule_path. apply NoDup_cons. split.
  - rewrite elem_of_app, list_elem_of_fmap, list_elem_of_singleton.
    by intros [(? & ? & _)|?].
  - apply NoDup_app. split_and!.
    + by apply (NoDup_fmap_2 KAction).
    + intros n (? & -> & _)%list_elem_of_fmap ?%list_elem_of_singleton. done.
    + apply NoDup_singleton.
Qed.

Lemma primary_of_Some dest rule :
  primary_of dest = Some rule →
  ∃ g gs rs, model.te_groups dest = g :: gs ∧ model.rules g = rule :: rs.
Proof.
  unfold primary_of.
  destruct (model.te_groups dest) as [|g gs] eqn:Eg; [done|].
  destruct (model.rules g) as [|r rs] eqn:Er; [done|]. cbn. intros [= ->].
  by exists g, gs, rs.
Qed.

(** A primary rule with an action of an unknown kind makes the whole
    construction raise. *)
Lemma mpls2graph_other_action net q k0 rule :
  primary net rule →
  Exists (λ x, ¬ known_action x) (model.actions rule) →
  ∃ e, mpls2graph net q k0 = Raise e.
Proof.
  intros (e & dest & He & Hdest & Hp) Hex.
  apply primary_of_Some in Hp as (g & gs & rs & Hg & Hr).
  assert (always_raises (mpls2graph_body net q k0)) as Hraise.
  { unfold mpls2graph_body. apply always_raises_bind_l.
    unfold encode_network. apply always_raises_bind_r. intros n2r.
    apply always_raises_bind_r. intros _.
    apply always_raises_bind_r. intros _.
    apply always_raises_bind_l.
    apply always_raises_for_each with (x := e); [done|]. intros [].
    unfold encode_table. apply always_raises_bind_l.
    apply always_raises_for_each with (x := dest); [done|]. intros i.
    unfold encode_destination. rewrite Hg, Hr.
    apply always_raises_bind_l. intros G. eexists.
    by apply encode_rule_other. }
  unfold mpls2graph. destruct (Hraise empty_graph) as [err ->]. eauto.
Qed.

(** C4.  For a rule whose actions are all of a known kind, the encoder
    returns, and in the graph it leaves the nodes rule, action 1, ...,
    action n, output interface are linked in a row by n+1 edges, which the
    encoder inserts in this order; the row repeats no node when the list
    repeats no action.  Every action node has the type of its kind, a push
    or swap node has an edge to the label it carries, and the encoder gives
    a pop node no edge to a label: no returned graph has one.  An action of
    any other kind makes the encoder raise, and with it [mpls2graph]. *)
Theorem rule_action_chain net q k0 rtr i rule G :
  (Forall known_action (model.actions rule) →
   let G' := foldl apply_op G (rule_ops rtr i rule) in
   encode_rule rtr i rule G = Ok (tt, G') ∧
   length (path_edges (rule_path rule)) = S (length (model.actions rule)) ∧
   (NoDup (model.actions rule) → NoDup (rule_path rule)) ∧
   (∀ u v, (u, v) ∈ path_edges (rule_path rule) → has_edge G' u v = true) ∧
   edge_op <$> path_edges (rule_path rule) `sublist_of` rule_ops rtr i rule ∧
   (∀ x, x ∈ model.actions rule →
         node_type G' (KAction x) = action_type x) ∧
   (∀ x l, x ∈ model.actions rule → action_label x = Some l →
           has_edge G' (KAction x) (KLabel l) = true) ∧
   (∀ id l, has_edge G (KAction (model.PopAction id)) (KLabel l) = false →
            has_edge G' (KAction (model.PopAction id)) (KLabel l) = false)) ∧
  (∀ Gf id l, mpls2graph net q k0 = Ok Gf →
              has_edge Gf (KAction (model.PopAction id)) (KLabel l) = false) ∧
  (Exists (λ x, ¬ known_action x) (model.actions rule) →
   encode_rule rtr i rule G = Raise (Exception "Unknown action type") ∧
   (primary net rule → ∃ e, mpls2graph net q k0 = Raise e)).
Proof.
  split_and!.
  - intros Hk G'. split_and!.
    + by apply encode_rule_run.
    + unfold rule_path. rewrite path_edges_length, length_app, length_fmap.
      cbn. lia.
    + apply rule_path_NoDup.
    + intros u v Huv. apply foldl_has_edge.
      eapply elem_of_submseteq;
        [|apply sublist_submseteq, rule_path_sublist].
      apply list_elem_of_fmap. by exists (u, v).
    + apply rule_path_sublist.
    + intros x Hx.
      assert (known_action x) as Hkx by (by eapply Forall_forall in Hk).
      destruct (action_type x) as [t|] eqn:Et; [|done].
      apply foldl_node_type.
      * destruct (actions_ops_node rtr i _ x 0%nat (KRule rule) Hx Hkx)
          as [a Ha].
        exists a. unfold rule_ops. rewrite !elem_of_app. auto.
      * intros a Ha. apply elem_of_rule_ops in Ha.
        destruct Ha as [(? & [=] & ?)|[(? & [=])|[(y & b & [= <- <-] & _ & Hb)
          |[(? & ? & [=] & _)|(? & ? & [=] & _)]]]].
        by rewrite Hb.
    + intros x l Hx Hl. apply foldl_has_edge.
      unfold rule_ops. rewrite !elem_of_app. right; right; left.
      by apply actions_ops_label.
    + intros id l [Hn1 Hn2]%has_edge_false. apply has_edge_false.
      split; intros Hin;
        apply (ext_edge_origin _ _ _ _ _ (ext_foldl G _)) in Hin
          as [Hin|Hin]; try done;
        apply elem_of_rule_ops in Hin;
        destruct Hin as [(? & [=] & ?)|[(? & [=])|[(? & ? & [=] & _)
          |[(? & ? & [= <- <-] & _ & Hl)|(? & ? & [= <- <-] & _ & Hv)]]]];
        try done.
      by destruct Hv as [[? [=]]|[? [=]]].
  - intros Gf id l Hrun. pose proof (mpls2graph_issued _ _ _ _ Hrun) as Hext.
    apply has_edge_false.
    split; intros Hin; apply (ext_edge_origin _ _ _ _ _ Hext) in Hin
      as [Hin|Hin]; try by apply elem_of_nil in Hin.
    + by apply issued_action_label in Hin.
    + by apply issued_edge_label_src in Hin.
  - intros Hex. split; [by apply encode_rule_other|].
    intros Hp. by apply mpls2graph_other_action with (rule := rule).
Qed.

(** ** The router path *)

Lemma node_label_add_node n a G m :
  node_label (add_node n a G) m =
  if decide (m = n)
  then match nlabel a with Some t => Some t | None => node_label G n end
  else node_label G m.
Proof.
  unfold node_label. rewrite node_attrs_add_node.
  destruct (decide (m = n)) as [->|]; [|done]. cbn.
  destruct (nlabel a); [done|]. by destruct (node_attrs G n).
Qed.

Lemma node_label_touch n G m : node_label (touch n G) m = node_label G m.
Proof.
  unfold node_label, node_attrs, touch. destruct (has_node G n) eqn:E; [done|].
  cbn. rewrite lookup_attrs_app. cbn.
  destruct (lookup_attrs (nodes G) m); [done|]. by destruct (decide _).
Qed.

Lemma node_label_add_edge u v G m :
  node_label (add_edge u v G) m = node_label G m.
Proof.
  unfold add_edge. cbn.
  transitivity (node_label (touch v (touch u G)) m).
  - by destruct (has_edge _ u v).
  - by rewrite !node_label_touch.
Qed.

Lemma foldl_edges_node_type G (es : list (key * key)) n :
  node_type (foldl apply_op G (edge_op <$> es)) n = node_type G n.
Proof.
  revert G. induction es as [|e es IH]; intros G; [done|].
  cbn. by rewrite IH, node_type_add_edge.
Qed.

Lemma foldl_edges_node_label G (es : list (key * key)) n :
  node_label (foldl apply_op G (edge_op <$> es)) n = node_label G n.
Proof.
  revert G. induction es as [|e es IH]; intros G; [done|].
  cbn. by rewrite IH, node_label_add_edge.
Qed.

Lemma run_add_edges_from l v : ∀ G,
  G_add_edges_from l v G =
  Ok (tt, foldl apply_op G (edge_op <$> ((λ n, (n, v)) <$> l))).
Proof.
  induction l as [|n l IH]; intros G; [done|].
  cbn [G_add_edges_from]. erewrite bind_run_Ok; [|apply run_add_edge].
  apply IH.
Qed.

Lemma run_edges_from_last last v G :
  edges_from_last last v G =
  Ok (tt, foldl apply_op G (edge_op <$> ((λ n, (n, v)) <$> nodes_of last))).
Proof. destruct last; [done|]. apply run_add_edges_from. Qed.

Lemma edges_from_last_has_edge G last v n :
  n ∈ nodes_of last →
  has_edge (foldl apply_op G (edge_op <$> ((λ n, (n, v)) <$> nodes_of last)))
    n v = true.
Proof.
  intros Hn. apply foldl_has_edge.
  apply list_elem_of_fmap. exists (n, v). split; [done|].
  apply list_elem_of_fmap. by exists n.
Qed.

(** The graph an atom of the router path leaves: the node of the atom, an
    edge from every node of [last], and [last] is the atom. *)
Lemma encode_network_atom_Ok n2r last atom G l' G' :
  encode_network_atom n2r last atom G = Ok (l', G') →
  l' = Node (KAtom atom) ∧
  ∀ n, n ∈ nodes_of last → has_edge G' n (KAtom atom) = true.
Proof.
  assert (∀ G1, (edges_from_last last (KAtom atom);;
                 (mret (Node (KAtom atom)) : M last_t)) G1 = Ok (l', G') →
    l' = Node (KAtom atom) ∧
    ∀ n, n ∈ nodes_of last → has_edge G' n (KAtom atom) = true) as Htail.
  { intros G1 H. erewrite bind_run_Ok in H; [|apply run_edges_from_last].
    injection H as <- <-. split; [done|]. intros n Hn.
    by apply edges_from_last_has_edge. }
  destruct atom as [? symb| ? |? inner q| ?]; cbn [encode_network_atom].
  - intros H. apply bind_Ok in H as ([] & G1 & _ & H).
    apply bind_Ok in H as (rtr_node & G2 & _ & H).
    erewrite bind_run_Ok in H; [|apply run_edges_from_last].
    erewrite bind_run_Ok in H; [|apply run_add_edge].
    injection H as <- <-. split; [done|]. intros n Hn.
    rewrite has_edge_add_edge. apply orb_true_iff. left.
    by apply edges_from_last_has_edge.
  - intros H. apply bind_Ok in H as ([] & G1 & _ & H). by eapply Htail.
  - intros H. apply bind_Ok in H as ([] & G1 & _ & H). by eapply Htail.
  - done.
Qed.

Lemma encode_network_atom_total n2r last atom G :
  supported_network_atom atom →
  ∃ G', encode_network_atom n2r last atom G = Ok (Node (KAtom atom), G').
Proof.
  intros Hs.
  destruct atom as [? symb| ? |? [] []| ?]; try done;
    cbn [encode_network_atom].
  - erewrite bind_run_Ok; [|apply run_add_node].
    destruct (n2r !! strip symb).
    + erewrite bind_run_Ok; [|apply run_ret].
      erewrite bind_run_Ok; [|apply run_edges_from_last].
      erewrite bind_run_Ok; [|apply run_add_edge]. eexists. apply run_ret.
    + erewrite (bind_run_Ok (_ ;; _)).
      2:{ erewrite bind_run_Ok; [|apply run_add_node]. apply run_ret. }
      erewrite bind_run_Ok; [|apply run_edges_from_last].
      erewrite bind_run_Ok; [|apply run_add_edge]. eexists. apply run_ret.
  - erewrite bind_run_Ok; [|apply run_add_node].
    erewrite bind_run_Ok; [|apply run_edges_from_last]. eexists. apply run_ret.
  - erewrite bind_run_Ok; [|apply run_add_node].
    erewrite bind_run_Ok; [|apply run_edges_from_last]. eexists. apply run_ret.
  - erewrite bind_run_Ok; [|apply run_add_node].
    erewrite bind_run_Ok; [|apply run_edges_from_last]. eexists. apply run_ret.
Qed.

Lemma run_build_labels_any s atom t lbl n G :
  lastnode s = Node n →
  build_labels_any s atom t lbl G =
  Ok ({| lastnode := Node (KAtom atom); par_nodes := par_nodes s;
         lastatom := Some atom; branch_next := branch_next s |},
      add_edge n (KAtom atom) (add_node (KAtom atom) (mk_attrs t lbl) G)).
Proof.
  intros Hn. unfold build_labels_any. rewrite Hn.
  erewrite bind_run_Ok; [|apply run_add_node].
  erewrite bind_run_Ok; [|apply run_add_edge]. apply run_ret.
Qed.

Lemma node_type_add_edge_add_node u v n a G :
  node_type (add_edge u v (add_node n a G)) n =
  match ntype a with Some t => Some t | None => node_type G n end.
Proof.
  rewrite node_type_add_edge, node_type_add_node.
  by destruct (decide (n = n)).
Qed.

Lemma has_edge_add_edge_same u v G : has_edge (add_edge u v G) u v = true.
Proof.
  rewrite has_edge_add_edge. apply orb_true_iff. right.
  apply bool_decide_eq_true. auto.
Qed.

Lemma run_network_quantified_any last atom t lbl G :
  (G_add_node (KAtom atom) t lbl;;
   edges_from_last last (KAtom atom);;
   (mret (Node (KAtom atom)) : M last_t)) G =
  Ok (Node (KAtom atom),
      foldl apply_op (add_node (KAtom atom) (mk_attrs t lbl) G)
        (edge_op <$> ((λ n, (n, KAtom atom)) <$> nodes_of last))).
Proof.
  erewrite bind_run_Ok; [|apply run_add_node].
  erewrite bind_run_Ok; [|apply run_edges_from_last]. apply run_ret.
Qed.

Lemma node_type_network_any last atom a G :
  node_type
    (foldl apply_op (add_node (KAtom atom) a G)
       (edge_op <$> ((λ n, (n, KAtom atom)) <$> nodes_of last)))
    (KAtom atom) =
  match ntype a with Some t => Some t | None => node_type G (KAtom atom) end.
Proof.
  rewrite foldl_edges_node_type, node_type_add_node.
  by destruct (decide (_ = _)).
Qed.

(** C5.  In the router path, a quantified "any" atom with the one-or-more
    quantifier becomes a node of type [ZeroOrMore] and one with the
    zero-or-more quantifier a node of type [OneOrMore]; either way every
    node of [last] gets an edge to the new node, which becomes [last].  The
    label-pattern encoder assigns the two types the other way round. *)
Theorem router_path_quantifier_tags (n2r : gmap string model.Router)
    last id aid G :
  let plus := AQuantifiedAtom id (AAnyAtom aid) AOneOrMoreQuantifier in
  let star := AQuantifiedAtom id (AAnyAtom aid) AZeroOrMoreQuantifier in
  (∃ G', encode_network_atom n2r last plus G = Ok (Node (KAtom plus), G') ∧
         node_type G' (KAtom plus) = Some NodeType.ZeroOrMore ∧
         ∀ n, n ∈ nodes_of last → has_edge G' n (KAtom plus) = true) ∧
  (∃ G', encode_network_atom n2r last star G = Ok (Node (KAtom star), G') ∧
         node_type G' (KAtom star) = Some NodeType.OneOrMore ∧
         ∀ n, n ∈ nodes_of last → has_edge G' n (KAtom star) = true) ∧
  (∀ s n, is_ASimpleAtom (lastatom s) = false → lastnode s = Node n →
     (∃ s' G', build_labels_step s plus G = Ok (s', G') ∧
               lastnode s' = Node (KAtom plus) ∧
               node_type G' (KAtom plus) = Some NodeType.OneOrMore ∧
               has_edge G' n (KAtom plus) = true) ∧
     (∃ s' G', build_labels_step s star G = Ok (s', G') ∧
               lastnode s' = Node (KAtom star) ∧
               node_type G' (KAtom star) = Some NodeType.ZeroOrMore ∧
               has_edge G' n (KAtom star) = true)).
Proof.
  intros plus star. subst plus star. split_and!.
  - eexists. split_and!.
    + cbn [encode_network_atom]. apply run_network_quantified_any.
    + apply node_type_network_any.
    + intros n Hn. by apply edges_from_last_has_edge.
  - eexists. split_and!.
    + cbn [encode_network_atom]. apply run_network_quantified_any.
    + apply node_type_network_any.
    + intros n Hn. by apply edges_from_last_has_edge.
  - intros s n Hs Hn. split.
    + eexists _, _. split_and!.
      * cbn [build_labels_step]. rewrite Hs.
        by apply run_build_labels_any.
      * done.
      * apply node_type_add_edge_add_node.
      * apply has_edge_add_edge_same.
    + eexists _, _. split_and!.
      * cbn [build_labels_step]. rewrite Hs.
        by apply run_build_labels_any.
      * done.
      * apply node_type_add_edge_add_node.
      * apply has_edge_add_edge_same.
Qed.

Lemma for_each_network_has_edge n2r atoms a G l' G' u v :
  for_each (encode_network_atom n2r) (Node (KAtom a)) atoms G = Ok (l', G') →
  has_edge G u v = true → has_edge G' u v = true.
Proof.
  intros Hrun. eapply ext_has_edge.
  eapply (writes_run (issued empty_model)); [|done].
  apply writes_for_each with (I := is_query_last); [|done].
  intros. by apply writes_encode_network_atom.
Qed.

(** C10.  A router path that is not empty leaves a single node as [last]: the
    node of its last atom.  Its first atom takes an edge from every node of
    the [last] it starts from, so also from every node of a list, and the
    path returns whenever all its atoms are supported.  Only the empty path
    hands its start value on unchanged. *)
Theorem router_path_last_single (n2r : gmap string model.Router) :
  (∀ atoms l G l' G',
     atoms ≠ [] →
     for_each (encode_network_atom n2r) l atoms G = Ok (l', G') →
     ∃ a, last atoms = Some a ∧ l' = Node (KAtom a)) ∧
  (∀ atom rest l G l' G',
     for_each (encode_network_atom n2r) l (atom :: rest) G = Ok (l', G') →
     ∀ n, n ∈ nodes_of l → has_edge G' n (KAtom atom) = true) ∧
  (∀ atoms l G,
     Forall supported_network_atom atoms →
     ∃ l' G', for_each (encode_network_atom n2r) l atoms G = Ok (l', G')) ∧
  (∀ l G, for_each (encode_network_atom n2r) l [] G = Ok (l, G)).
Proof.
  split_and!.
  - induction atoms as [|a atoms IH]; intros l G l' G' Hne Hrun; [done|].
    cbn [for_each] in Hrun. apply bind_Ok in Hrun as (l1 & G1 & Ha & Hrun).
    apply encode_network_atom_Ok in Ha as [-> _].
    destruct atoms as [|b atoms].
    + injection Hrun as <- <-. by exists a.
    + destruct (IH _ _ _ _ ltac:(done) Hrun) as (c & Hc & ->).
      exists c. by rewrite last_cons_cons.
  - intros atom rest l G l' G' Hrun n Hn. cbn [for_each] in Hrun.
    apply bind_Ok in Hrun as (l1 & G1 & Ha & Hrun).
    apply encode_network_atom_Ok in Ha as [-> Hedge].
    eapply for_each_network_has_edge; [done|]. by apply Hedge.
  - induction atoms as [|a atoms IH]; intros l G Hs; [by eexists _, _|].
    apply Forall_cons in Hs as [Ha Hs].
    destruct (encode_network_atom_total n2r l a G Ha) as [G1 H1].
    destruct (IH (Node (KAtom a)) G1 Hs) as (l' & G' & H').
    exists l', G'. cbn [for_each]. by erewrite bind_run_Ok.
  - done.
Qed.

(** [name2router] after the loop over the routers. *)
Lemma encode_router_Ok m rtr G m' G' :
  encode_router m rtr G = Ok (m', G') → m' = <[model.rtr_name rtr := rtr]> m.
Proof.
  unfold encode_router. intros H.
  apply bind_Ok in H as ([] & G1 & _ & H).
  apply bind_Ok in H as ([] & G2 & _ & H). by injection H.
Qed.

Lemma for_each_encode_router_names l : ∀ m G m' G',
  for_each encode_router m l G = Ok (m', G') →
  ∀ name, m' !! name = None ↔
          m !! name = None ∧ ∀ r, r ∈ l → model.rtr_name r ≠ name.
Proof.
  induction l as [|r l IH]; intros m G m' G' Hrun name.
  - injection Hrun as <- <-. set_solver.
  - cbn [for_each] in Hrun. apply bind_Ok in Hrun as (m1 & G1 & Hr & Hrun).
    apply encode_router_Ok in Hr as ->.
    rewrite (IH _ _ _ _ Hrun), lookup_insert_None. set_solver.
Qed.

Lemma encode_network_names net G0 n2r G1 name :
  encode_network net G0 = Ok (n2r, G1) →
  n2r !! name = None ↔
  ∀ r, r ∈ model.routers (model.topology net) → model.rtr_name r ≠ name.
Proof.
  unfold encode_network. intros H.
  apply bind_Ok in H as (m & Ga & Hm & H).
  apply bind_Ok in H as ([] & Gb & _ & H).
  apply bind_Ok in H as ([] & Gc & _ & H).
  apply bind_Ok in H as ([] & Gd & _ & H).
  assert (m = n2r) as -> by (by injection H).
  rewrite (for_each_encode_router_names _ _ _ _ _ Hm), lookup_empty. tauto.
Qed.

Lemma has_edge_foldl G ops u v :
  has_edge (foldl apply_op G ops) u v = true ↔
  has_edge G u v = true ∨ AddEdge u v ∈ ops ∨ AddEdge v u ∈ ops.
Proof.
  split.
  - intros [H|H]%has_edge_true;
      apply (ext_edge_origin _ _ _ _ _ (ext_foldl G ops)) in H as [H|H];
      auto; left; apply has_edge_true; auto.
  - intros [H|[H|H]].
    + eapply ext_has_edge; [apply ext_foldl|done].
    + by apply foldl_has_edge.
    + rewrite has_edge_sym. by apply foldl_has_edge.
Qed.

Lemma elem_of_edges_to (l : list key) v x y :
  AddEdge x y ∈ edge_op <$> ((λ n : key, (n, v)) <$> l) ↔ x ∈ l ∧ y = v.
Proof.
  split.
  - intros ([a b] & Heq & (n & [= -> ->] & Hn)%list_elem_of_fmap)
      %list_elem_of_fmap.
    unfold edge_op in Heq. cbn in Heq. by injection Heq as -> ->.
  - intros [Hx ->]. apply list_elem_of_fmap. exists (x, v).
    split; [done|]. apply list_elem_of_fmap. by exists x.
Qed.

(** C2, as the code has it.  For a plain atom of the router path whose name
    is the name of no router of the model, the encoder leaves a placeholder
    node keyed by the name, of type [Router] and with the name as display
    label, and links the atom's [QueryAtom] node to it.  When the name was no
    key of the graph the placeholder is a new node, and the edge to the atom
    is its only edge. *)
Theorem unknown_router_placeholder net G0 n2r G1 last id symb G :
  encode_network net G0 = Ok (n2r, G1) →
  (∀ r, r ∈ model.routers (model.topology net) →
        model.rtr_name r ≠ strip symb) →
  let atom := ASimpleAtom id symb in
  ∃ G', encode_network_atom n2r last atom G = Ok (Node (KAtom atom), G') ∧
        node_type G' (KAtom atom) = Some NodeType.QueryAtom ∧
        node_type G' (KStr (strip symb)) = Some NodeType.Router ∧
        node_label G' (KStr (strip symb)) = Some (strip symb) ∧
        has_edge G' (KAtom atom) (KStr (strip symb)) = true ∧
        (simple_graph G → has_node G (KStr (strip symb)) = false →
         has_node G' (KStr (strip symb)) = true ∧
         ∀ v, has_edge G' (KStr (strip symb)) v = true → v = KAtom atom).
Proof.
  intros Hnet Hnone atom.
  apply (encode_network_names _ _ _ _ (strip symb) Hnet) in Hnone.
  eexists. split_and!.
  - cbn [encode_network_atom atom]. rewrite Hnone.
    erewrite bind_run_Ok; [|apply run_add_node].
    erewrite (bind_run_Ok (_ ;; _)).
    2:{ erewrite bind_run_Ok; [|apply run_add_node]. apply run_ret. }
    erewrite bind_run_Ok; [|apply run_edges_from_last].
    erewrite bind_run_Ok; [|apply run_add_edge]. apply run_ret.
  - rewrite node_type_add_edge, foldl_edges_node_type, !node_type_add_node.
    destruct (decide (KAtom atom = KStr (strip symb))); [done|].
    by destruct (decide (KAtom atom = KAtom atom)).
  - rewrite node_type_add_edge, foldl_edges_node_type, node_type_add_node.
    by destruct (decide (KStr (strip symb) = KStr (strip symb))).
  - rewrite node_label_add_edge, foldl_edges_node_label, node_label_add_node.
    by destruct (decide (KStr (strip symb) = KStr (strip symb))).
  - apply has_edge_add_edge_same.
  - intros (_ & Hends & _) Hnew. split.
    { apply has_node_true, elem_of_keys_add_edge. auto. }
    intros v. rewrite has_edge_add_edge, orb_true_iff, bool_decide_eq_true.
    intros [Hv|[[[=] _]|[_ ->]]]; [|done].
    apply has_edge_foldl in Hv as [Hv|[Hv|Hv]].
    + rewrite !has_edge_add_node in Hv. apply has_edge_true in Hv.
      assert (KStr (strip symb) ∈ keys G) as Hin
        by (destruct Hv as [Hv|Hv]; apply Hends in Hv; tauto).
      apply has_node_true in Hin. congruence.
    + by apply elem_of_edges_to in Hv as [_ ->].
    + by apply elem_of_edges_to in Hv as [_ [=]].
Qed.

(** ** Label patterns *)

Lemma run_has_node n G : G_has_node n G = Ok (has_node G n, G).
Proof. reflexivity. Qed.

Lemma run_atom_label_simple id symb G :
  has_node G (KLabel (label_of_symbol symb)) = true →
  atom_label_to_node (ASimpleAtom id symb) G =
  Ok (KAtom (ASimpleAtom id symb),
      add_edge (KAtom (ASimpleAtom id symb)) (KLabel (label_of_symbol symb))
        (add_node (KAtom (ASimpleAtom id symb))
           (mk_attrs NodeType.QueryAtom
              ("atom:label:" +:+ model.name (label_of_symbol symb))) G)).
Proof.
  intros Hl. cbn [atom_label_to_node].
  erewrite bind_run_Ok; [|apply run_has_node]. rewrite Hl.
  erewrite bind_run_Ok; [|apply run_add_node].
  erewrite bind_run_Ok; [|apply run_add_edge]. apply run_ret.
Qed.

Lemma run_atom_label_unregistered id symb G :
  has_node G (KLabel (label_of_symbol symb)) = false →
  atom_label_to_node (ASimpleAtom id symb) G = Raise AssertionError.
Proof.
  intros Hl. cbn [atom_label_to_node].
  erewrite bind_run_Ok; [|apply run_has_node]. by rewrite Hl.
Qed.

Lemma has_node_add_node n a G m :
  has_node G m = true → has_node (add_node n a G) m = true.
Proof. rewrite !has_node_true, elem_of_keys_add_node. auto. Qed.

Lemma has_node_add_edge u v G m :
  has_node G m = true → has_node (add_edge u v G) m = true.
Proof. rewrite !has_node_true, elem_of_keys_add_edge. auto. Qed.

Lemma build_labels_step_lastatom s atom :
  returns (build_labels_step s atom) (λ s', lastatom s' = Some atom).
Proof.
  assert (returns (build_labels_plain s atom)
            (λ s', lastatom s' = Some atom)) as Hplain.
  { unfold build_labels_plain. apply returns_bind. intros node.
    destruct (branch_next s); [|destruct (bool_decide _)];
      apply returns_bind; intros; by apply returns_ret. }
  destruct atom as [? ?| ? |id inner q| ?]; try apply Hplain.
  cbn [build_labels_step].
  destruct (is_ASimpleAtom (lastatom s)); [apply returns_raise|].
  assert (∀ t lbl, returns
            (build_labels_any s (AQuantifiedAtom id inner q) t lbl)
            (λ s', lastatom s' = Some (AQuantifiedAtom id inner q))) as Hany.
  { intros. unfold build_labels_any. apply returns_bind. intros.
    apply returns_bind. intros. by apply returns_ret. }
  assert (returns (build_labels_branch s (AQuantifiedAtom id inner q) inner)
            (λ s', lastatom s' = Some (AQuantifiedAtom id inner q)))
    as Hbranch.
  { unfold build_labels_branch. apply returns_bind. intros.
    apply returns_bind. intros. by apply returns_ret. }
  destruct q, inner;
    first [apply returns_raise|apply Hany|apply Hbranch].
Qed.

Lemma for_each_build_labels_lastatom pre prev s0 G0 s1 G1 :
  for_each build_labels_step s0 (pre ++ [prev]) G0 = Ok (s1, G1) →
  lastatom s1 = Some prev.
Proof.
  rewrite for_each_app.
  destruct (for_each build_labels_step s0 pre G0) as [[s G]|e]; [|done].
  cbn [for_each]. intros (s' & G' & Hstep & [= <- <-])%bind_Ok.
  by eapply build_labels_step_lastatom.
Qed.

Lemma build_labels_step_after_plain s id inner q G :
  is_ASimpleAtom (lastatom s) = true →
  build_labels_step s (AQuantifiedAtom id inner q) G =
  Raise (Exception "Case not covered by code").
Proof. intros Hs. cbn [build_labels_step]. by rewrite Hs. Qed.

Lemma always_raises_plain_quantified pre sid symb id inner q post s :
  always_raises
    (for_each build_labels_step s
       (pre ++ ASimpleAtom sid symb :: AQuantifiedAtom id inner q :: post)).
Proof.
  intros G. rewrite for_each_app.
  destruct (for_each build_labels_step s pre G) as [[s1 G1]|e]; [|eauto].
  cbn [for_each]. unfold mbind, M_bind.
  destruct (build_labels_step s1 (ASimpleAtom sid symb) G1)
    as [[s2 G2]|e] eqn:E; [|eauto].
  apply build_labels_step_lastatom in E.
  rewrite build_labels_step_after_plain; [eauto|]. by rewrite E.
Qed.

(** C7.  A quantified atom that comes right after a plain label atom makes
    the label-pattern encoder raise: the step that meets it raises "Case not
    covered by code", the encoder raises on every pattern that holds such a
    pair, and so does [mpls2graph] when its constructing or destructing
    pattern does.  No graph is returned, so no atom is left out of one. *)
Theorem quantified_after_plain_raises :
  (∀ s id inner q G,
     is_ASimpleAtom (lastatom s) = true →
     build_labels_step s (AQuantifiedAtom id inner q) G =
     Raise (Exception "Case not covered by code")) ∧
  (∀ lastnode0 pre sid symb id inner q post G,
     ∃ e, build_labels_graph_repr lastnode0
            (Some (pre ++ ASimpleAtom sid symb
                       :: AQuantifiedAtom id inner q :: post)) G
          = Raise e) ∧
  (∀ net query k0 pre sid symb id inner q post,
     let p := pre ++ ASimpleAtom sid symb
                  :: AQuantifiedAtom id inner q :: post in
     getConstructing query = Some p ∨ getDestructing query = Some p →
     ∃ e, mpls2graph net query k0 = Raise e).
Proof.
  assert (∀ lastnode0 pre sid symb id inner q post,
    always_raises (build_labels_graph_repr lastnode0
      (Some (pre ++ ASimpleAtom sid symb
                 :: AQuantifiedAtom id inner q :: post)))) as Hbuild.
  { intros. cbn [build_labels_graph_repr]. apply always_raises_bind_l.
    apply always_raises_plain_quantified. }
  split_and!.
  - intros. by apply build_labels_step_after_plain.
  - intros. apply Hbuild.
  - intros net query k0 pre sid symb id inner q post p Hp.
    assert (always_raises (mpls2graph_body net query k0)) as Hraise.
    { unfold mpls2graph_body. apply always_raises_bind_r. intros n2r.
      unfold encode_query.
      apply always_raises_bind_r. intros _.
      apply always_raises_bind_r. intros _.
      apply always_raises_bind_r. intros _.
      destruct Hp as [-> | ->].
      - apply always_raises_bind_l, Hbuild.
      - apply always_raises_bind_r. intros l1.
        apply always_raises_bind_r. intros l2.
        apply always_raises_bind_l, Hbuild. }
    unfold mpls2graph. destruct (Hraise empty_graph) as [e ->]. eauto.
Qed.

Lemma build_labels_step_single s atom :
  (∃ n, lastnode s = Node n) →
  returns (build_labels_step s atom) (λ s', ∃ m, lastnode s' = Node m).
Proof.
  intros Hs.
  assert (returns (build_labels_plain s atom)
            (λ s', ∃ m, lastnode s' = Node m)) as Hplain.
  { unfold build_labels_plain. apply returns_bind. intros node.
    destruct (branch_next s); [|destruct (bool_decide _)];
      apply returns_bind; intros; apply returns_ret; cbn; eauto. }
  destruct atom as [? ?| ? |id inner q| ?]; try apply Hplain.
  cbn [build_labels_step].
  destruct (is_ASimpleAtom (lastatom s)); [apply returns_raise|].
  assert (∀ t lbl, returns
            (build_labels_any s (AQuantifiedAtom id inner q) t lbl)
            (λ s', ∃ m, lastnode s' = Node m)) as Hany.
  { intros. unfold build_labels_any. apply returns_bind. intros.
    apply returns_bind. intros. apply returns_ret. cbn. eauto. }
  assert (returns (build_labels_branch s (AQuantifiedAtom id inner q) inner)
            (λ s', ∃ m, lastnode s' = Node m)) as Hbranch.
  { unfold build_labels_branch. apply returns_bind. intros.
    apply returns_bind. intros. by apply returns_ret. }
  destruct q, inner;
    first [apply returns_raise|apply Hany|apply Hbranch].
Qed.

Lemma for_each_build_labels_single atoms : ∀ s0 G0 s1 G1,
  (∃ n, lastnode s0 = Node n) →
  for_each build_labels_step s0 atoms G0 = Ok (s1, G1) →
  ∃ m, lastnode s1 = Node m.
Proof.
  induction atoms as [|atom atoms IH]; intros s0 G0 s1 G1 Hs Hrun.
  { by injection Hrun as <- _. }
  cbn [for_each] in Hrun. apply bind_Ok in Hrun as (s' & G' & Hstep & Hrun).
  eapply IH; [|exact Hrun].
  exact (build_labels_step_single s0 atom Hs _ _ _ Hstep).
Qed.

(** C8, as the code has it.  A zero-or-more "any" atom becomes a
    [ZeroOrMore] node linked from the current node, which it replaces,
    whenever the atom before it is not a plain label atom (the atom before is
    [lastatom]) and the current node is a single node; right after a plain
    label atom the step raises instead.  The current node is a single node
    all along a pattern that starts from one; when the pattern starts from a
    list of nodes the step raises [TypeError]. *)
Theorem label_pattern_zero_or_more_any s id aid G :
  let star := AQuantifiedAtom id (AAnyAtom aid) AZeroOrMoreQuantifier in
  (is_ASimpleAtom (lastatom s) = false →
   ∀ n, lastnode s = Node n →
     ∃ G', build_labels_step s star G =
           Ok ({| lastnode := Node (KAtom star); par_nodes := par_nodes s;
                  lastatom := Some star; branch_next := branch_next s |}, G') ∧
           node_type G' (KAtom star) = Some NodeType.ZeroOrMore ∧
           has_edge G' n (KAtom star) = true) ∧
  (is_ASimpleAtom (lastatom s) = true →
   build_labels_step s star G = Raise (Exception "Case not covered by code")) ∧
  (∀ pre prev s0 G0 s1 G1,
     for_each build_labels_step s0 (pre ++ [prev]) G0 = Ok (s1, G1) →
     lastatom s1 = Some prev) ∧
  (∀ atoms s0 G0 s1 G1 n,
     lastnode s0 = Node n →
     for_each build_labels_step s0 atoms G0 = Ok (s1, G1) →
     ∃ m, lastnode s1 = Node m) ∧
  (is_ASimpleAtom (lastatom s) = false →
   ∀ l, lastnode s = Nodes l →
     build_labels_step s star G = Raise TypeError).
Proof.
  intros star. subst star. split_and!.
  - intros Hs n Hn. eexists. split_and!.
    + cbn [build_labels_step]. rewrite Hs. by apply run_build_labels_any.
    + apply node_type_add_edge_add_node.
    + apply has_edge_add_edge_same.
  - intros Hs. by apply build_labels_step_after_plain.
  - apply for_each_build_labels_lastatom.
  - intros atoms s0 G0 s1 G1 n Hn Hrun.
    eapply for_each_build_labels_single; [|exact Hrun]. by exists n.
  - intros Hs l Hl. cbn [build_labels_step]. rewrite Hs.
    unfold build_labels_any. rewrite Hl.
    erewrite bind_run_Ok; [|apply run_add_node].
    by apply bind_run_Raise.
Qed.

Lemma run_build_labels_branch_simple s atom id symb n G :
  lastnode s = Node n →
  has_node G (KLabel (label_of_symbol symb)) = true →
  build_labels_branch s atom (ASimpleAtom id symb) G =
  Ok ({| lastnode := Node n;
         par_nodes := par_nodes s ++ [KAtom (ASimpleAtom id symb)];
         lastatom := Some atom; branch_next := true |},
      add_edge n (KAtom (ASimpleAtom id symb))
        (add_edge (KAtom (ASimpleAtom id symb))
           (KLabel (label_of_symbol symb))
           (add_node (KAtom (ASimpleAtom id symb))
              (mk_attrs NodeType.QueryAtom
                 ("atom:label:" +:+ model.name (label_of_symbol symb))) G))).
Proof.
  intros Hn Hl. unfold build_labels_branch.
  erewrite bind_run_Ok; [|by apply run_atom_label_simple]. rewrite Hn.
  erewrite bind_run_Ok; [|apply run_add_edge]. apply run_ret.
Qed.

Lemma run_build_labels_plain_pending s id symb n G :
  lastnode s = Node n → branch_next s = true →
  has_node G (KLabel (label_of_symbol symb)) = true →
  build_labels_plain s (ASimpleAtom id symb) G =
  Ok ({| lastnode := Node n;
         par_nodes := par_nodes s ++ [KAtom (ASimpleAtom id symb)];
         lastatom := Some (ASimpleAtom id symb); branch_next := false |},
      add_edge n (KAtom (ASimpleAtom id symb))
        (add_edge (KAtom (ASimpleAtom id symb))
           (KLabel (label_of_symbol symb))
           (add_node (KAtom (ASimpleAtom id symb))
              (mk_attrs NodeType.QueryAtom
                 ("atom:label:" +:+ model.name (label_of_symbol symb))) G))).
Proof.
  intros Hn Hb Hl. unfold build_labels_plain.
  erewrite bind_run_Ok; [|by apply run_atom_label_simple]. rewrite Hb, Hn.
  erewrite bind_run_Ok; [|apply run_add_edge]. apply run_ret.
Qed.

Lemma has_edge_add_edge_false u v G x y :
  has_edge G x y = false → ¬ (x = u ∧ y = v) → ¬ (x = v ∧ y = u) →
  has_edge (add_edge u v G) x y = false.
Proof.
  intros HG H1 H2. rewrite has_edge_add_edge, HG. cbn.
  apply bool_decide_eq_false. tauto.
Qed.

(** C1, as the code has it.  For the pattern [a+ b] the encoder links the
    node before [a] to the node of [a] and also to the node of [b]; it adds
    no edge between the nodes of [a] and [b], and returns both as the
    terminal nodes still to be merged. *)
Theorem one_or_more_then_plain n qid ida sa idb sb G :
  let a := ASimpleAtom ida sa in
  let b := ASimpleAtom idb sb in
  has_node G (KLabel (label_of_symbol sa)) = true →
  has_node G (KLabel (label_of_symbol sb)) = true →
  n ≠ KAtom a → n ≠ KAtom b →
  has_edge G (KAtom a) (KAtom b) = false →
  ∃ G', build_labels_graph_repr (Node n)
          (Some [AQuantifiedAtom qid a AOneOrMoreQuantifier; b]) G
        = Ok (Nodes [KAtom a; KAtom b], G') ∧
        has_edge G' n (KAtom a) = true ∧
        has_edge G' n (KAtom b) = true ∧
        has_edge G' (KAtom a) (KAtom b) = false.
Proof.
  intros a b Ha Hb Hna Hnb Hab. subst a b. eexists. split_and!.
  - cbn [build_labels_graph_repr for_each].
    erewrite bind_run_Ok.
    2:{ erewrite bind_run_Ok.
        2:{ cbn [build_labels_step is_ASimpleAtom lastatom].
            by apply run_build_labels_branch_simple. }
        erewrite bind_run_Ok.
        2:{ cbn [build_labels_step].
            apply run_build_labels_plain_pending; [done..|].
            by do 3 (first [apply has_node_add_edge|apply has_node_add_node]). }
        apply run_ret. }
    reflexivity.
  - do 2 (rewrite has_edge_add_edge; apply orb_true_iff; left).
    rewrite has_edge_add_node. apply has_edge_add_edge_same.
  - apply has_edge_add_edge_same.
  - repeat first
      [ rewrite has_edge_add_node
      | apply has_edge_add_edge_false; [|intros [? ?]; congruence..] ].
    done.
Qed.

(** ** Registered labels and the assertion of [atom_label_to_node] *)

Section safe_rules.
Context (L : list model.Label).

Lemma registered_ext Φ G G' : ext Φ G G' → registered L G → registered L G'.
Proof. intros Hext HG l Hl. eapply ext_has_node; [done|]. by apply HG. Qed.

Lemma safe_ret {A} (x : A) : safe L (mret x).
Proof. by intros G HG. Qed.

Lemma safe_raise {A} e : e ≠ AssertionError → safe L (@raise A e).
Proof. by intros He G HG. Qed.

Lemma safe_bind {A B} (m : M A) (f : A → M B) :
  safe L m → (∀ x, safe L (f x)) → safe L (m ≫= f).
Proof.
  intros Hm Hf G HG. specialize (Hm G HG). unfold mbind, M_bind.
  destruct (m G) as [[x G1]|e]; [|done]. by apply Hf.
Qed.

Lemma safe_writes {A} Φ (m : M A) R :
  writes Φ m R → (∀ G e, m G = Raise e → e ≠ AssertionError) → safe L m.
Proof.
  intros Hw He G HG. specialize (Hw G). specialize (He G).
  destruct (m G) as [[x G1]|e]; [|by apply He].
  destruct Hw as [_ Hext]. by eapply registered_ext.
Qed.

Lemma safe_add_node n t lbl : safe L (G_add_node n t lbl).
Proof. intros G HG l Hl. by apply has_node_add_node, HG. Qed.

Lemma safe_add_node_attrs n a : safe L (G_add_node_attrs n a).
Proof. intros G HG l Hl. by apply has_node_add_node, HG. Qed.

Lemma safe_add_edge u v : safe L (G_add_edge u v).
Proof. intros G HG l Hl. by apply has_node_add_edge, HG. Qed.

Lemma safe_has_node n : safe L (G_has_node n).
Proof. by intros G HG. Qed.

Lemma safe_add_edge_from u v : safe L (G_add_edge_from u v).
Proof. destruct u; [apply safe_add_edge|by apply safe_raise]. Qed.

Lemma safe_add_edges_from l v : safe L (G_add_edges_from l v).
Proof.
  induction l as [|n l IH]; [apply safe_ret|].
  cbn [G_add_edges_from]. apply safe_bind; [apply safe_add_edge|done].
Qed.

Lemma safe_edges_from_last l v : safe L (edges_from_last l v).
Proof. destruct l; [apply safe_add_edge|apply safe_add_edges_from]. Qed.

Lemma safe_for_each {S A} (body : S → A → M S) l s :
  (∀ s x, x ∈ l → safe L (body s x)) → safe L (for_each body s l).
Proof.
  revert s. induction l as [|x l IH]; intros s Hbody; [apply safe_ret|].
  cbn [for_each]. apply safe_bind; [apply Hbody; by left|].
  intros s'. apply IH. intros. apply Hbody. by right.
Qed.

Lemma safe_atom_label_to_node atom :
  (∀ id symb, atom = ASimpleAtom id symb → label_of_symbol symb ∈ L) →
  safe L (atom_label_to_node atom).
Proof.
  intros Hatom. destruct atom as [id symb| ? | |]; cbn [atom_label_to_node];
    try by apply safe_raise.
  - intros G HG. erewrite bind_run_Ok; [|apply run_has_node].
    rewrite (HG _ (Hatom _ _ eq_refl)).
    revert G HG. fold (safe L
      (G_add_node (KAtom (ASimpleAtom id symb)) NodeType.QueryAtom
         ("atom:label:" +:+ model.name (label_of_symbol symb));;
       G_add_edge (KAtom (ASimpleAtom id symb))
         (KLabel (label_of_symbol symb));;
       (mret (KAtom (ASimpleAtom id symb)) : M key))).
    apply safe_bind; [apply safe_add_node|]. intros _.
    apply safe_bind; [apply safe_add_edge|]. intros _. apply safe_ret.
  - apply safe_bind; [apply safe_add_node|]. intros _. apply safe_ret.
Qed.

Lemma safe_build_labels_plain s atom :
  (∀ id symb, atom = ASimpleAtom id symb → label_of_symbol symb ∈ L) →
  safe L (build_labels_plain s atom).
Proof.
  intros Hatom. unfold build_labels_plain.
  apply safe_bind; [by apply safe_atom_label_to_node|]. intros node.
  destruct (branch_next s); [|destruct (bool_decide _)];
    (apply safe_bind; [|intros _; apply safe_ret]);
    first [apply safe_add_edge_from|apply safe_add_edges_from].
Qed.

Lemma safe_build_labels_any s atom t lbl :
  safe L (build_labels_any s atom t lbl).
Proof.
  unfold build_labels_any.
  apply safe_bind; [apply safe_add_node|]. intros _.
  apply safe_bind; [apply safe_add_edge_from|]. intros _. apply safe_ret.
Qed.

Lemma safe_build_labels_branch s atom inner :
  (∀ id symb, inner = ASimpleAtom id symb → label_of_symbol symb ∈ L) →
  safe L (build_labels_branch s atom inner).
Proof.
  intros Hinner. unfold build_labels_branch.
  apply safe_bind; [by apply safe_atom_label_to_node|]. intros node.
  apply safe_bind; [apply safe_add_edge_from|]. intros _. apply safe_ret.
Qed.

Lemma safe_build_labels_step s atom :
  (∀ l, named_label atom = Some l → l ∈ L) →
  safe L (build_labels_step s atom).
Proof.
  intros Hatom.
  destruct atom as [id symb| ? |id inner q| ?]; cbn [build_labels_step].
  - apply safe_build_labels_plain. intros ? ? [= <- <-]. by apply Hatom.
  - by apply safe_build_labels_plain.
  - destruct (is_ASimpleAtom (lastatom s)); [by apply safe_raise|].
    destruct q, inner;
      first [by apply safe_raise
            |apply safe_build_labels_any
            |apply safe_build_labels_branch; intros ? ? [= <- <-];
             by apply Hatom
            |by apply safe_build_labels_branch].
  - by apply safe_build_labels_plain.
Qed.

Lemma safe_build_labels_graph_repr l0 st :
  (∀ l, l ∈ pattern_labels st → l ∈ L) →
  safe L (build_labels_graph_repr l0 st).
Proof.
  intros Hst. destruct st as [atoms|]; cbn [build_labels_graph_repr].
  - apply safe_bind.
    + apply safe_for_each. intros s atom Hin.
      apply safe_build_labels_step. intros l Hl. apply Hst.
      cbn [pattern_labels]. apply list_elem_of_omap. eauto.
    + intros s. destruct (bool_decide _); apply safe_ret.
  - apply safe_bind; [apply safe_add_node|]. intros _.
    apply safe_bind; [apply safe_add_edge_from|]. intros _. apply safe_ret.
Qed.

Lemma safe_encode_network_atom n2r l atom :
  safe L (encode_network_atom n2r l atom).
Proof.
  destruct atom as [id symb| ? |id inner q| ?]; cbn [encode_network_atom].
  - apply safe_bind; [apply safe_add_node|]. intros _.
    apply safe_bind.
    { destruct (n2r !! strip symb); [apply safe_ret|].
      apply safe_bind; [apply safe_add_node|]. intros _. apply safe_ret. }
    intros v. apply safe_bind; [apply safe_edges_from_last|]. intros _.
    apply safe_bind; [apply safe_add_edge|]. intros _. apply safe_ret.
  - apply safe_bind; [apply safe_add_node|]. intros _.
    apply safe_bind; [apply safe_edges_from_last|]. intros _. apply safe_ret.
  - apply safe_bind.
    { destruct q, inner;
        first [by apply safe_raise|apply safe_add_node]. }
    intros _.
    apply safe_bind; [apply safe_edges_from_last|]. intros _. apply safe_ret.
  - by apply safe_raise.
Qed.

Lemma safe_encode_rule rtr i rule : safe L (encode_rule rtr i rule).
Proof.
  unfold encode_rule.
  apply safe_bind; [apply safe_add_node|]. intros _.
  apply safe_bind; [apply safe_add_edge|]. intros _.
  apply safe_bind.
  { destruct (decide _); [apply safe_ret|apply safe_add_edge]. }
  intros _. apply safe_bind; [|intros; apply safe_add_edge].
  apply safe_for_each. intros s x _. unfold encode_action.
  apply safe_bind.
  { destruct x;
      first [by apply safe_raise
            |apply safe_bind; [apply safe_add_node|intros _;
                                                   apply safe_add_edge]
            |apply safe_add_node]. }
  intros _. apply safe_bind; [apply safe_add_edge|]. intros _. apply safe_ret.
Qed.

Lemma safe_encode_network net : safe L (encode_network net).
Proof.
  unfold encode_network. apply safe_bind.
  { apply safe_for_each. intros m rtr _. unfold encode_router.
    apply safe_bind; [apply safe_add_node|]. intros _.
    apply safe_bind; [|intros _; apply safe_ret].
    apply safe_for_each. intros [] iface _.
    apply safe_bind; [apply safe_add_node|]. intros _. apply safe_add_edge. }
  intros n2r. apply safe_bind.
  { apply safe_for_each. intros [] lnk _. apply safe_add_edge. }
  intros _. apply safe_bind.
  { unfold encode_labels. apply safe_bind; [apply safe_add_node|]. intros _.
    apply safe_for_each. intros [] lbl _. apply safe_add_node. }
  intros _. apply safe_bind; [|intros _; apply safe_ret].
  apply safe_for_each. intros [] e _. unfold encode_table.
  apply safe_bind; [|intros _; apply safe_ret].
  apply safe_for_each. intros i dest _. unfold encode_destination.
  destruct (model.te_groups dest) as [|g gs]; [by apply safe_raise|].
  destruct (model.rules g) as [|rule rs]; [by apply safe_raise|].
  apply safe_bind; [apply safe_encode_rule|]. intros _. apply safe_ret.
Qed.

End safe_rules.

Lemma ext_label_added G G' n :
  ext label_op G G' → n ∈ keys G' →
  n ∈ keys G ∨ node_type G' n = Some NodeType.Label.
Proof.
  intros H. induction H as [|G' o _ IH (l & a & -> & Ha)]; [auto|].
  cbn [apply_op]. rewrite elem_of_keys_add_node, node_type_add_node.
  destruct (decide (n = KLabel l)) as [->|Hne]; [rewrite Ha; auto|].
  intros [Hn|Hn]; [auto|done].
Qed.

Lemma run_ensure_label_nodes_atom u atom G :
  ensure_label_nodes_atom u atom G =
  Ok (tt, match named_label atom with
          | None => G
          | Some l =>
              if has_node G (KLabel l) then G
              else add_node (KLabel l)
                     (mk_attrs NodeType.Label ("label:" +:+ model.name l)) G
          end).
Proof.
  assert (∀ symb,
    (present ← G_has_node (KLabel (label_of_symbol symb));
     if (present : bool) then mret tt
     else G_add_node (KLabel (label_of_symbol symb)) NodeType.Label
            ("label:" +:+ model.name (label_of_symbol symb))) G =
    Ok (tt, if has_node G (KLabel (label_of_symbol symb)) then G
            else add_node (KLabel (label_of_symbol symb))
                   (mk_attrs NodeType.Label
                      ("label:" +:+ model.name (label_of_symbol symb))) G))
    as Hsymb.
  { intros symb. erewrite bind_run_Ok; [|apply run_has_node].
    by destruct (has_node G _). }
  destruct u.
  destruct atom as [? symb| ? |? [? symb| | |] ?| ?]; try done; apply Hsymb.
Qed.

(** What [ensure_label_nodes] leaves: it returns, it only adds label nodes
    of type [Label], and the labels the pattern names are nodes. *)
Lemma ensure_label_nodes_Ok st G :
  ∃ G', ensure_label_nodes st G = Ok (tt, G') ∧
        ext label_op G G' ∧
        ∀ l, l ∈ pattern_labels st → has_node G' (KLabel l) = true.
Proof.
  destruct st as [atoms|]; cbn [ensure_label_nodes pattern_labels].
  2:{ exists G. split_and!; [done|constructor|]. by intros l ?%elem_of_nil. }
  revert G. induction atoms as [|atom atoms IH]; intros G.
  { exists G. split_and!; [done|constructor|]. by intros l ?%elem_of_nil. }
  cbn [for_each].
  erewrite bind_run_Ok; [|apply run_ensure_label_nodes_atom].
  set (G1 := match named_label atom with
             | None => G
             | Some l =>
                 if has_node G (KLabel l) then G
                 else add_node (KLabel l)
                        (mk_attrs NodeType.Label
                           ("label:" +:+ model.name l)) G
             end).
  assert (ext label_op G G1) as Hext1.
  { subst G1. destruct (named_label atom) as [l|]; [|constructor].
    destruct (has_node G (KLabel l)); [constructor|].
    apply (ext_one _ _ (AddNode _ _)). by eexists _, _. }
  assert (∀ l, named_label atom = Some l → has_node G1 (KLabel l) = true)
    as Hatom.
  { intros l Hl. subst G1. rewrite Hl.
    destruct (has_node G (KLabel l)) eqn:E; [done|].
    apply has_node_true, elem_of_keys_add_node. by right. }
  destruct (IH G1) as (G' & Hrun & Hext & Hrest).
  exists G'. split_and!; [done|by eapply ext_trans|].
  intros l (x & [->|Hx]%elem_of_cons & Hl)%list_elem_of_omap.
  - eapply ext_has_node; [done|]. by apply Hatom.
  - apply Hrest, list_elem_of_omap. eauto.
Qed.

(** C6.  The two calls of [ensure_label_nodes] return and leave every label
    that a plain atom, or a quantified plain atom, of the constructing or
    destructing pattern names as a node, of type [Label] when the calls had
    to create it; the pattern encoders run on that graph, and no call of
    [mpls2graph] ends in the assertion of [atom_label_to_node]. *)
Theorem labels_registered_before_patterns :
  (∀ constr destr G,
     ∃ G', (ensure_label_nodes constr;; ensure_label_nodes destr) G
           = Ok (tt, G') ∧
           ∀ l, l ∈ pattern_labels constr ++ pattern_labels destr →
                has_node G' (KLabel l) = true ∧
                (has_node G (KLabel l) = false →
                 node_type G' (KLabel l) = Some NodeType.Label)) ∧
  (∀ net query k0, mpls2graph net query k0 ≠ Raise AssertionError).
Proof.
  assert (∀ constr destr G,
     ∃ G', (ensure_label_nodes constr;; ensure_label_nodes destr) G
           = Ok (tt, G') ∧ ext label_op G G' ∧
           registered (pattern_labels constr ++ pattern_labels destr) G')
    as Hensure.
  { intros constr destr G.
    destruct (ensure_label_nodes_Ok constr G) as (G1 & Hrun1 & Hext1 & H1).
    destruct (ensure_label_nodes_Ok destr G1) as (G2 & Hrun2 & Hext2 & H2).
    exists G2. split_and!; [by erewrite bind_run_Ok|by eapply ext_trans|].
    intros l [Hl|Hl]%elem_of_app; [|by apply H2].
    eapply ext_has_node; [done|]. by apply H1. }
  split.
  - intros constr destr G.
    destruct (Hensure constr destr G) as (G' & Hrun & Hext & Hreg).
    exists G'. split; [done|]. intros l Hl. split; [by apply Hreg|].
    intros HG.
    destruct (ext_label_added _ _ (KLabel l) Hext) as [Hin|Ht]; [| |done].
    + apply has_node_true. by apply Hreg.
    + apply has_node_true in Hin. congruence.
  - intros net query k0. unfold mpls2graph.
    destruct (mpls2graph_body net query k0 empty_graph)
      as [[[] G']|e] eqn:E; [done|].
    intros [= ->]. unfold mpls2graph_body in E.
    apply bind_Raise in E as [E|(n2r & G1 & Hnet & E)].
    { pose proof (safe_encode_network [] net empty_graph
                    ltac:(by intros l ?%elem_of_nil)) as Hs.
      by rewrite E in Hs. }
    unfold encode_query in E.
    destruct (Hensure (getConstructing query) (getDestructing query) G1)
      as (G2 & Hrun & _ & Hreg).
    set (L := pattern_labels (getConstructing query)
              ++ pattern_labels (getDestructing query)) in *.
    apply bind_Raise in E as [E|([] & Ga & Ha & E)].
    { destruct (ensure_label_nodes_Ok (getConstructing query) G1)
        as (? & Hr & _). by rewrite Hr in E. }
    apply bind_Raise in E as [E|([] & Gb & Hb & E)].
    { destruct (ensure_label_nodes_Ok (getDestructing query) Ga)
        as (? & Hr & _). by rewrite Hr in E. }
    assert (Gb = G2) as ->.
    { erewrite bind_run_Ok in Hrun; [|done]. rewrite Hb in Hrun.
      by injection Hrun. }
    assert (safe L
      (G_add_node_attrs (KEnum NodeType.Query)
         {| ntype := Some NodeType.Query; nlabel := Some "query";
            k := Some k0 |};;
       last ← build_labels_graph_repr (Node (KEnum NodeType.Query))
                (getConstructing query);
       last ← for_each (encode_network_atom n2r) last (getNetwork query);
       build_labels_graph_repr last (getDestructing query);;
       (mret tt : M unit))) as Hsafe.
    { apply safe_bind; [apply safe_add_node_attrs|]. intros _.
      apply safe_bind.
      { apply safe_build_labels_graph_repr. intros l Hl.
        apply elem_of_app. by left. }
      intros l1. apply safe_bind.
      { apply safe_for_each. intros. apply safe_encode_network_atom. }
      intros l2. apply safe_bind; [|intros; apply safe_ret].
      apply safe_build_labels_graph_repr. intros l Hl.
      apply elem_of_app. by right. }
    specialize (Hsafe G2 Hreg). by rewrite E in Hsafe.
Qed.

(** ** The claims on the small network *)

Lemma primary_rule_nodes_witness :
  ∃ G, mpls2graph small_net query_branch 0 = Ok G ∧
       ∀ n, node_type G n = Some NodeType.Rule →
            ∃ rule, n = KRule rule ∧ primary small_net rule.
Proof.
  eexists. split; [vm_compute; reflexivity|].
  eapply proj1, proj2, (primary_rule_nodes small_net query_branch 0).
  vm_compute. reflexivity.
Defined.

Lemma rule_action_chain_witness :
  Forall known_action (model.actions rule_swap) ∧
  encode_rule R1 0 rule_swap empty_graph =
  Ok (tt, foldl apply_op empty_graph (rule_ops R1 0 rule_swap)).
Proof.
  assert (Forall known_action (model.actions rule_swap)) as Hk.
  { repeat constructor; vm_compute; discriminate. }
  split; [exact Hk|].
  exact (proj1 (proj1 (rule_action_chain small_net query_branch 0 R1 0
                         rule_swap empty_graph) Hk)).
Defined.

Lemma one_or_more_then_plain_witness :
  ∃ G', build_labels_graph_repr (Node (KEnum NodeType.Query))
          (Some [AQuantifiedAtom 3 atom_a AOneOrMoreQuantifier; atom_b])
          labels_graph
        = Ok (Nodes [KAtom atom_a; KAtom atom_b], G') ∧
        has_edge G' (KEnum NodeType.Query) (KAtom atom_a) = true ∧
        has_edge G' (KEnum NodeType.Query) (KAtom atom_b) = true ∧
        has_edge G' (KAtom atom_a) (KAtom atom_b) = false.
Proof.
  apply (one_or_more_then_plain (KEnum NodeType.Query) 3 1 "L1" 2 "L2"
           labels_graph);
    first [vm_compute; reflexivity|discriminate].
Defined.

Lemma unknown_router_placeholder_witness :
  ∃ n2r G1 G',
    encode_network small_net empty_graph = Ok (n2r, G1) ∧
    encode_network_atom n2r (Node (KStr "empty")) (ASimpleAtom 1 "R9") G1
    = Ok (Node (KAtom (ASimpleAtom 1 "R9")), G') ∧
    node_type G' (KStr "R9") = Some NodeType.Router.
Proof.
  destruct (encode_network small_net empty_graph) as [[n2r G1]|e] eqn:E;
    [|vm_compute in E; discriminate E].
  exists n2r, G1.
  destruct (unknown_router_placeholder small_net empty_graph n2r G1
              (Node (KStr "empty")) 1 "R9" G1 E) as (G' & Hrun & _ & Ht & _).
  - intros r Hr. vm_compute in Hr.
    apply elem_of_cons in Hr as [->|Hr]; [discriminate|].
    apply elem_of_cons in Hr as [->|Hr]; [discriminate|].
    apply elem_of_nil in Hr. destruct Hr.
  - exists G'. split; [reflexivity|]. split; [exact Hrun|exact Ht].
Defined.

Lemma label_pattern_zero_or_more_any_witness :
  ∃ s' G',
    build_labels_step
      {| lastnode := Node (KEnum NodeType.Query); par_nodes := [];
         lastatom := None; branch_next := false |}
      (AQuantifiedAtom 2 (AAnyAtom 3) AZeroOrMoreQuantifier) labels_graph
    = Ok (s', G') ∧
    node_type G' (KAtom (AQuantifiedAtom 2 (AAnyAtom 3) AZeroOrMoreQuantifier))
    = Some NodeType.ZeroOrMore.
Proof.
  destruct (proj1 (label_pattern_zero_or_more_any
              {| lastnode := Node (KEnum NodeType.Query); par_nodes := [];
                 lastatom := None; branch_next := false |} 2 3 labels_graph)
              eq_refl (KEnum NodeType.Query) eq_refl) as (G' & ? & ? & _).
  by eexists _, G'.
Defined.

(** The counterexamples to the claims as they were written. *)

Lemma one_or_more_then_plain_counterexample :
  ∃ G, mpls2graph small_net query_branch 0 = Ok G ∧
       has_edge G (KAtom atom_a) (KAtom atom_b) = false ∧
       incident G (KAtom atom_b) =
       [(KAtom atom_b, KLabel L2); (KEnum NodeType.Query, KAtom atom_b);
        (KAtom atom_b, KAtom (ASimpleAtom 4 "R1"))].
Proof. eexists. split_and!; vm_compute; reflexivity. Qed.

Lemma unknown_router_placeholder_counterexample :
  ∃ G, mpls2graph small_net query_unknown_router 0 = Ok G ∧
       node_type G (KStr "R9") = Some NodeType.Router ∧
       node_type G (KStr "R9") ≠ Some NodeType.Label.
Proof.
  eexists. split_and!; [vm_compute; reflexivity..|]. vm_compute. discriminate.
Qed.

Lemma label_pattern_zero_or_more_any_counterexample :
  mpls2graph small_net query_star_after_plain 0 =
  Raise (Exception "Case not covered by code").
Proof. vm_compute. reflexivity. Qed.

(** C9.  The constructing pattern is absent and the router path names the
    unknown router [empty]: the query node has one edge, to the node keyed
    "empty", but that node has type [Router] in the finished graph, because
    the placeholder of the router shares its key. *)
Theorem empty_sentinel_retagged :
  ∃ G, mpls2graph small_net query_router_named_empty 0 = Ok G ∧
       incident G (KEnum NodeType.Query)
       = [(KEnum NodeType.Query, KStr "empty")] ∧
       node_type G (KStr "empty") = Some NodeType.Router ∧
       node_label G (KStr "empty") = Some "empty".
Proof. eexists. split_and!; vm_compute; reflexivity. Qed.

(** * Further properties of the code *)

(** ** The graph is a simple graph *)

Lemma simple_graph_empty : simple_graph empty_graph.
Proof.
  split_and!; try apply NoDup_nil_2; intros u v Hin;
    by apply elem_of_nil in Hin.
Qed.

Lemma simple_graph_add_node n a G :
  simple_graph G → simple_graph (add_node n a G).
Proof.
  intros (Hk & He & Hnd & Hsym). unfold simple_graph.
  rewrite edges_add_node. split_and!; [|intros u v Huv|done|done].
  - rewrite keys_add_node. destruct (has_node G n) eqn:E; [done|].
    apply NoDup_app. split_and!; [done| |apply NoDup_singleton].
    intros x Hx ->%list_elem_of_singleton.
    apply has_node_true in Hx. congruence.
  - rewrite !elem_of_keys_add_node. destruct (He u v Huv). auto.
Qed.

Lemma simple_graph_touch n G : simple_graph G → simple_graph (touch n G).
Proof.
  intros HG. unfold touch. destruct (has_node G n) eqn:E; [done|].
  assert (touch n G = add_node n no_attrs G) as Heq.
  { unfold touch, add_node. by rewrite E. }
  unfold touch in Heq. rewrite E in Heq. rewrite Heq.
  by apply simple_graph_add_node.
Qed.

Lemma simple_graph_add_edge u v G :
  simple_graph G → simple_graph (add_edge u v G).
Proof.
  intros HG.
  assert (simple_graph (touch v (touch u G))) as (Hk & He & Hnd & Hsym)
    by (by do 2 apply simple_graph_touch).
  assert (u ∈ keys (touch v (touch u G)) ∧ v ∈ keys (touch v (touch u G)))
    as [Hu Hv].
  { rewrite !elem_of_keys_touch. auto. }
  unfold add_edge. cbn zeta.
  destruct (has_edge (touch v (touch u G)) u v) eqn:E; [done|].
  apply has_edge_false in E as [E1 E2].
  split_and!; cbn [nodes edges]; [done| | |].
  - intros x y [Hxy|[= -> ->]%list_elem_of_singleton]%elem_of_app;
      [by apply He|done].
  - apply NoDup_app. split_and!; [done| |apply NoDup_singleton].
    by intros e He' ->%list_elem_of_singleton.
  - intros x y Hin Hne. apply elem_of_app in Hin as [Hxy|Hxy].
    + intros [Hyx|Heq%list_elem_of_singleton]%elem_of_app;
        [by eapply Hsym|].
      injection Heq as -> ->. done.
    + apply list_elem_of_singleton in Hxy. injection Hxy as -> ->.
      intros [Hyx|Heq%list_elem_of_singleton]%elem_of_app; [done|].
      injection Heq as -> _. done.
Qed.

Lemma ext_simple_graph Φ G G' :
  ext Φ G G' → simple_graph G → simple_graph G'.
Proof.
  intros H HG. induction H as [|G' [n a|u v] _ IH _]; [done| |]; cbn.
  - by apply simple_graph_add_node.
  - by apply simple_graph_add_edge.
Qed.

(** What the container keeps holds of the graphs [mpls2graph] returns. *)
Lemma mpls2graph_simple_graph net q k0 G :
  mpls2graph net q k0 = Ok G → simple_graph G.
Proof.
  intros Hrun. eapply ext_simple_graph; [|apply simple_graph_empty].
  by eapply mpls2graph_issued.
Qed.

(** ** Topology and labels *)

Lemma elem_of_concat {A} (x : A) (ls : list (list A)) :
  x ∈ concat ls ↔ ∃ l, x ∈ l ∧ l ∈ ls.
Proof.
  induction ls as [|l ls IH]; cbn [concat].
  - split; [by intros ?%elem_of_nil|]. by intros (? & _ & ?%elem_of_nil).
  - rewrite elem_of_app, IH. split.
    + intros [?|(l' & ? & ?)]; [exists l|exists l']; split; auto;
        apply elem_of_cons; auto.
    + intros (l' & ? & [->|?]%elem_of_cons); eauto.
Qed.

Lemma run_interfaces rtr ifaces : ∀ G,
  for_each (λ (_ : unit) iface,
      G_add_node (KInterface iface) NodeType.Interface
        ("intf:" +:+ model.rtr_name rtr +:+ ":" +:+ model.iface_name iface);;
      G_add_edge (KRouter rtr) (KInterface iface)) tt ifaces G =
  Ok (tt, foldl apply_op G (concat (interface_ops rtr <$> ifaces))).
Proof.
  induction ifaces as [|iface ifaces IH]; intros G; [done|].
  cbn [for_each fmap list_fmap concat].
  erewrite bind_run_Ok.
  2:{ erewrite bind_run_Ok; [|apply run_add_node]. apply run_add_edge. }
  rewrite foldl_app. apply IH.
Qed.

Lemma run_encode_router m rtr G :
  encode_router m rtr G =
  Ok (<[model.rtr_name rtr := rtr]> m, foldl apply_op G (router_ops rtr)).
Proof.
  unfold encode_router, router_ops.
  erewrite bind_run_Ok; [|apply run_add_node].
  erewrite bind_run_Ok; [|apply run_interfaces]. apply run_ret.
Qed.

Lemma run_links lnks : ∀ G,
  for_each encode_link tt lnks G =
  Ok (tt, foldl apply_op G (link_op <$> lnks)).
Proof.
  induction lnks as [|lnk lnks IH]; intros G; [done|].
  cbn [for_each]. erewrite bind_run_Ok; [|apply run_add_edge]. apply IH.
Qed.

Lemma run_label_nodes lbls : ∀ G,
  for_each (λ (_ : unit) lbl,
      G_add_node (KLabel lbl) NodeType.Label ("label:" +:+ model.name lbl))
    tt lbls G =
  Ok (tt, foldl apply_op G (label_node_op <$> lbls)).
Proof.
  induction lbls as [|lbl lbls IH]; intros G; [done|].
  cbn [for_each]. erewrite bind_run_Ok; [|apply run_add_node]. apply IH.
Qed.

Lemma run_encode_labels lbls G :
  encode_labels lbls G = Ok (tt, foldl apply_op G (labels_ops lbls)).
Proof.
  unfold encode_labels, labels_ops.
  erewrite bind_run_Ok; [|apply run_add_node]. apply run_label_nodes.
Qed.

(** The stages of [encode_network], with the graphs between them. *)
Lemma encode_network_stages net G0 n2r G1 :
  encode_network net G0 = Ok (n2r, G1) →
  ∃ Ga Gb Gc,
    for_each encode_router ∅ (model.routers (model.topology net)) G0
      = Ok (n2r, Ga) ∧
    Gb = foldl apply_op Ga (link_op <$> model.links (model.topology net)) ∧
    Gc = foldl apply_op Gb
           (labels_ops (model.collect_labels (model.routing net))) ∧
    for_each encode_table tt (model.routingTables (model.routing net)) Gc
      = Ok (tt, G1) ∧
    ext (issued net) Ga Gb ∧ ext (issued net) Gb Gc ∧ ext (issued net) Gc G1.
Proof.
  unfold encode_network. intros H.
  apply bind_Ok in H as (m & Ga & Hm & H).
  erewrite bind_run_Ok in H; [|apply run_links].
  erewrite bind_run_Ok in H; [|apply run_encode_labels].
  apply bind_Ok in H as ([] & Gd & Ht & H).
  assert (m = n2r ∧ Gd = G1) as [-> ->] by (by injection H).
  eexists Ga, _, _. split_and!; [done..| | |].
  - pose proof (writes_for_each (issued net) encode_link (λ _, True)
      (model.links (model.topology net)) tt
      (λ s x _ _, writes_encode_link net s x) I Ga) as Hw.
    rewrite run_links in Hw. apply Hw.
  - pose proof (writes_encode_labels net
      (model.collect_labels (model.routing net))
      (foldl apply_op Ga (link_op <$> model.links (model.topology net))))
      as Hw.
    rewrite run_encode_labels in Hw. apply Hw.
  - pose proof (writes_for_each (issued net) encode_table (λ _, True)
      (model.routingTables (model.routing net)) tt
      (λ s x _ Hx, writes_encode_table net s x Hx) I) as Hw.
    eapply writes_run in Hw; [|done]. apply Hw.
Qed.

Lemma mpls2graph_stages net q k0 G :
  mpls2graph net q k0 = Ok G →
  ∃ n2r G1, encode_network net empty_graph = Ok (n2r, G1) ∧
            encode_query n2r q k0 G1 = Ok (tt, G) ∧
            ext (issued net) G1 G.
Proof.
  intros (n2r & G1 & Hnet & Hq)%mpls2graph_Ok.
  exists n2r, G1. split_and!; [done..|].
  by destruct (writes_run _ _ _ _ _ _ (writes_encode_query net n2r q k0) Hq).
Qed.

Lemma issued_router_node net r a :
  issued net (AddNode (KRouter r) a) → ntype a = Some NodeType.Router.
Proof. inversion 1; subst; try done. Qed.

Lemma issued_interface_node net i a :
  issued net (AddNode (KInterface i) a) → ntype a = Some NodeType.Interface.
Proof. inversion 1; subst; try done. Qed.

Lemma issued_interface_type net n a :
  issued net (AddNode n a) → ntype a = Some NodeType.Interface →
  ∃ i, n = KInterface i.
Proof.
  inversion 1 as [| | | | | | | |x ? ? Hx| | | |? ? ? Hq|]; subst;
    intros Ht; try congruence; [eauto| |].
  - rewrite Ht in Hx. by destruct x.
  - rewrite Ht in Hq. unfold is_query_type in Hq. set_solver.
Qed.

Lemma ext_issued_typed net G G' n t :
  ext (issued net) G G' → node_type G' n = Some t →
  match n with
  | KRouter _ => node_type G n = Some t ∨ t = NodeType.Router
  | KInterface _ => node_type G n = Some t ∨ t = NodeType.Interface
  | KLabel _ => node_type G n = Some t ∨ t = NodeType.Label
  | KRule _ => node_type G n = Some t ∨ t = NodeType.Rule
  | _ => True
  end.
Proof.
  intros Hext Ht.
  apply (ext_type_origin _ _ _ _ _ Hext) in Ht as [Ht|(a & Ha & Ht)].
  { destruct n; auto. }
  destruct n; try done; right.
  - apply issued_router_node in Ha. congruence.
  - apply issued_interface_node in Ha. congruence.
  - inversion Ha; subst; try done; congruence.
  - apply issued_rule_node in Ha as [_ Ha]. congruence.
Qed.

(** X2.  In every graph [mpls2graph] returns, each router of the topology is
    a node of type [Router], each of its interfaces is a node of type
    [Interface] with an edge to the router, and the two interfaces of each
    link have an edge.  A node of type [Interface] is an interface, and
    router and interface nodes have no other type. *)
Theorem topology_encoded net q k0 G :
  mpls2graph net q k0 = Ok G →
  (∀ rtr, rtr ∈ model.routers (model.topology net) →
     node_type G (KRouter rtr) = Some NodeType.Router ∧
     ∀ iface, iface ∈ model.interfaces rtr →
       node_type G (KInterface iface) = Some NodeType.Interface ∧
       has_edge G (KRouter rtr) (KInterface iface) = true) ∧
  (∀ lnk, lnk ∈ model.links (model.topology net) →
     has_edge G (KInterface (model.interface (model.lnk_from_ lnk)))
                (KInterface (model.interface (model.lnk_to lnk))) = true) ∧
  (∀ n, node_type G n = Some NodeType.Interface → ∃ i, n = KInterface i) ∧
  (∀ r t, node_type G (KRouter r) = Some t → t = NodeType.Router) ∧
  (∀ i t, node_type G (KInterface i) = Some t → t = NodeType.Interface).
Proof.
  intros Hrun. pose proof (mpls2graph_issued _ _ _ _ Hrun) as Hext.
  destruct (mpls2graph_stages _ _ _ _ Hrun) as (n2r & G1 & Hnet & _ & HG1).
  destruct (encode_network_stages _ _ _ _ Hnet)
    as (Ga & Gb & Gc & Hrouters & -> & -> & _ & Hab & Hbc & Hc1).
  assert (ext (issued net) Ga G) as HaG by eauto using ext_trans.
  split_and!.
  - intros rtr Hrtr.
    destruct (for_each_elem (issued net) (λ _, True) encode_router _ rtr
                (λ s y _ _, writes_conseq _ _ _ _
                   (writes_encode_router net s y) (λ _ _, I)) Hrtr
                _ _ _ _ I Hrouters)
      as (m1 & Gr & m2 & Gr' & _ & _ & Hr & Hext').
    rewrite run_encode_router in Hr. injection Hr as _ <-.
    assert (ext (issued net) (foldl apply_op Gr (router_ops rtr)) G) as HrG
      by eauto using ext_trans.
    split.
    + eapply ext_type_stable; [|done|].
      * intros a ->%issued_router_node. by left.
      * apply foldl_node_type; [eexists; by left|].
        intros a Ha. unfold router_ops in Ha.
        apply elem_of_cons in Ha as [Heq|Ha]; [by injection Heq as ->|].
        apply elem_of_concat in Ha as (ops & Ha & Hops).
        apply list_elem_of_fmap in Hops as (iface & -> & _).
        unfold interface_ops in Ha. set_solver.
    + intros iface Hiface.
      assert (∀ o, o ∈ interface_ops rtr iface → o ∈ router_ops rtr) as Hin.
      { intros o Ho. unfold router_ops. right. apply elem_of_concat.
        exists (interface_ops rtr iface). split; [done|].
        by apply list_elem_of_fmap_2. }
      split.
      * eapply ext_type_stable; [|done|].
        -- intros a ->%issued_interface_node. by left.
        -- apply foldl_node_type; [eexists; apply Hin; by left|].
           intros a Ha. unfold router_ops in Ha.
           apply elem_of_cons in Ha as [Heq|Ha]; [done|].
           apply elem_of_concat in Ha as (ops & Ha & Hops).
           apply list_elem_of_fmap in Hops as (iface' & -> & _).
           unfold interface_ops in Ha.
           apply elem_of_cons in Ha as [Heq|Ha]; [|set_solver].
           by injection Heq as _ ->.
      * eapply ext_has_edge; [done|]. apply foldl_has_edge, Hin.
        unfold interface_ops. set_solver.
  - intros lnk Hlnk.
    eapply ext_has_edge;
      [exact (ext_trans _ _ _ _ Hbc (ext_trans _ _ _ _ Hc1 HG1))|].
    apply foldl_has_edge. by apply (list_elem_of_fmap_2 link_op).
  - intros n Hn.
    apply (ext_type_origin _ _ _ _ _ Hext) in Hn as [Hn|(a & Ha & Ht)];
      [by rewrite node_type_empty in Hn|].
    by eapply issued_interface_type.
  - intros r t Ht.
    by destruct (ext_issued_typed _ _ _ (KRouter r) _ Hext Ht).
  - intros i t Ht.
    by destruct (ext_issued_typed _ _ _ (KInterface i) _ Hext Ht).
Qed.

Lemma topology_encoded_witness :
  ∃ G, mpls2graph small_net query_branch 0 = Ok G ∧
       ∀ n, node_type G n = Some NodeType.Interface → ∃ i, n = KInterface i.
Proof.
  eexists. split; [vm_compute; reflexivity|].
  eapply proj1, proj2, proj2, (topology_encoded small_net query_branch 0).
  vm_compute. reflexivity.
Defined.

Lemma encode_query_registered n2r q k0 G1 G :
  encode_query n2r q k0 G1 = Ok (tt, G) →
  registered (pattern_labels (getConstructing q)
              ++ pattern_labels (getDestructing q)) G.
Proof.
  intros H. unfold encode_query in H.
  set (L := pattern_labels (getConstructing q)
            ++ pattern_labels (getDestructing q)).
  destruct (ensure_label_nodes_Ok (getConstructing q) G1)
    as (Ga & Hrun1 & Hext1 & H1).
  destruct (ensure_label_nodes_Ok (getDestructing q) Ga)
    as (Gb & Hrun2 & Hext2 & H2).
  erewrite bind_run_Ok in H; [|done]. erewrite bind_run_Ok in H; [|done].
  assert (registered L Gb) as Hreg.
  { intros l [Hl|Hl]%elem_of_app; [|by apply H2].
    eapply ext_has_node; [done|]. by apply H1. }
  assert (safe L
    (G_add_node_attrs (KEnum NodeType.Query)
       {| ntype := Some NodeType.Query; nlabel := Some "query";
          k := Some k0 |};;
     last ← build_labels_graph_repr (Node (KEnum NodeType.Query))
              (getConstructing q);
     last ← for_each (encode_network_atom n2r) last (getNetwork q);
     build_labels_graph_repr last (getDestructing q);;
     (mret tt : M unit))) as Hsafe.
  { apply safe_bind; [apply safe_add_node_attrs|]. intros _.
    apply safe_bind.
    { apply safe_build_labels_graph_repr. intros l Hl.
      apply elem_of_app. by left. }
    intros l1. apply safe_bind.
    { apply safe_for_each. intros. apply safe_encode_network_atom. }
    intros l2. apply safe_bind; [|intros; apply safe_ret].
    apply safe_build_labels_graph_repr. intros l Hl.
    apply elem_of_app. by right. }
  specialize (Hsafe Gb Hreg). by rewrite H in Hsafe.
Qed.

(** X3.  In every graph [mpls2graph] returns, the sentinel "no label" and
    every label that [collect_labels] gave are nodes of type [Label], every
    label a plain or quantified plain atom of the two label patterns names is
    a node, and no label node has a type other than [Label]. *)
Theorem label_universe net q k0 G :
  mpls2graph net q k0 = Ok G →
  node_type G (KLabel model.NoLabel) = Some NodeType.Label ∧
  (∀ l, l ∈ model.collect_labels (model.routing net) →
        node_type G (KLabel l) = Some NodeType.Label) ∧
  (∀ l, l ∈ pattern_labels (getConstructing q)
            ++ pattern_labels (getDestructing q) →
        KLabel l ∈ keys G) ∧
  (∀ l t, node_type G (KLabel l) = Some t → t = NodeType.Label).
Proof.
  intros Hrun. pose proof (mpls2graph_issued _ _ _ _ Hrun) as Hext.
  destruct (mpls2graph_stages _ _ _ _ Hrun) as (n2r & G1 & Hnet & Hq & HG1).
  destruct (encode_network_stages _ _ _ _ Hnet)
    as (Ga & Gb & Gc & _ & -> & -> & _ & _ & _ & Hc1).
  assert (∀ l,
    (∃ a, AddNode (KLabel l) a
          ∈ labels_ops (model.collect_labels (model.routing net))) →
    node_type G (KLabel l) = Some NodeType.Label) as Hlbl.
  { intros l Hin. eapply ext_type_stable;
      [|exact (ext_trans _ _ _ _ Hc1 HG1)|].
    - intros a Ha. left. inversion Ha; subst; try done.
    - apply foldl_node_type; [done|].
      intros a Ha. unfold labels_ops in Ha.
      apply elem_of_cons in Ha as [Heq|Ha]; [by injection Heq as _ ->|].
      apply list_elem_of_fmap in Ha as (l' & Heq & _).
      unfold label_node_op in Heq. by injection Heq as _ ->. }
  split_and!.
  - apply Hlbl. eexists. unfold labels_ops. by left.
  - intros l Hl. apply Hlbl. eexists. unfold labels_ops. right.
    by apply (list_elem_of_fmap_2 label_node_op).
  - intros l Hl. apply has_node_true.
    by apply (encode_query_registered _ _ _ _ _ Hq).
  - intros l t Ht.
    by destruct (ext_issued_typed _ _ _ (KLabel l) _ Hext Ht).
Qed.

Lemma label_universe_witness :
  ∃ G, mpls2graph small_net query_branch 0 = Ok G ∧
       node_type G (KLabel model.NoLabel) = Some NodeType.Label.
Proof.
  eexists. split; [vm_compute; reflexivity|].
  eapply proj1, (label_universe small_net query_branch 0).
  vm_compute. reflexivity.
Defined.

(** ** Router names and the router path *)

Lemma for_each_encode_router_lookup l : ∀ m G m' G' name,
  for_each encode_router m l G = Ok (m', G') →
  m' !! name = match router_named name l with
               | Some r => Some r
               | None => m !! name
               end.
Proof.
  unfold router_named.
  induction l as [|r l IH]; intros m G m' G' name Hrun.
  - by injection Hrun as <- <-.
  - cbn [for_each] in Hrun.
    erewrite bind_run_Ok in Hrun; [|apply run_encode_router].
    rewrite (IH _ _ _ _ name Hrun), filter_cons.
    destruct (decide (model.rtr_name r = name)) as [Hr|Hr].
    + rewrite last_cons.
      destruct (last (filter _ l)); [done|].
      by rewrite Hr, lookup_insert_eq.
    + destruct (last (filter _ l)); [done|].
      by rewrite lookup_insert_ne.
Qed.

(** X4.  [name2router] maps a name to the last router of the topology with
    that name, and to nothing when there is none.  For a plain atom of the
    router path whose name it maps to a router, the encoder returns, types
    the atom's node [QueryAtom], links every node of [last] to it and links
    it to that router's node, whose type it leaves as it was. *)
Theorem known_router_atom net G0 n2r G1 :
  encode_network net G0 = Ok (n2r, G1) →
  (∀ name, n2r !! name
           = router_named name (model.routers (model.topology net))) ∧
  (∀ r l id symb G,
     n2r !! strip symb = Some r →
     let atom := ASimpleAtom id symb in
     ∃ G', encode_network_atom n2r l atom G = Ok (Node (KAtom atom), G') ∧
           node_type G' (KAtom atom) = Some NodeType.QueryAtom ∧
           (∀ n, n ∈ nodes_of l → has_edge G' n (KAtom atom) = true) ∧
           has_edge G' (KAtom atom) (KRouter r) = true ∧
           node_type G' (KRouter r) = node_type G (KRouter r)).
Proof.
  intros Hnet.
  destruct (encode_network_stages _ _ _ _ Hnet) as (Ga & _ & _ & Hr & _).
  split.
  - intros name. rewrite (for_each_encode_router_lookup _ _ _ _ _ name Hr).
    destruct (router_named _ _); [done|apply lookup_empty].
  - intros r l id symb G Hlook atom. subst atom. eexists. split_and!.
    + cbn [encode_network_atom]. rewrite Hlook.
      erewrite bind_run_Ok; [|apply run_add_node].
      erewrite bind_run_Ok; [|apply run_ret].
      erewrite bind_run_Ok; [|apply run_edges_from_last].
      erewrite bind_run_Ok; [|apply run_add_edge]. apply run_ret.
    + rewrite node_type_add_edge, foldl_edges_node_type, node_type_add_node.
      by destruct (decide (_ = _)).
    + intros n Hn. rewrite has_edge_add_edge. apply orb_true_iff. left.
      by apply edges_from_last_has_edge.
    + apply has_edge_add_edge_same.
    + rewrite node_type_add_edge, foldl_edges_node_type, node_type_add_node.
      by destruct (decide (_ = _)).
Qed.

Lemma known_router_atom_witness :
  ∃ n2r G1, encode_network small_net empty_graph = Ok (n2r, G1) ∧
            n2r !! "R1" = Some R1.
Proof.
  destruct (encode_network small_net empty_graph) as [[n2r G1]|e] eqn:E;
    [|vm_compute in E; discriminate E].
  exists n2r, G1. split; [reflexivity|].
  rewrite (proj1 (known_router_atom small_net empty_graph n2r G1 E) "R1").
  vm_compute. reflexivity.
Defined.

Lemma encode_network_atom_unsupported n2r l atom :
  ¬ supported_network_atom atom →
  always_raises (encode_network_atom n2r l atom).
Proof.
  intros Hs. destruct atom as [? ?| ? |? inner q| ?]; cbn in Hs; try done.
  - cbn [encode_network_atom]. apply always_raises_bind_l.
    destruct q, inner; first [by destruct Hs|apply always_raises_raise].
  - apply always_raises_raise.
Qed.

Lemma for_each_network_total n2r atoms : ∀ l G,
  Forall supported_network_atom atoms →
  ∃ l' G', for_each (encode_network_atom n2r) l atoms G = Ok (l', G').
Proof.
  induction atoms as [|a atoms IH]; intros l G Hs; [by eexists _, _|].
  apply Forall_cons in Hs as [Ha Hs].
  destruct (encode_network_atom_total n2r l a G Ha) as [G1 H1].
  destruct (IH (Node (KAtom a)) G1 Hs) as (l' & G' & H').
  exists l', G'. cbn [for_each]. by erewrite bind_run_Ok.
Qed.

(** X5.  The loop over the router path returns exactly when every atom is a
    plain atom, an "any" atom, or an "any" atom quantified by zero-or-more or
    one-or-more; one atom of another form makes the loop raise whatever comes
    before it, and [mpls2graph] with it. *)
Theorem router_path_supported (n2r : gmap string model.Router) atoms :
  (∀ l G, (∃ l' G', for_each (encode_network_atom n2r) l atoms G
                    = Ok (l', G'))
          ↔ Forall supported_network_atom atoms) ∧
  (∀ net q k0, getNetwork q = atoms →
               ¬ Forall supported_network_atom atoms →
               ∃ e, mpls2graph net q k0 = Raise e).
Proof.
  assert (∀ m, ¬ Forall supported_network_atom atoms →
    ∀ l, always_raises (for_each (encode_network_atom m) l atoms)) as Hbad.
  { intros m (a & Ha & Hs)%not_Forall_Exists%Exists_exists; [|apply _].
    intros l. apply always_raises_for_each with (x := a); [done|].
    intros l'. by apply encode_network_atom_unsupported. }
  split.
  - intros l G. split; [|apply for_each_network_total].
    intros (l' & G' & Hrun).
    destruct (decide (Forall supported_network_atom atoms)) as [|Hn]; [done|].
    destruct (Hbad n2r Hn l G) as [e He]. congruence.
  - intros net q k0 Hq Hn.
    assert (always_raises (mpls2graph_body net q k0)) as Hraise.
    { unfold mpls2graph_body. apply always_raises_bind_r. intros m.
      unfold encode_query.
      apply always_raises_bind_r. intros _.
      apply always_raises_bind_r. intros _.
      apply always_raises_bind_r. intros _.
      apply always_raises_bind_r. intros l1.
      apply always_raises_bind_l. rewrite Hq. by apply Hbad. }
    unfold mpls2graph. destruct (Hraise empty_graph) as [e ->]. eauto.
Qed.

Lemma router_path_supported_witness :
  ∃ e, mpls2graph small_net
         {| getConstructing := None; getNetwork := [AOtherAtom 1];
            getDestructing := None |} 0 = Raise e.
Proof.
  apply (proj2 (router_path_supported ∅ [AOtherAtom 1]) small_net
           {| getConstructing := None; getNetwork := [AOtherAtom 1];
              getDestructing := None |} 0%Z eq_refl).
  intros H. apply Forall_cons in H as [H _]. exact H.
Defined.

(** X6.  A destination without a traffic-engineering group, or whose first
    group has no rule, makes the step of the loop over the destinations
    raise [IndexError] on every graph; a model that holds such a destination
    makes [mpls2graph] raise. *)
Theorem destination_without_rule net e dest :
  primary_of dest = None →
  (∀ i G, encode_destination e.1 i dest G = Raise IndexError) ∧
  (e ∈ model.routingTables (model.routing net) →
   dest ∈ model.destinations e.2 →
   ∀ q k0, ∃ err, mpls2graph net q k0 = Raise err).
Proof.
  intros Hp.
  assert (∀ i G, encode_destination e.1 i dest G = Raise IndexError) as Hd.
  { intros i G. unfold encode_destination, primary_of in *.
    destruct (model.te_groups dest) as [|g gs]; [done|].
    by destruct (model.rules g). }
  split; [done|]. intros He Hdest q k0.
  assert (always_raises (mpls2graph_body net q k0)) as Hraise.
  { unfold mpls2graph_body. apply always_raises_bind_l.
    unfold encode_network. apply always_raises_bind_r. intros n2r.
    apply always_raises_bind_r. intros _.
    apply always_raises_bind_r. intros _.
    apply always_raises_bind_l.
    apply always_raises_for_each with (x := e); [done|]. intros [].
    unfold encode_table. apply always_raises_bind_l.
    apply always_raises_for_each with (x := dest); [done|]. intros i G.
    rewrite Hd. eauto. }
  unfold mpls2graph. destruct (Hraise empty_graph) as [err ->]. eauto.
Qed.

Lemma destination_without_rule_witness :
  encode_destination R1 0 {| model.te_groups := [] |} empty_graph
  = Raise IndexError.
Proof.
  exact (proj1 (destination_without_rule small_net
                  (R1, {| model.destinations := [] |})
                  {| model.te_groups := [] |} eq_refl) 0%nat empty_graph).
Defined.

(** ** The label-pattern encoder: single atoms and the absent pattern *)

Lemma node_label_add_edge_add_node u v n a G :
  node_label (add_edge u v (add_node n a G)) n =
  match nlabel a with Some t => Some t | None => node_label G n end.
Proof.
  rewrite node_label_add_edge, node_label_add_node.
  by destruct (decide (n = n)).
Qed.

(** X7.  [atom_label_to_node] on a plain label atom whose label is a node
    returns the atom as a node of type [QueryAtom] with an edge to the label;
    when the label is no node it raises [AssertionError].  On an "any" atom
    it returns the atom as a node of type [Label] shown as "atom:any" and adds
    no edge.  On every other atom it raises "Unknown atom type". *)
Theorem atom_label_to_node_outcomes G :
  (∀ id symb,
     let atom := ASimpleAtom id symb in
     let lbl := label_of_symbol symb in
     (has_node G (KLabel lbl) = true →
      ∃ G', atom_label_to_node atom G = Ok (KAtom atom, G') ∧
            node_type G' (KAtom atom) = Some NodeType.QueryAtom ∧
            node_label G' (KAtom atom)
            = Some ("atom:label:" +:+ model.name lbl) ∧
            has_edge G' (KAtom atom) (KLabel lbl) = true) ∧
     (has_node G (KLabel lbl) = false →
      atom_label_to_node atom G = Raise AssertionError)) ∧
  (∀ id,
     let atom := AAnyAtom id in
     ∃ G', atom_label_to_node atom G = Ok (KAtom atom, G') ∧
           node_type G' (KAtom atom) = Some NodeType.Label ∧
           node_label G' (KAtom atom) = Some "atom:any" ∧
           edges G' = edges G) ∧
  (∀ atom,
     match atom with
     | ASimpleAtom _ _ | AAnyAtom _ => True
     | _ => atom_label_to_node atom G = Raise (Exception "Unknown atom type")
     end).
Proof.
  split_and!.
  - intros id symb atom lbl. subst atom lbl. split.
    + intros Hl. eexists. split_and!.
      * by apply run_atom_label_simple.
      * apply node_type_add_edge_add_node.
      * apply node_label_add_edge_add_node.
      * apply has_edge_add_edge_same.
    + apply run_atom_label_unregistered.
  - intros id atom. subst atom. eexists. split_and!.
    + cbn [atom_label_to_node].
      erewrite bind_run_Ok; [|apply run_add_node]. apply run_ret.
    + rewrite node_type_add_node. by destruct (decide (_ = _)).
    + rewrite node_label_add_node. by destruct (decide (_ = _)).
    + apply edges_add_node.
  - by intros [].
Qed.

Lemma build_labels_step_from_list l atom G :
  ∃ e, build_labels_step
         {| lastnode := Nodes l; par_nodes := [];
            lastatom := None; branch_next := false |} atom G = Raise e.
Proof.
  assert (∀ a, always_raises
    (build_labels_plain
       {| lastnode := Nodes l; par_nodes := [];
          lastatom := None; branch_next := false |} a)) as Hplain.
  { intros a. unfold build_labels_plain. apply always_raises_bind_r.
    intros node. cbn. apply always_raises_bind_l, always_raises_raise. }
  destruct atom as [? ?| ? |id inner q| ?]; cbn [build_labels_step];
    try apply Hplain.
  cbn [is_ASimpleAtom lastatom].
  assert (∀ t lbl, always_raises
    (build_labels_any
       {| lastnode := Nodes l; par_nodes := [];
          lastatom := None; branch_next := false |}
       (AQuantifiedAtom id inner q) t lbl)) as Hany.
  { intros. unfold build_labels_any. apply always_raises_bind_r. intros _.
    apply always_raises_bind_l, always_raises_raise. }
  assert (always_raises
    (build_labels_branch
       {| lastnode := Nodes l; par_nodes := [];
          lastatom := None; branch_next := false |}
       (AQuantifiedAtom id inner q) inner)) as Hbranch.
  { unfold build_labels_branch. apply always_raises_bind_r. intros node.
    apply always_raises_bind_l, always_raises_raise. }
  destruct q, inner;
    first [apply always_raises_raise|apply Hany|apply Hbranch].
Qed.

(** X8.  For an absent pattern the encoder creates the node "empty" of type
    [Label], shown as "label:empty", links the start node to it and returns
    it.  When the start value is a list of nodes, as after a router path
    without atoms, the absent pattern raises [TypeError], a pattern without
    atoms returns the list unchanged, and a pattern with an atom raises. *)
Theorem build_labels_absent_or_list_start G :
  (∀ n, ∃ G', build_labels_graph_repr (Node n) None G
              = Ok (Node (KStr "empty"), G') ∧
              node_type G' (KStr "empty") = Some NodeType.Label ∧
              node_label G' (KStr "empty") = Some "label:empty" ∧
              has_edge G' n (KStr "empty") = true) ∧
  (∀ l, build_labels_graph_repr (Nodes l) None G = Raise TypeError) ∧
  (∀ l, build_labels_graph_repr (Nodes l) (Some []) G = Ok (Nodes l, G)) ∧
  (∀ l atom atoms,
     ∃ e, build_labels_graph_repr (Nodes l) (Some (atom :: atoms)) G
          = Raise e).
Proof.
  split_and!.
  - intros n. eexists. split_and!.
    + cbn [build_labels_graph_repr G_add_edge_from].
      erewrite bind_run_Ok; [|apply run_add_node].
      erewrite bind_run_Ok; [|apply run_add_edge]. apply run_ret.
    + rewrite node_type_add_edge, node_type_add_node.
      by destruct (decide (_ = _)).
    + rewrite node_label_add_edge, node_label_add_node.
      by destruct (decide (_ = _)).
    + apply has_edge_add_edge_same.
  - intros l. cbn [build_labels_graph_repr].
    erewrite bind_run_Ok; [|apply run_add_node]. done.
  - done.
  - intros l atom atoms. cbn [build_labels_graph_repr for_each].
    destruct (build_labels_step_from_list l atom G) as [e He].
    exists e. apply bind_run_Raise. by apply bind_run_Raise.
Qed.

(** ** The label-pattern encoder: chains and merges *)

Lemma atom_label_to_node_plain L atom G :
  plain_atom atom → registered L G →
  (∀ l, named_label atom = Some l → l ∈ L) →
  ∃ G', atom_label_to_node atom G = Ok (KAtom atom, G') ∧
        registered L G' ∧
        (∀ u v, has_edge G u v = true → has_edge G' u v = true).
Proof.
  intros Hp HL Hl. destruct atom as [id symb|id| |]; try done.
  - eexists. split_and!.
    + apply run_atom_label_simple. apply HL, Hl. done.
    + intros l Hin. by apply has_node_add_edge, has_node_add_node, HL.
    + intros u v Huv. rewrite has_edge_add_edge, has_edge_add_node, Huv. done.
  - eexists. split_and!.
    + cbn [atom_label_to_node].
      erewrite bind_run_Ok; [|apply run_add_node]. apply run_ret.
    + intros l Hin. by apply has_node_add_node, HL.
    + intros u v Huv. by rewrite has_edge_add_node.
Qed.

Lemma build_labels_chain_step L m prev atom G :
  plain_atom atom → registered L G →
  (∀ l, named_label atom = Some l → l ∈ L) →
  ∃ G', build_labels_step (chain_state m prev) atom G
        = Ok (chain_state (KAtom atom) (Some atom), G') ∧
        registered L G' ∧
        has_edge G' m (KAtom atom) = true ∧
        (∀ u v, has_edge G u v = true → has_edge G' u v = true).
Proof.
  intros Hp HL Hl.
  destruct (atom_label_to_node_plain L atom G Hp HL Hl)
    as (G1 & Hrun & HL1 & Hmono).
  exists (add_edge m (KAtom atom) G1). split_and!.
  - assert (build_labels_step (chain_state m prev) atom
            = build_labels_plain (chain_state m prev) atom) as ->
      by (by destruct atom).
    unfold build_labels_plain. erewrite bind_run_Ok; [|done].
    cbn [chain_state branch_next par_nodes lastnode length bool_decide
         G_add_edge_from].
    rewrite bool_decide_eq_false_2 by (cbn; lia).
    erewrite bind_run_Ok; [|apply run_add_edge]. apply run_ret.
  - intros l Hin. by apply has_node_add_edge, HL1.
  - apply has_edge_add_edge_same.
  - intros u v Huv. rewrite has_edge_add_edge, Hmono; done.
Qed.

Lemma build_labels_chain L atoms : ∀ m prev G,
  Forall plain_atom atoms → registered L G →
  (∀ atom l, atom ∈ atoms → named_label atom = Some l → l ∈ L) →
  ∃ G', for_each build_labels_step (chain_state m prev) atoms G
        = Ok (chain_state (List.last (KAtom <$> atoms) m)
                (match last atoms with Some a => Some a | None => prev end),
              G') ∧
        (∀ u v, (u, v) ∈ path_edges (m :: (KAtom <$> atoms)) →
                has_edge G' u v = true) ∧
        (∀ u v, has_edge G u v = true → has_edge G' u v = true).
Proof.
  induction atoms as [|a atoms IH]; intros m prev G Hp HL Hl.
  { exists G. split_and!; [done| |done]. by intros u v ?%elem_of_nil. }
  apply Forall_cons in Hp as [Ha Hp].
  destruct (build_labels_chain_step L m prev a G Ha HL)
    as (G1 & Hrun1 & HL1 & Hedge & Hmono1).
  { intros l. apply Hl. by left. }
  destruct (IH (KAtom a) (Some a) G1 Hp HL1) as (G' & Hrun & Hpath & Hmono).
  { intros atom l Hin. apply Hl. by right. }
  exists G'. split_and!.
  - cbn [for_each]. erewrite bind_run_Ok; [|done]. rewrite Hrun.
    rewrite fmap_cons, last_cons_default. do 3 f_equal.
    rewrite last_cons. by destruct (last atoms).
  - intros u v Huv. rewrite fmap_cons in Huv.
    change (path_edges (m :: KAtom a :: (KAtom <$> atoms)))
      with ((m, KAtom a) :: path_edges (KAtom a :: (KAtom <$> atoms))) in Huv.
    apply elem_of_cons in Huv as [[= -> ->]|Huv]; [by apply Hmono|].
    by apply Hpath.
  - intros u v Huv. by apply Hmono, Hmono1.
Qed.

(** X9.  A pattern of plain atoms ("any" atoms and label atoms whose labels
    are nodes) becomes a path: the encoder returns the node of the last atom
    (the start node for a pattern without atoms), the start node and the
    atoms are linked in a row, and every edge of the graph before is kept. *)
Theorem plain_pattern_is_path n atoms G :
  Forall plain_atom atoms →
  registered (pattern_labels (Some atoms)) G →
  ∃ G', build_labels_graph_repr (Node n) (Some atoms) G
        = Ok (Node (List.last (KAtom <$> atoms) n), G') ∧
        (∀ u v, (u, v) ∈ path_edges (n :: (KAtom <$> atoms)) →
                has_edge G' u v = true) ∧
        (∀ u v, has_edge G u v = true → has_edge G' u v = true).
Proof.
  intros Hp HL.
  destruct (build_labels_chain (pattern_labels (Some atoms)) atoms n None G
              Hp HL) as (G' & Hrun & Hpath & Hmono).
  { intros atom l Hin Hl. cbn [pattern_labels].
    apply list_elem_of_omap. eauto. }
  exists G'. split_and!; [|done..].
  cbn [build_labels_graph_repr].
  fold (chain_state n None). erewrite bind_run_Ok; [|done].
  cbn [chain_state par_nodes lastnode length].
  by rewrite bool_decide_eq_false_2 by (cbn; lia).
Qed.

Lemma plain_pattern_is_path_witness :
  ∃ G', build_labels_graph_repr (Node (KEnum NodeType.Query))
          (Some [atom_a; AAnyAtom 7; atom_b]) labels_graph
        = Ok (Node (KAtom atom_b), G') ∧
        has_edge G' (KAtom (AAnyAtom 7)) (KAtom atom_b) = true.
Proof.
  destruct (plain_pattern_is_path (KEnum NodeType.Query)
              [atom_a; AAnyAtom 7; atom_b] labels_graph)
    as (G' & Hrun & Hpath & _).
  - repeat constructor.
  - intros l Hl. vm_compute in Hl.
    apply elem_of_cons in Hl as [->|Hl]; [vm_compute; reflexivity|].
    apply elem_of_cons in Hl as [->|Hl]; [vm_compute; reflexivity|].
    apply elem_of_nil in Hl. destruct Hl.
  - exists G'. split; [exact Hrun|]. apply Hpath.
    right. right. left.
Defined.

(** X10.  A plain atom that comes while nodes wait to be merged, and no
    branch is pending, becomes the current node, and no node is left
    waiting.  The edges after the step are the edges there were, an edge
    between every waiting node and the node of the atom, and the edge
    between the node of the atom and its label when the atom names one: the
    former current node gets no edge unless it was waiting. *)
Theorem merge_step s atom G :
  plain_atom atom →
  (∀ l, named_label atom = Some l → has_node G (KLabel l) = true) →
  branch_next s = false → par_nodes s ≠ [] →
  ∃ G', build_labels_step s atom G
        = Ok ({| lastnode := Node (KAtom atom); par_nodes := [];
                 lastatom := Some atom; branch_next := false |}, G') ∧
        (∀ p, p ∈ par_nodes s → has_edge G' p (KAtom atom) = true) ∧
        (∀ u v, has_edge G u v = true → has_edge G' u v = true) ∧
        (∀ u v, has_edge G' u v = true ↔
                has_edge G u v = true
                ∨ (u ∈ par_nodes s ∧ v = KAtom atom)
                ∨ (v ∈ par_nodes s ∧ u = KAtom atom)
                ∨ (∃ l, named_label atom = Some l ∧
                        ((u = KAtom atom ∧ v = KLabel l)
                         ∨ (u = KLabel l ∧ v = KAtom atom)))).
Proof.
  intros Hp Hreg Hb Hpar.
  assert (∃ G1, atom_label_to_node atom G = Ok (KAtom atom, G1) ∧
                (∀ u v, has_edge G1 u v = true ↔
                        has_edge G u v = true
                        ∨ (∃ l, named_label atom = Some l ∧
                                ((u = KAtom atom ∧ v = KLabel l)
                                 ∨ (u = KLabel l ∧ v = KAtom atom)))))
    as (G1 & Hrun1 & Hedges1).
  { destruct atom as [id symb|id| |]; try done.
    - eexists. split.
      + apply run_atom_label_simple. by apply Hreg.
      + intros u v. rewrite has_edge_add_edge, has_edge_add_node,
          orb_true_iff, bool_decide_eq_true. cbn [named_label]. split.
        * intros [?|H]; [by left|]. right. eexists. split; [done|exact H].
        * intros [?|(l & [= <-] & H)]; [by left|by right].
    - eexists. split.
      + cbn [atom_label_to_node].
        erewrite bind_run_Ok; [|apply run_add_node]. apply run_ret.
      + intros u v. rewrite has_edge_add_node. cbn [named_label]. split.
        * by left.
        * by intros [?|(l & [=] & _)]. }
  assert (∀ u v, has_edge
            (foldl apply_op G1
               (edge_op <$> ((λ p, (p, KAtom atom)) <$> par_nodes s))) u v
            = true ↔
          has_edge G u v = true
          ∨ (u ∈ par_nodes s ∧ v = KAtom atom)
          ∨ (v ∈ par_nodes s ∧ u = KAtom atom)
          ∨ (∃ l, named_label atom = Some l ∧
                  ((u = KAtom atom ∧ v = KLabel l)
                   ∨ (u = KLabel l ∧ v = KAtom atom)))) as Hedges.
  { intros u v. rewrite has_edge_foldl, Hedges1, !elem_of_edges_to. tauto. }
  eexists. split_and!.
  - assert (build_labels_step s atom = build_labels_plain s atom) as ->
      by (by destruct atom).
    unfold build_labels_plain. erewrite bind_run_Ok; [|done]. rewrite Hb.
    rewrite bool_decide_eq_true_2.
    2:{ destruct (par_nodes s); [done|cbn; lia]. }
    erewrite bind_run_Ok; [|apply run_add_edges_from]. apply run_ret.
  - intros p Hin. apply Hedges. auto.
  - intros u v Huv. apply Hedges. auto.
  - exact Hedges.
Qed.

Lemma merge_step_witness :
  ∃ G', build_labels_step
          {| lastnode := Node (KEnum NodeType.Query);
             par_nodes := [KAtom atom_a]; lastatom := None;
             branch_next := false |} atom_b labels_graph
        = Ok ({| lastnode := Node (KAtom atom_b); par_nodes := [];
                 lastatom := Some atom_b; branch_next := false |}, G') ∧
        has_edge G' (KAtom atom_a) (KAtom atom_b) = true.
Proof.
  destruct (merge_step
              {| lastnode := Node (KEnum NodeType.Query);
                 par_nodes := [KAtom atom_a]; lastatom := None;
                 branch_next := false |} atom_b labels_graph)
    as (G' & Hrun & Hmerge & _).
  - exact I.
  - intros l Hl. injection Hl as <-. vm_compute. reflexivity.
  - reflexivity.
  - discriminate.
  - exists G'. split; [exact Hrun|]. apply Hmerge. left.
Defined.

(** ** [ensure_label_nodes] changes as little as it can *)

Lemma ensure_label_nodes_registered st G :
  registered (pattern_labels st) G → ensure_label_nodes st G = Ok (tt, G).
Proof.
  destruct st as [atoms|]; cbn [ensure_label_nodes pattern_labels]; [|done].
  revert G. induction atoms as [|atom atoms IH]; intros G HL; [done|].
  cbn [for_each].
  erewrite bind_run_Ok; [|apply run_ensure_label_nodes_atom].
  assert (match named_label atom with
          | Some l =>
              if has_node G (KLabel l) then G
              else add_node (KLabel l)
                     (mk_attrs NodeType.Label ("label:" +:+ model.name l)) G
          | None => G
          end = G) as ->.
  { destruct (named_label atom) as [l|] eqn:E; [|done].
    rewrite HL; [done|]. apply list_elem_of_omap. exists atom.
    split; [by left|done]. }
  apply IH. intros l (x & Hx & Hl)%list_elem_of_omap. apply HL.
  apply list_elem_of_omap. exists x. split; [by right|done].
Qed.

Lemma ensure_label_nodes_frame st G G' :
  ensure_label_nodes st G = Ok (tt, G') →
  edges G' = edges G ∧ nodes G `prefix_of` nodes G' ∧
  ∀ n a, (n, a) ∈ nodes G' → (n, a) ∈ nodes G ∨
         ∃ l, n = KLabel l ∧ l ∈ pattern_labels st ∧
              a = mk_attrs NodeType.Label ("label:" +:+ model.name l).
Proof.
  destruct st as [atoms|]; cbn [ensure_label_nodes pattern_labels].
  2:{ intros [= <-]. split_and!; [done..|]. auto. }
  revert G. induction atoms as [|atom atoms IH]; intros G.
  { intros [= <-]. split_and!; [done..|]. auto. }
  cbn [for_each].
  erewrite bind_run_Ok; [|apply run_ensure_label_nodes_atom].
  intros Hrun. apply IH in Hrun as (He & Hpre & Hnew).
  assert (∀ l, l ∈ omap named_label atoms →
               l ∈ omap named_label (atom :: atoms)) as Hsub.
  { intros l (x & Hx & Hl)%list_elem_of_omap.
    apply list_elem_of_omap. exists x. split; [by right|done]. }
  destruct (named_label atom) as [l|] eqn:E.
  2:{ split_and!; [done..|]. intros n a Hin.
      destruct (Hnew n a Hin) as [?|(l & ? & ? & ?)]; [by left|].
      right. exists l. auto. }
  destruct (has_node G (KLabel l)) eqn:El.
  { split_and!; [done..|]. intros n a Hin.
    destruct (Hnew n a Hin) as [?|(l' & ? & ? & ?)]; [by left|].
    right. exists l'. auto. }
  unfold add_node in He, Hpre, Hnew. rewrite El in He, Hpre, Hnew.
  cbn [nodes edges] in *. split_and!; [done| |].
  - etrans; [|done]. by apply prefix_app_r.
  - intros n a Hin. destruct (Hnew n a Hin) as [Hold|(l' & ? & ? & ?)].
    + apply elem_of_app in Hold as [?|[= -> ->]%list_elem_of_singleton];
        [by left|].
      right. exists l. split_and!; [done| |done].
      apply list_elem_of_omap. exists atom. split; [by left|done].
    + right. exists l'. auto.
Qed.

(** X11.  [ensure_label_nodes] always returns.  It leaves the edges and the
    nodes that were there as they were, attributes included, and what it
    adds are label nodes of type [Label] for labels the pattern names.  On a
    graph where those labels are nodes already it changes nothing, so a
    second call after a first changes nothing. *)
Theorem ensure_label_nodes_minimal st G :
  ∃ G', ensure_label_nodes st G = Ok (tt, G') ∧
        edges G' = edges G ∧ nodes G `prefix_of` nodes G' ∧
        (∀ n a, (n, a) ∈ nodes G' → (n, a) ∈ nodes G ∨
           ∃ l, n = KLabel l ∧ l ∈ pattern_labels st ∧
                a = mk_attrs NodeType.Label ("label:" +:+ model.name l)) ∧
        (registered (pattern_labels st) G → G' = G) ∧
        ensure_label_nodes st G' = Ok (tt, G').
Proof.
  destruct (ensure_label_nodes_Ok st G) as (G' & Hrun & _ & Hreg).
  destruct (ensure_label_nodes_frame _ _ _ Hrun) as (He & Hpre & Hnew).
  exists G'. split_and!; [done..| |].
  - intros HL. rewrite ensure_label_nodes_registered in Hrun by done.
    by injection Hrun.
  - by apply ensure_label_nodes_registered.
Qed.

(** ** A footprint for every call but the creation of the query node *)

Section plain_calls.
Context (Φ : op → Prop).
Hypothesis Hnode : ∀ n t lbl,
  n ≠ KEnum NodeType.Query → t ≠ NodeType.Query →
  Φ (AddNode n (mk_attrs t lbl)).
Hypothesis Hedge : ∀ u v, Φ (AddEdge u v).

Local Ltac call :=
  first
    [ apply writes_raise
    | apply writes_ret; exact I
    | apply writes_add_node; [apply Hnode; discriminate|exact I]
    | apply writes_add_edge; [apply Hedge|exact I]
    | apply writes_has_node; intros; exact I
    | apply writes_add_edge_from; [intros; apply Hedge|exact I]
    | apply writes_add_edges_from; [intros; apply Hedge|exact I] ].

Local Ltac seq := eapply writes_bind with (R := λ _, True); [|intros ? _].

Lemma calls_encode_network net :
  writes Φ (encode_network net) (λ _, True).
Proof.
  unfold encode_network. seq.
  { apply writes_for_each; [|done]. intros m rtr _ _. unfold encode_router.
    seq; [call|]. seq; [|call].
    apply writes_for_each; [|done]. intros [] iface _ _. seq; call. }
  seq. { apply writes_for_each; [|done]. intros [] lnk _ _. call. }
  seq.
  { unfold encode_labels. seq; [call|].
    apply writes_for_each; [|done]. intros [] lbl _ _. call. }
  seq; [|call].
  apply writes_for_each; [|done]. intros [] e _ _. unfold encode_table.
  seq; [|call].
  apply writes_for_each; [|done]. intros i dest _ _.
  unfold encode_destination.
  destruct (model.te_groups dest) as [|g gs]; [call|].
  destruct (model.rules g) as [|rule rs]; [call|].
  seq; [|call]. unfold encode_rule.
  seq; [call|]. seq; [call|]. seq; [destruct (decide _); call|].
  seq; [|call].
  apply writes_for_each; [|done]. intros s act _ _. unfold encode_action.
  seq; [destruct act; first [call|seq; call]|]. seq; call.
Qed.

Lemma calls_atom_label_to_node atom :
  writes Φ (atom_label_to_node atom) (λ _, True).
Proof.
  destruct atom; cbn [atom_label_to_node]; try call.
  - eapply writes_bind with (R := λ _, True); [call|]. intros [] _; [|call].
    seq; [call|]. seq; call.
  - seq; call.
Qed.

Lemma calls_build_labels_step s atom :
  writes Φ (build_labels_step s atom) (λ _, True).
Proof.
  assert (∀ a, writes Φ (build_labels_plain s a) (λ _, True)) as Hplain.
  { intros a. unfold build_labels_plain.
    seq; [apply calls_atom_label_to_node|].
    destruct (branch_next s); [|destruct (bool_decide _)]; seq; call. }
  destruct atom as [? ?| ? |id inner q| ?]; cbn [build_labels_step];
    try apply Hplain.
  destruct (is_ASimpleAtom (lastatom s)); [call|].
  assert (∀ t lbl, t ≠ NodeType.Query →
    writes Φ (build_labels_any s (AQuantifiedAtom id inner q) t lbl)
      (λ _, True)) as Hany.
  { intros t lbl Ht. unfold build_labels_any.
    seq; [apply writes_add_node; [by apply Hnode|exact I]|]. seq; call. }
  assert (writes Φ
    (build_labels_branch s (AQuantifiedAtom id inner q) inner) (λ _, True))
    as Hbranch.
  { unfold build_labels_branch. seq; [apply calls_atom_label_to_node|].
    seq; call. }
  destruct q, inner; first [call|by apply Hany|apply Hbranch].
Qed.

Lemma calls_build_labels_graph_repr l st :
  writes Φ (build_labels_graph_repr l st) (λ _, True).
Proof.
  destruct st as [atoms|]; cbn [build_labels_graph_repr].
  - seq; [|destruct (bool_decide _); call].
    apply writes_for_each; [|done]. intros. apply calls_build_labels_step.
  - seq; [call|]. seq; call.
Qed.

Lemma calls_encode_network_atom n2r l atom :
  writes Φ (encode_network_atom n2r l atom) (λ _, True).
Proof.
  assert (∀ v, writes Φ (edges_from_last l v) (λ _, True)) as Hlast.
  { intros v. destruct l; cbn [edges_from_last]; call. }
  destruct atom as [? symb| ? |id inner q| ?]; cbn [encode_network_atom].
  - seq; [call|]. seq.
    { destruct (n2r !! strip symb); [call|]. seq; call. }
    seq; [apply Hlast|]. seq; call.
  - seq; [call|]. seq; [apply Hlast|call].
  - seq; [destruct q, inner; call|]. seq; [apply Hlast|call].
  - call.
Qed.

End plain_calls.

Lemma update_query_attrs old k0 : update old (query_attrs k0) = query_attrs k0.
Proof. done. Qed.

Lemma node_attrs_touch_present n G m :
  m ∈ keys G → node_attrs (touch n G) m = node_attrs G m.
Proof.
  intros Hm. unfold node_attrs, touch. destruct (has_node G n); [done|].
  cbn. rewrite lookup_attrs_app.
  destruct (lookup_attrs (nodes G) m) eqn:E; [done|].
  by apply lookup_attrs_None in E.
Qed.

Lemma node_attrs_add_edge_present u v G m :
  m ∈ keys G → node_attrs (add_edge u v G) m = node_attrs G m.
Proof.
  intros Hm. unfold add_edge. cbn zeta.
  transitivity (node_attrs (touch v (touch u G)) m).
  - by destruct (has_edge _ u v).
  - rewrite node_attrs_touch_present; [by apply node_attrs_touch_present|].
    apply elem_of_keys_touch. auto.
Qed.

Lemma ext_attrs_stable Φ G G' n :
  (∀ a, ¬ Φ (AddNode n a)) → ext Φ G G' → n ∈ keys G →
  node_attrs G' n = node_attrs G n.
Proof.
  intros Hn H Hin. induction H as [|G' [m a|u v] Hext IH HΦ]; [done| |].
  - cbn. rewrite node_attrs_add_node.
    destruct (decide (n = m)) as [->|]; [by destruct (Hn a)|done].
  - cbn. rewrite node_attrs_add_edge_present; [done|].
    by eapply ext_keys.
Qed.

Lemma not_query_op_node n a :
  not_query_op (AddNode n a) →
  n ≠ KEnum NodeType.Query ∧ ntype a ≠ Some NodeType.Query.
Proof. done. Qed.

Lemma not_query_op_label o : label_op o → not_query_op o.
Proof. intros (l & a & -> & Ha). cbn. by rewrite Ha. Qed.

Lemma not_query_op_calls :
  (∀ n t lbl, n ≠ KEnum NodeType.Query → t ≠ NodeType.Query →
              not_query_op (AddNode n (mk_attrs t lbl))) ∧
  (∀ u v, not_query_op (AddEdge u v)).
Proof. split; [|done]. intros n t lbl Hn Ht. cbn. split; congruence. Qed.

(** X12.  In every graph [mpls2graph] returns, the query node carries the
    type [Query], the display label "query" and the failure budget [k] it was
    called with, and it is the only node of type [Query]. *)
Theorem query_node_unique net q k0 G :
  mpls2graph net q k0 = Ok G →
  node_attrs G (KEnum NodeType.Query) = Some (query_attrs k0) ∧
  ∀ n, node_type G n = Some NodeType.Query → n = KEnum NodeType.Query.
Proof.
  intros Hrun. destruct not_query_op_calls as [Hnode Hedge].
  destruct (mpls2graph_stages _ _ _ _ Hrun) as (n2r & G1 & Hnet & Hq & _).
  pose proof (writes_run _ _ _ _ _ _
    (calls_encode_network not_query_op Hnode Hedge net) Hnet) as [_ H01].
  unfold encode_query in Hq.
  destruct (ensure_label_nodes_Ok (getConstructing q) G1)
    as (Ga & Hrun1 & Hext1 & _).
  destruct (ensure_label_nodes_Ok (getDestructing q) Ga)
    as (Gb & Hrun2 & Hext2 & _).
  erewrite bind_run_Ok in Hq; [|done]. erewrite bind_run_Ok in Hq; [|done].
  erewrite bind_run_Ok in Hq; [|reflexivity].
  fold (query_attrs k0) in Hq.
  set (G3 := add_node (KEnum NodeType.Query) (query_attrs k0) Gb) in *.
  assert (ext not_query_op empty_graph Gb) as H0b.
  { eapply ext_trans; [done|]. eapply ext_weaken; [apply not_query_op_label|].
    by eapply ext_trans. }
  assert (ext not_query_op G3 G) as H3.
  { eapply (writes_run not_query_op _ (λ _, True)); [|done].
    eapply writes_bind with (R := λ _, True);
      [by apply calls_build_labels_graph_repr|]. intros l1 _.
    eapply writes_bind with (R := λ _, True).
    { apply writes_for_each; [|done]. intros.
      by apply calls_encode_network_atom. }
    intros l2 _.
    eapply writes_bind with (R := λ _, True);
      [by apply calls_build_labels_graph_repr|]. intros _ _.
    by apply writes_ret. }
  split.
  - rewrite (ext_attrs_stable not_query_op G3 G (KEnum NodeType.Query)).
    + subst G3. rewrite node_attrs_add_node.
      destruct (decide (_ = _)); [|done]. by rewrite update_query_attrs.
    + by intros a [? _]%not_query_op_node.
    + done.
    + apply elem_of_keys_add_node. by right.
  - intros n Hn.
    apply (ext_type_origin _ _ _ _ _ H3) in Hn as [Hn|(a & Ha & Ht)].
    2:{ by apply not_query_op_node in Ha as [_ Ha]. }
    subst G3. rewrite node_type_add_node in Hn.
    destruct (decide (n = KEnum NodeType.Query)); [done|].
    apply (ext_type_origin _ _ _ _ _ H0b) in Hn as [Hn|(a & Ha & Ht)];
      [by rewrite node_type_empty in Hn|].
    by apply not_query_op_node in Ha as [_ Ha].
Qed.

Lemma query_node_unique_witness :
  ∃ G, mpls2graph small_net query_branch 5 = Ok G ∧
       node_attrs G (KEnum NodeType.Query) = Some (query_attrs 5).
Proof.
  eexists. split; [vm_compute; reflexivity|].
  eapply proj1, (query_node_unique small_net query_branch 5).
  vm_compute. reflexivity.
Defined.

(** ** Every node has a type *)

Lemma typed_empty : typed empty_graph.
Proof. by intros n ?%elem_of_nil. Qed.

Lemma typed_add_node n a G :
  typed G → ntype a ≠ None → nlabel a ≠ None → typed (add_node n a G).
Proof.
  intros HG Ha Hl m Hm. rewrite node_type_add_node, node_label_add_node.
  apply elem_of_keys_add_node in Hm.
  destruct (decide (m = n)) as [->|Hne].
  - destruct (ntype a); [|by destruct Ha].
    destruct (nlabel a); [done|by destruct Hl].
  - apply HG. by destruct Hm.
Qed.

Lemma typed_add_edge u v G :
  typed G → u ∈ keys G → v ∈ keys G → typed (add_edge u v G).
Proof.
  intros HG Hu Hv m Hm. rewrite node_type_add_edge, node_label_add_edge.
  apply HG. apply elem_of_keys_add_edge in Hm as [?|[->| ->]]; done.
Qed.

Section keeps_rules.

Lemma keeps_ret {A} pre (x : A) post :
  (∀ n, n ∈ post x → n ∈ pre) → keeps pre (mret x) post.
Proof. intros Hp G HG Hpre. cbn. split_and!; auto. Qed.

Lemma keeps_raise {A} pre e post : keeps pre (@raise A e) post.
Proof. by intros G HG Hpre. Qed.

Lemma keeps_bind {A B} pre (m : M A) mid (f : A → M B) post :
  keeps pre m mid → (∀ x, keeps (mid x ++ pre) (f x) post) →
  keeps pre (m ≫= f) post.
Proof.
  intros Hm Hf G HG Hpre. specialize (Hm G HG Hpre). unfold mbind, M_bind.
  destruct (m G) as [[x G1]|e]; [|done]. destruct Hm as (HG1 & Hmono & Hmid).
  specialize (Hf x G1 HG1). destruct (f x G1) as [[y G2]|e]; [|done].
  destruct Hf as (HG2 & Hmono2 & Hpost).
  { intros n [?|?]%elem_of_app; auto. }
  split_and!; auto.
Qed.

Lemma keeps_weaken {A} pre pre' (m : M A) post post' :
  keeps pre m post → (∀ n, n ∈ pre → n ∈ pre') →
  (∀ x n, n ∈ post' x → n ∈ post x ∨ n ∈ pre') →
  keeps pre' m post'.
Proof.
  intros Hm Hpre Hpost G HG Hin. specialize (Hm G HG (λ n Hn, Hin n (Hpre n Hn))).
  destruct (m G) as [[x G1]|e]; [|done]. destruct Hm as (HG1 & Hmono & Hp).
  split_and!; [done..|]. intros n Hn.
  destruct (Hpost x n Hn) as [?|?]; auto.
Qed.

Lemma keeps_add_node_attrs pre n a :
  ntype a ≠ None → nlabel a ≠ None →
  keeps pre (G_add_node_attrs n a) (λ _, [n]).
Proof.
  intros Ha Hl G HG Hpre. cbn. split_and!.
  - by apply typed_add_node.
  - intros m Hm. apply elem_of_keys_add_node. auto.
  - intros m ->%list_elem_of_singleton. apply elem_of_keys_add_node. auto.
Qed.

Lemma keeps_add_node pre n t lbl : keeps pre (G_add_node n t lbl) (λ _, [n]).
Proof. by apply keeps_add_node_attrs. Qed.

Lemma keeps_add_edge pre u v :
  u ∈ pre → v ∈ pre → keeps pre (G_add_edge u v) (λ _, []).
Proof.
  intros Hu Hv G HG Hpre. cbn. split_and!.
  - apply typed_add_edge; auto.
  - intros m Hm. apply elem_of_keys_add_edge. auto.
  - by intros m ?%elem_of_nil.
Qed.

Lemma keeps_add_edge_from pre u v :
  (∀ n, n ∈ nodes_of u → n ∈ pre) → v ∈ pre →
  keeps pre (G_add_edge_from u v) (λ _, []).
Proof.
  intros Hu Hv. destruct u as [n|l]; [|apply keeps_raise].
  apply keeps_add_edge; [|done]. apply Hu. by left.
Qed.

Lemma keeps_add_edges_from pre l v :
  (∀ n, n ∈ l → n ∈ pre) → v ∈ pre →
  keeps pre (G_add_edges_from l v) (λ _, []).
Proof.
  intros Hl Hv. induction l as [|n l IH]; cbn [G_add_edges_from].
  - by apply keeps_ret.
  - eapply keeps_bind; [apply keeps_add_edge; [apply Hl; by left|done]|].
    intros []. cbn [app]. apply IH. intros. apply Hl. by right.
Qed.

Lemma keeps_edges_from_last pre l v :
  (∀ n, n ∈ nodes_of l → n ∈ pre) → v ∈ pre →
  keeps pre (edges_from_last l v) (λ _, []).
Proof.
  intros Hl Hv. destruct l as [n|l]; cbn [edges_from_last].
  - apply keeps_add_edge; [|done]. apply Hl. by left.
  - by apply keeps_add_edges_from.
Qed.

(** A loop whose variables name nodes. *)
Lemma keeps_for_each {S A} pre (body : S → A → M S) (I : S → list key) l :
  (∀ s x, x ∈ l → keeps (I s ++ pre) (body s x) I) →
  ∀ s, keeps (I s ++ pre) (for_each body s l) I.
Proof.
  induction l as [|x l IH]; intros Hbody s.
  - apply keeps_ret. intros n Hn. apply elem_of_app. by left.
  - cbn [for_each]. eapply keeps_bind; [apply Hbody; by left|].
    intros s'. eapply keeps_weaken.
    + apply IH. intros. apply Hbody. by right.
    + intros n Hn. set_solver.
    + auto.
Qed.

(** A loop that leaves the keys [K x] of every element [x] as nodes. *)
Lemma keeps_for_each_all {S A} pre (body : S → A → M S) (K : A → list key) l :
  (∀ s x, x ∈ l → keeps pre (body s x) (λ _, K x)) →
  ∀ s, keeps pre (for_each body s l) (λ _, l ≫= K).
Proof.
  induction l as [|x l IH]; intros Hbody s.
  - apply keeps_ret. by intros n ?%elem_of_nil.
  - cbn [for_each]. eapply keeps_bind; [apply Hbody; by left|].
    intros s'. eapply keeps_weaken.
    + apply (IH (λ s x Hx, Hbody s x ltac:(by right)) s').
    + intros n Hn. apply elem_of_app. by right.
    + intros s'' n Hn. cbn beta in Hn. rewrite bind_cons in Hn.
      apply elem_of_app in Hn as [?|?]; [right|left]; [|done].
      apply elem_of_app. by left.
Qed.

End keeps_rules.

Section keeps_program.

Lemma keeps_post {A} pre (m : M A) post post' :
  keeps pre m post → (∀ x n, n ∈ post' x → n ∈ post x ∨ n ∈ pre) →
  keeps pre m post'.
Proof. intros Hm Hp. by eapply keeps_weaken. Qed.

Lemma keeps_pre {A} pre pre' (m : M A) post :
  keeps pre m post → (∀ n, n ∈ pre → n ∈ pre') → keeps pre' m post.
Proof. intros Hm Hp. eapply keeps_weaken; eauto. Qed.

Lemma keeps_has_node pre n :
  keeps pre (G_has_node n) (λ b : bool, if b then [n] else []).
Proof.
  intros G HG Hpre. cbn. split_and!; [done..|]. intros m.
  destruct (has_node G n) eqn:E; [|by intros ?%elem_of_nil].
  intros ->%list_elem_of_singleton. by apply has_node_true.
Qed.

Lemma keeps_encode_router pre m rtr :
  keeps pre (encode_router m rtr) (λ _, router_keys rtr).
Proof.
  unfold encode_router.
  eapply keeps_bind; [apply keeps_add_node|intros []].
  eapply keeps_bind.
  { apply (keeps_for_each_all _ _ (λ i, [KInterface i])). intros [] i _.
    eapply keeps_bind; [apply keeps_add_node|intros []].
    eapply keeps_post; [apply keeps_add_edge|]; set_solver. }
  intros []. apply keeps_ret. unfold router_keys. set_solver.
Qed.

Lemma keeps_links pre lnks :
  (∀ lnk, lnk ∈ lnks →
     KInterface (model.interface (model.lnk_from_ lnk)) ∈ pre ∧
     KInterface (model.interface (model.lnk_to lnk)) ∈ pre) →
  keeps pre (for_each encode_link tt lnks) (λ _, []).
Proof.
  intros H. eapply keeps_post.
  - apply (keeps_for_each_all _ _ (λ _, [])). intros [] lnk Hl.
    apply keeps_add_edge; by apply H.
  - by intros [] n ?%elem_of_nil.
Qed.

Lemma keeps_encode_labels pre lbls :
  keeps pre (encode_labels lbls) (λ _, KLabel <$> model.NoLabel :: lbls).
Proof.
  unfold encode_labels.
  eapply keeps_bind; [apply keeps_add_node|intros []].
  eapply keeps_post.
  - apply (keeps_for_each_all _ _ (λ l, [KLabel l])). intros [] l _.
    apply keeps_add_node.
  - intros []. cbn. set_solver.
Qed.


Lemma base_keys_interface net i :
  i ∈ all_interfaces net → KInterface i ∈ base_keys net.
Proof.
  unfold all_interfaces, base_keys, router_keys. set_solver.
Qed.

Lemma base_keys_label net l : known_label net l → KLabel l ∈ base_keys net.
Proof. unfold known_label, base_keys. set_solver. Qed.

Lemma base_keys_router net r :
  r ∈ model.routers (model.topology net) → KRouter r ∈ base_keys net.
Proof. unfold base_keys, router_keys. set_solver. Qed.

Lemma keeps_encode_action pre rtr i s x :
  (∀ l, action_label x = Some l → KLabel l ∈ pre) →
  keeps ([s.1] ++ pre) (encode_action rtr i s x) (λ s', [s'.1]).
Proof.
  intros Hl. unfold encode_action.
  eapply keeps_bind with (mid := λ _, [KAction x]).
  { destruct x as [? l|? l| ? | ?]; [..|apply keeps_raise].
    - eapply keeps_bind; [apply keeps_add_node|intros []].
      specialize (Hl l eq_refl).
      eapply keeps_post; [apply keeps_add_edge|]; set_solver.
    - eapply keeps_bind; [apply keeps_add_node|intros []].
      specialize (Hl l eq_refl).
      eapply keeps_post; [apply keeps_add_edge|]; set_solver.
    - apply keeps_add_node. }
  intros []. eapply keeps_bind; [apply keeps_add_edge; set_solver|intros []].
  apply keeps_ret. set_solver.
Qed.

Lemma keeps_encode_rule net pre rtr i rule :
  wf_rule net rule → (∀ n, n ∈ base_keys net → n ∈ pre) →
  keeps pre (encode_rule rtr i rule) (λ _, []).
Proof.
  intros (Hfrom%base_keys_interface & Hto%base_keys_interface
          & Hlbl%base_keys_label & Hact) Hbase.
  unfold encode_rule.
  eapply keeps_bind; [apply keeps_add_node|intros []].
  eapply keeps_bind; [apply keeps_add_edge; set_solver|intros []].
  eapply keeps_bind with (mid := λ _, []).
  { destruct (decide _); [apply keeps_ret; set_solver|].
    apply keeps_add_edge; set_solver. }
  intros []. eapply keeps_bind.
  { eapply keeps_pre.
    - apply (keeps_for_each ([KRule rule] ++ pre) _ (λ s, [s.1])).
      intros s x Hx. apply keeps_encode_action. intros l Hl.
      specialize (Hact x l Hx Hl). apply base_keys_label in Hact. set_solver.
    - set_solver. }
  intros s. apply keeps_add_edge; set_solver.
Qed.

Lemma keeps_encode_destination net pre rtr i dest :
  (∀ r, primary_of dest = Some r → wf_rule net r) →
  (∀ n, n ∈ base_keys net → n ∈ pre) →
  keeps pre (encode_destination rtr i dest) (λ _, []).
Proof.
  intros Hwf Hbase. unfold encode_destination. unfold primary_of in Hwf.
  destruct (model.te_groups dest) as [|g gs]; [apply keeps_raise|].
  destruct (model.rules g) as [|rule rs]; [apply keeps_raise|].
  eapply keeps_bind; [by eapply keeps_encode_rule; [apply Hwf|]|intros []].
  apply keeps_ret; set_solver.
Qed.

Lemma keeps_encode_table net pre u e :
  wf_model net → e ∈ model.routingTables (model.routing net) →
  (∀ n, n ∈ base_keys net → n ∈ pre) →
  keeps pre (encode_table u e) (λ _, []).
Proof.
  intros [_ Hwf] He Hbase. unfold encode_table.
  eapply keeps_bind.
  { apply (keeps_for_each_all _ _ (λ _, [])). intros i dest Hd.
    eapply keeps_encode_destination; [|done].
    intros r Hr. apply Hwf. by exists e, dest. }
  intros i. apply keeps_ret; set_solver.
Qed.

Lemma keeps_encode_network net :
  wf_model net → keeps [] (encode_network net) (λ _, base_keys net).
Proof.
  intros Hwf. unfold encode_network.
  eapply keeps_bind; [apply (keeps_for_each_all _ _ router_keys)|intros n2r].
  { intros. apply keeps_encode_router. }
  eapply keeps_bind; [apply keeps_links|intros []].
  { intros lnk [Hf%base_keys_interface Ht%base_keys_interface]%(proj1 Hwf).
    unfold base_keys in *. set_solver. }
  eapply keeps_bind; [apply keeps_encode_labels|intros []].
  eapply keeps_bind with (mid := λ _, []).
  { eapply keeps_post.
    - apply (keeps_for_each_all _ _ (λ _, [])). intros [] e He.
      eapply keeps_encode_table; [done..|]. unfold base_keys. set_solver.
    - by intros [] n ?%elem_of_nil. }
  intros []. apply keeps_ret. unfold base_keys. set_solver.
Qed.


Lemma keeps_ensure_label_nodes_atom pre u atom :
  keeps pre (ensure_label_nodes_atom u atom) (λ _, []).
Proof.
  assert (∀ symb, keeps pre
    (present ← G_has_node (KLabel (label_of_symbol symb));
     if (present : bool) then mret tt
     else G_add_node (KLabel (label_of_symbol symb)) NodeType.Label
            ("label:" +:+ model.name (label_of_symbol symb))) (λ _, []))
    as Hsymb.
  { intros symb. eapply keeps_bind; [apply keeps_has_node|intros [|]].
    - apply keeps_ret. set_solver.
    - eapply keeps_post; [apply keeps_add_node|]. set_solver. }
  destruct atom as [? symb| ? |? [? symb| | |] ?| ?];
    first [apply Hsymb|apply keeps_ret; set_solver].
Qed.

Lemma keeps_ensure_label_nodes pre st :
  keeps pre (ensure_label_nodes st) (λ _, KLabel <$> pattern_labels st).
Proof.
  intros G HG Hpre.
  assert (keeps pre (ensure_label_nodes st) (λ _, [])) as Hk.
  { destruct st as [atoms|]; cbn [ensure_label_nodes];
      [|apply keeps_ret; set_solver].
    eapply keeps_post.
    - apply (keeps_for_each_all _ _ (λ _, [])). intros.
      apply keeps_ensure_label_nodes_atom.
    - by intros [] n ?%elem_of_nil. }
  specialize (Hk G HG Hpre).
  destruct (ensure_label_nodes_Ok st G) as (G' & Hrun & _ & Hreg).
  rewrite Hrun in Hk |- *. destruct Hk as (HG' & Hmono & _).
  split_and!; [done..|].
  intros n (l & -> & Hl)%list_elem_of_fmap. by apply has_node_true, Hreg.
Qed.

Lemma keeps_atom_label_to_node pre atom :
  keeps pre (atom_label_to_node atom) (λ n, [n]).
Proof.
  destruct atom as [? symb| ? | ? ? ?| ?]; cbn [atom_label_to_node];
    try apply keeps_raise.
  - eapply keeps_bind; [apply keeps_has_node|intros [|]];
      [|apply keeps_raise].
    eapply keeps_bind; [apply keeps_add_node|intros []].
    eapply keeps_bind; [apply keeps_add_edge; set_solver|intros []].
    apply keeps_ret. set_solver.
  - eapply keeps_bind; [apply keeps_add_node|intros []].
    apply keeps_ret. set_solver.
Qed.

Lemma keeps_build_labels_any pre s atom t lbl :
  keeps (loop_keys s ++ pre) (build_labels_any s atom t lbl) loop_keys.
Proof.
  unfold build_labels_any, loop_keys.
  eapply keeps_bind; [apply keeps_add_node|intros []].
  eapply keeps_bind; [apply keeps_add_edge_from; set_solver|intros []].
  apply keeps_ret. cbn. set_solver.
Qed.

Lemma keeps_build_labels_branch pre s atom inner :
  keeps (loop_keys s ++ pre) (build_labels_branch s atom inner) loop_keys.
Proof.
  unfold build_labels_branch, loop_keys.
  eapply keeps_bind; [apply keeps_atom_label_to_node|intros node].
  eapply keeps_bind; [apply keeps_add_edge_from; set_solver|intros []].
  apply keeps_ret. cbn. set_solver.
Qed.

Lemma keeps_build_labels_plain pre s atom :
  keeps (loop_keys s ++ pre) (build_labels_plain s atom) loop_keys.
Proof.
  unfold build_labels_plain, loop_keys.
  eapply keeps_bind; [apply keeps_atom_label_to_node|intros node].
  destruct (branch_next s); [|destruct (bool_decide _)].
  - eapply keeps_bind; [apply keeps_add_edge_from; set_solver|intros []].
    apply keeps_ret. cbn. set_solver.
  - eapply keeps_bind; [apply keeps_add_edges_from; set_solver|intros []].
    apply keeps_ret. cbn. set_solver.
  - eapply keeps_bind; [apply keeps_add_edge_from; set_solver|intros []].
    apply keeps_ret. cbn. set_solver.
Qed.

Lemma keeps_build_labels_step pre s atom :
  keeps (loop_keys s ++ pre) (build_labels_step s atom) loop_keys.
Proof.
  destruct atom as [? ?| ? |id inner q| ?]; cbn [build_labels_step];
    try apply keeps_build_labels_plain.
  destruct (is_ASimpleAtom (lastatom s)); [apply keeps_raise|].
  destruct q, inner;
    first [apply keeps_raise|apply keeps_build_labels_any
          |apply keeps_build_labels_branch].
Qed.

Lemma keeps_build_labels_graph_repr pre l0 st :
  keeps (nodes_of l0 ++ pre) (build_labels_graph_repr l0 st) nodes_of.
Proof.
  destruct st as [atoms|]; cbn [build_labels_graph_repr].
  - eapply keeps_bind.
    { eapply keeps_pre.
      - apply (keeps_for_each pre _ loop_keys). intros.
        apply keeps_build_labels_step.
      - unfold loop_keys. cbn. set_solver. }
    intros s. destruct (bool_decide _); apply keeps_ret;
      unfold loop_keys; cbn; set_solver.
  - eapply keeps_bind; [apply keeps_add_node|intros []].
    eapply keeps_bind; [apply keeps_add_edge_from; set_solver|intros []].
    apply keeps_ret. cbn. set_solver.
Qed.

Lemma keeps_encode_network_atom pre (n2r : gmap string model.Router) l atom :
  (∀ name r, n2r !! name = Some r → KRouter r ∈ pre) →
  keeps (nodes_of l ++ pre) (encode_network_atom n2r l atom) nodes_of.
Proof.
  intros Hn2r.
  destruct atom as [? symb| ? |id inner q| ?]; cbn [encode_network_atom].
  - eapply keeps_bind; [apply keeps_add_node|intros []].
    eapply keeps_bind with (mid := λ n, [n]).
    { destruct (n2r !! strip symb) as [r|] eqn:E.
      - apply keeps_ret. apply Hn2r in E. set_solver.
      - eapply keeps_bind; [apply keeps_add_node|intros []].
        apply keeps_ret. set_solver. }
    intros node.
    eapply keeps_bind; [apply keeps_edges_from_last; set_solver|intros []].
    eapply keeps_bind; [apply keeps_add_edge; set_solver|intros []].
    apply keeps_ret. cbn. set_solver.
  - eapply keeps_bind; [apply keeps_add_node|intros []].
    eapply keeps_bind; [apply keeps_edges_from_last; set_solver|intros []].
    apply keeps_ret. cbn. set_solver.
  - eapply keeps_bind with (mid := λ _, [KAtom (AQuantifiedAtom id inner q)]).
    { destruct q, inner; first [apply keeps_raise|apply keeps_add_node]. }
    intros [].
    eapply keeps_bind; [apply keeps_edges_from_last; set_solver|intros []].
    apply keeps_ret. cbn. set_solver.
  - apply keeps_raise.
Qed.

Lemma keeps_encode_query pre (n2r : gmap string model.Router) q k0 :
  (∀ name r, n2r !! name = Some r → KRouter r ∈ pre) →
  keeps pre (encode_query n2r q k0) (λ _, [KEnum NodeType.Query]).
Proof.
  intros Hn2r. unfold encode_query. cbn zeta.
  eapply keeps_bind; [apply keeps_ensure_label_nodes|intros []].
  eapply keeps_bind; [apply keeps_ensure_label_nodes|intros []].
  eapply keeps_bind; [by apply keeps_add_node_attrs|intros []].
  eapply keeps_bind.
  { eapply keeps_pre; [apply keeps_build_labels_graph_repr|].
    intros n Hn. exact Hn. }
  intros l1. eapply keeps_bind.
  { apply (keeps_for_each _ _ nodes_of). intros l atom _.
    apply keeps_encode_network_atom. intros name r Hr.
    apply Hn2r in Hr. set_solver. }
  intros l2.
  eapply keeps_bind; [apply keeps_build_labels_graph_repr|intros l3].
  apply keeps_ret. set_solver.
Qed.

End keeps_program.

Lemma router_named_elem_of name l r : router_named name l = Some r → r ∈ l.
Proof.
  unfold router_named. intros H%last_Some_elem_of.
  by apply list_elem_of_filter in H as [_ ?].
Qed.

Lemma mpls2graph_keeps_typed net q k0 G :
  wf_model net → mpls2graph net q k0 = Ok G →
  typed G ∧ KEnum NodeType.Query ∈ keys G.
Proof.
  intros Hwf (n2r & G1 & Hnet & Hq)%mpls2graph_Ok.
  pose proof (keeps_encode_network net Hwf empty_graph typed_empty) as H1.
  rewrite Hnet in H1.
  destruct H1 as (HG1 & _ & Hbase); [by intros n ?%elem_of_nil|].
  assert (∀ name r, n2r !! name = Some r → KRouter r ∈ base_keys net)
    as Hn2r.
  { intros name r Hr. apply base_keys_router.
    destruct (encode_network_stages _ _ _ _ Hnet) as (Ga & _ & _ & Hrt & _).
    rewrite (for_each_encode_router_lookup _ _ _ _ _ name Hrt) in Hr.
    destruct (router_named _ _) as [r'|] eqn:E;
      [|by rewrite lookup_empty in Hr].
    injection Hr as ->. by eapply router_named_elem_of. }
  pose proof (keeps_encode_query (base_keys net) n2r q k0 Hn2r G1 HG1 Hbase)
    as H2.
  rewrite Hq in H2. destruct H2 as (HG & _ & Hq'). split; [done|].
  apply Hq'. by left.
Qed.

(** X13.  For a model in which the links and the primary rules refer to
    interfaces of the routers, and the primary rules and their actions to
    labels of [collect_labels] or the sentinel, every node of a graph
    [mpls2graph] returns has both attributes [ntype] and [nlabel], as the
    documentation of the function says. *)
Theorem mpls2graph_typed net q k0 G :
  wf_model net → mpls2graph net q k0 = Ok G → typed G.
Proof. intros Hwf Hrun. by apply (mpls2graph_keeps_typed net q k0). Qed.

Lemma wf_small_net : wf_model small_net.
Proof.
  split.
  - intros lnk ->%list_elem_of_singleton.
    split; apply (bool_decide_unpack _); vm_compute; exact I.
  - intros r (e & dest & ->%list_elem_of_singleton & Hd & Hr).
    apply list_elem_of_singleton in Hd as ->. injection Hr as <-.
    unfold wf_rule, known_label.
    split_and!; try (apply (bool_decide_unpack _); vm_compute; exact I).
    intros x l Hx Hl. apply (bool_decide_unpack _).
    apply elem_of_cons in Hx as [->|Hx];
      [injection Hl as <-; vm_compute; exact I|].
    apply list_elem_of_singleton in Hx as ->. discriminate Hl.
Qed.

Lemma mpls2graph_typed_witness :
  wf_model small_net ∧
  ∃ G, mpls2graph small_net query_branch 5 = Ok G ∧ typed G.
Proof.
  split; [exact wf_small_net|]. eexists. split; [vm_compute; reflexivity|].
  apply (mpls2graph_typed small_net query_branch 5 _ wf_small_net).
  vm_compute. reflexivity.
Defined.

(** ** [graph2torch]: the identifiers of the nodes *)

Lemma dict_zip_None ks vs k : k ∉ ks → dict_zip ks vs k = None.
Proof.
  revert vs. induction ks as [|k' ks IH]; intros [|v vs] Hk; try done.
  cbn. apply not_elem_of_cons in Hk as [Hne Hk]. rewrite IH by done.
  by rewrite decide_False by done.
Qed.

Lemma dict_zip_lookup ks s i k :
  NoDup ks → ks !! i = Some k →
  dict_zip ks (seq s (length ks)) k = Some (s + i)%nat.
Proof.
  revert s i. induction ks as [|k' ks IH]; intros s i Hnd Hi; [done|].
  apply NoDup_cons in Hnd as [Hk' Hnd]. cbn. destruct i as [|i]; cbn in Hi.
  - injection Hi as ->. rewrite dict_zip_None by done.
    rewrite decide_True by done. f_equal. lia.
  - rewrite (IH (S s) i) by done. f_equal. lia.
Qed.

Lemma node_id_lookup G i n :
  NoDup (keys G) → keys G !! i = Some n → node_id G n = i.
Proof.
  intros Hnd Hi. unfold node_id.
  destruct (list_find _ _) as [[j m]|] eqn:E.
  - apply list_find_Some in E as (Hj & -> & _). cbn.
    by eapply NoDup_lookup.
  - apply list_find_None in E. rewrite Forall_forall in E.
    destruct (E n); [|done]. by eapply list_elem_of_lookup_2.
Qed.

Lemma ids_node_id G n :
  NoDup (keys G) → n ∈ keys G →
  dict_zip (nodes G).*1 (seq 0 (number_of_nodes G)) n = Some (node_id G n).
Proof.
  intros Hnd (i & Hi)%list_elem_of_lookup.
  rewrite (node_id_lookup _ _ _ Hnd Hi). unfold number_of_nodes.
  rewrite <-(length_fmap fst (nodes G)).
  apply (dict_zip_lookup _ 0 i n Hnd Hi).
Qed.

(** ** [graph2torch]: the loop over the nodes *)

Lemma setitem_middle {A} (l1 : list A) x l2 v :
  setitem (l1 ++ x :: l2) (length l1) v = Done (l1 ++ v :: l2).
Proof.
  unfold setitem. rewrite decide_True.
  - f_equal. rewrite insert_app_r_alt by done. by rewrite Nat.sub_diag.
  - rewrite length_app. cbn. lia.
Qed.

Lemma setitem2_middle {A} (l1 : list (list A)) row l2 j v :
  (j < length row)%nat →
  setitem2 (l1 ++ row :: l2) (length l1) j v
  = Done (l1 ++ <[j := v]> row :: l2).
Proof.
  intros Hj. unfold setitem2. rewrite list_lookup_middle by done.
  unfold setitem. rewrite decide_True by done. cbn. f_equal.
  rewrite insert_app_r_alt by done. by rewrite Nat.sub_diag.
Qed.

Lemma NodeType_value_range t :
  (NodeType_value t - 1 < NodeType_len)%nat.
Proof. unfold NodeType_len. destruct t; cbn; lia. Qed.

Lemma graph2torch_nodes_run ids pred todo : ∀ done slack,
  (∀ i nd, todo !! i = Some nd → ids nd.1 = Some (length done + i)%nat) →
  (∀ nd, nd ∈ todo → ntype nd.2 ≠ None) →
  fits_int64 pred →
  for_outcome (graph2torch_node ids pred)
    (((λ nd, feature_row nd.2) <$> done)
       ++ replicate (length todo + slack) (replicate NodeType_len 0%Z),
     ((λ nd, default 0%Z (pred nd.1)) <$> done)
       ++ replicate (length todo + slack) 0%Z,
     ((λ nd, bool_decide (is_Some (pred nd.1))) <$> done)
       ++ replicate (length todo + slack) false)
    todo
  = Done (((λ nd, feature_row nd.2) <$> done ++ todo)
            ++ replicate slack (replicate NodeType_len 0%Z),
          ((λ nd, default 0%Z (pred nd.1)) <$> done ++ todo)
            ++ replicate slack 0%Z,
          ((λ nd, bool_decide (is_Some (pred nd.1))) <$> done ++ todo)
            ++ replicate slack false).
Proof.
  induction todo as [|nd todo IH]; intros done slack Hids Hty Hfit.
  { cbn. by rewrite !app_nil_r. }
  cbn [for_outcome length replicate Nat.add].
  assert (graph2torch_node ids pred
    (((λ nd, feature_row nd.2) <$> done)
       ++ replicate NodeType_len 0%Z
          :: replicate (length todo + slack) (replicate NodeType_len 0%Z),
     ((λ nd, default 0%Z (pred nd.1)) <$> done)
       ++ 0%Z :: replicate (length todo + slack) 0%Z,
     ((λ nd, bool_decide (is_Some (pred nd.1))) <$> done)
       ++ false :: replicate (length todo + slack) false) nd
    = Done (((λ nd, feature_row nd.2) <$> done ++ [nd])
              ++ replicate (length todo + slack) (replicate NodeType_len 0%Z),
            ((λ nd, default 0%Z (pred nd.1)) <$> done ++ [nd])
              ++ replicate (length todo + slack) 0%Z,
            ((λ nd, bool_decide (is_Some (pred nd.1))) <$> done ++ [nd])
              ++ replicate (length todo + slack) false)) as ->.
  { unfold graph2torch_node.
    rewrite (Hids 0%nat nd eq_refl), Nat.add_0_r.
    cbn [getitem mbind outcome_bind].
    destruct (ntype nd.2) as [t|] eqn:Et;
      [|by destruct (Hty nd ltac:(by left))].
    cbn [getitem mbind outcome_bind].
    rewrite <-(length_fmap (λ nd, feature_row nd.2) done) at 1.
    rewrite setitem2_middle
      by (rewrite length_replicate; apply NodeType_value_range).
    cbn [mbind outcome_bind].
    rewrite !fmap_app, <-!app_assoc. cbn [fmap list_fmap app].
    assert (feature_row nd.2 = one_hot t) as ->
      by (unfold feature_row; by rewrite Et).
    unfold one_hot.
    destruct (pred nd.1) as [p|] eqn:Ep.
    2:{ cbn [default]. by rewrite bool_decide_false by (by intros [? ?]). }
    unfold int64. rewrite decide_True by (by eapply Hfit).
    cbn [mbind outcome_bind].
    rewrite <-(length_fmap (λ nd, default 0%Z (pred nd.1)) done) at 1.
    rewrite setitem_middle. cbn [mbind outcome_bind].
    rewrite <-(length_fmap (λ nd, bool_decide (is_Some (pred nd.1))) done)
      at 1.
    rewrite setitem_middle. cbn [mbind outcome_bind mret outcome_ret].
    by rewrite bool_decide_true by done. }
  cbn [mbind outcome_bind]. rewrite (IH (done ++ [nd])).
  - by rewrite <-!app_assoc.
  - intros i nd' Hi. rewrite (Hids (S i) nd' Hi), length_app. cbn.
    f_equal. lia.
  - intros nd' Hnd. apply Hty. by right.
  - done.
Qed.

Lemma for_outcome_app {S A} (body : S → A → outcome S) l1 l2 s :
  for_outcome body s (l1 ++ l2)
  = for_outcome body s l1 ≫= λ s', for_outcome body s' l2.
Proof.
  revert s. induction l1 as [|x l1 IH]; intros s; [done|].
  cbn [for_outcome app]. destruct (body s x); cbn [mbind outcome_bind]; auto.
Qed.

(** ** [graph2torch]: the loop over the edges *)

Lemma setitem2_row0 {A} (r0 r1 : list A) l1 x l2 v :
  r0 = l1 ++ x :: l2 →
  setitem2 [r0; r1] 0 (length l1) v = Done [l1 ++ v :: l2; r1].
Proof. intros ->. unfold setitem2. cbn. by rewrite setitem_middle. Qed.

Lemma setitem2_row1 {A} (r0 r1 : list A) l1 x l2 v i :
  r1 = l1 ++ x :: l2 → i = length l1 →
  setitem2 [r0; r1] 1 i v = Done [r0; l1 ++ v :: l2].
Proof. intros -> ->. unfold setitem2. cbn. by rewrite setitem_middle. Qed.

Lemma graph2torch_edge_run ids (d0 d1 rest : list Z) e a b :
  length d0 = length d1 →
  ids e.1 = Some a → ids e.2 = Some b →
  graph2torch_edge ids
    ([d0 ++ 0%Z :: 0%Z :: rest; d1 ++ 0%Z :: 0%Z :: rest], length d0) e
  = Done ([(d0 ++ [Z.of_nat a; Z.of_nat b]) ++ rest;
           (d1 ++ [Z.of_nat b; Z.of_nat a]) ++ rest],
          length (d0 ++ [Z.of_nat a; Z.of_nat b])).
Proof.
  intros Hlen Ha Hb. unfold graph2torch_edge. rewrite Ha, Hb.
  cbn [getitem mbind outcome_bind].
  erewrite setitem2_row0 by done. cbn [mbind outcome_bind].
  erewrite setitem2_row1 by done. cbn [mbind outcome_bind].
  rewrite (cons_middle (Z.of_nat a) d0), (cons_middle (Z.of_nat b) d1).
  rewrite !app_assoc.
  assert (S (length d0) = length (d0 ++ [Z.of_nat a])) as ->
    by (rewrite length_app; cbn; lia).
  erewrite setitem2_row0 by done. cbn [mbind outcome_bind].
  erewrite setitem2_row1 by (done || (rewrite !length_app; cbn; lia)).
  cbn [mbind outcome_bind mret outcome_ret].
  rewrite !length_app, <-!app_assoc. cbn [length app].
  do 2 f_equal. lia.
Qed.

Lemma graph2torch_edges_run ids (idv : key → nat) todo :
  ∀ (d0 d1 : list Z) slack,
  length d0 = length d1 →
  (∀ e, e ∈ todo → ids e.1 = Some (idv e.1) ∧ ids e.2 = Some (idv e.2)) →
  for_outcome (graph2torch_edge ids)
    ([d0 ++ replicate (length todo * 2 + slack) 0%Z;
      d1 ++ replicate (length todo * 2 + slack) 0%Z], length d0) todo
  = Done
      ([d0 ++ concat ((λ e, [Z.of_nat (idv e.1); Z.of_nat (idv e.2)]) <$> todo)
           ++ replicate slack 0%Z;
        d1 ++ concat ((λ e, [Z.of_nat (idv e.2); Z.of_nat (idv e.1)]) <$> todo)
           ++ replicate slack 0%Z],
       (length d0 + length todo * 2)%nat).
Proof.
  induction todo as [|e todo IH]; intros d0 d1 slack Hlen Hids.
  { cbn. by rewrite Nat.add_0_r. }
  cbn [for_outcome length]. 
  replace (S (length todo) * 2 + slack)%nat
    with (S (S (length todo * 2 + slack))) by lia.
  cbn [replicate].
  destruct (Hids e ltac:(by left)) as [Ha Hb].
  rewrite (graph2torch_edge_run ids d0 d1 _ e _ _ Hlen Ha Hb).
  cbn [mbind outcome_bind]. rewrite IH.
  - rewrite !length_app. cbn [length fmap list_fmap concat].
    rewrite <-!app_assoc. do 2 f_equal. lia.
  - rewrite !length_app. cbn. lia.
  - intros e' He'. apply Hids. by right.
Qed.

(** ** [G.edges()]: every edge once, from the end that comes first *)

Lemma neighbour_Some n e v :
  neighbour n e = Some v ↔ e = (n, v) ∨ e = (v, n).
Proof.
  unfold neighbour. destruct e as [a b]. cbn.
  repeat case_decide; naive_solver.
Qed.

Lemma elem_of_adj G n v :
  v ∈ adj G n ↔ (n, v) ∈ edges G ∨ (v, n) ∈ edges G.
Proof.
  unfold adj. rewrite list_elem_of_omap. split.
  - intros (e & He & [-> | ->]%neighbour_Some); auto.
  - intros [H|H]; eexists; (split; [exact H|]); apply neighbour_Some; auto.
Qed.

Lemma elem_of_edges_from G ns : ∀ seen u v,
  (u, v) ∈ edges_from G seen ns → u ∈ ns ∧ v ∈ adj G u ∧ v ∉ seen.
Proof.
  induction ns as [|n r IH]; intros seen u v; cbn [edges_from].
  { by intros ?%elem_of_nil. }
  intros [H|H]%elem_of_app.
  - apply list_elem_of_fmap in H as (nbr & [= -> ->] & H).
    apply list_elem_of_filter in H as [Hs Hadj]. split_and!; [by left|done..].
  - apply IH in H as (Hu & Hadj & Hs). split_and!; [by right|done|].
    intros Hv. apply Hs. by right.
Qed.

Lemma edges_from_complete G ns : ∀ seen u v,
  u ∈ ns → v ∈ ns → u ∉ seen → v ∉ seen → v ∈ adj G u →
  (u, v) ∈ edges_from G seen ns ∨ (v, u) ∈ edges_from G seen ns.
Proof.
  induction ns as [|n r IH]; intros seen u v Hu Hv Hus Hvs Hadj.
  { by apply elem_of_nil in Hu. }
  cbn [edges_from]. rewrite !elem_of_app.
  destruct (decide (n = u)) as [->|Hnu].
  { left. left. apply list_elem_of_fmap. exists v. split; [done|].
    by apply list_elem_of_filter. }
  destruct (decide (n = v)) as [->|Hnv].
  { right. left. apply list_elem_of_fmap. exists u. split; [done|].
    apply list_elem_of_filter. split; [done|].
    apply elem_of_adj. apply elem_of_adj in Hadj. tauto. }
  apply elem_of_cons in Hu as [->|Hu]; [done|].
  apply elem_of_cons in Hv as [->|Hv]; [done|].
  destruct (IH (n :: seen) u v) as [H|H]; auto.
  - intros [->|?]%elem_of_cons; done.
  - intros [->|?]%elem_of_cons; done.
Qed.

Lemma length_filter_split {A} (P Q R : A → Prop)
    `{!∀ x, Decision (P x), !∀ x, Decision (Q x), !∀ x, Decision (R x)} l :
  (∀ x, x ∈ l → (P x ↔ Q x ∨ R x) ∧ ¬ (Q x ∧ R x)) →
  length (filter P l) = (length (filter Q l) + length (filter R l))%nat.
Proof.
  induction l as [|x l IH]; intros Hall; [done|].
  rewrite !filter_cons.
  destruct (Hall x ltac:(by left)) as [HP Hex].
  specialize (IH (λ y Hy, Hall y ltac:(by right))).
  destruct (decide (P x)), (decide (Q x)), (decide (R x));
    cbn [length]; try lia; tauto.
Qed.

Lemma length_filter_omap {A B} (g : A → option B) (Q : B → Prop)
    (P : A → Prop) `{!∀ y, Decision (Q y), !∀ x, Decision (P x)} l :
  (∀ x, x ∈ l → (P x ↔ ∃ y, g x = Some y ∧ Q y)) →
  length (filter Q (omap g l)) = length (filter P l).
Proof.
  induction l as [|x l IH]; intros Hall; [done|].
  specialize (IH (λ y Hy, Hall y ltac:(by right))).
  specialize (Hall x ltac:(by left)).
  cbn [omap list_omap]. rewrite (filter_cons P).
  destruct (g x) as [y|] eqn:E.
  - rewrite filter_cons.
    destruct (decide (Q y)) as [HQ|HQ], (decide (P x)) as [HP|HP];
      cbn [length]; try lia.
    + destruct HP. apply Hall. eauto.
    + apply Hall in HP as (y' & [= ->] & ?). done.
  - destruct (decide (P x)) as [HP|HP]; [|done].
    apply Hall in HP as (y' & [=] & _).
Qed.

Lemma length_filter_all {A} (P : A → Prop) `{!∀ x, Decision (P x)} l :
  (∀ x, x ∈ l → P x) → length (filter P l) = length l.
Proof.
  induction l as [|x l IH]; intros Hall; [done|].
  rewrite filter_cons, decide_True by (apply Hall; by left).
  cbn. f_equal. apply IH. intros. apply Hall. by right.
Qed.

Lemma length_filter_none {A} (P : A → Prop) `{!∀ x, Decision (P x)} l :
  (∀ x, x ∈ l → ¬ P x) → length (filter P l) = 0%nat.
Proof.
  induction l as [|x l IH]; intros Hall; [done|].
  rewrite filter_cons, decide_False by (apply Hall; by left).
  apply IH. intros. apply Hall. by right.
Qed.

Lemma length_edges_from G ns : ∀ seen,
  NoDup ns → (∀ n, n ∈ ns → n ∉ seen) →
  length (edges_from G seen ns)
  = length (filter (λ e, e.1 ∉ seen ∧ e.2 ∉ seen ∧ (e.1 ∈ ns ∨ e.2 ∈ ns))
              (edges G)).
Proof.
  induction ns as [|n r IH]; intros seen Hnd Hseen.
  { cbn [edges_from length]. symmetry. apply length_filter_none.
    intros e _ (_ & _ & [?%elem_of_nil|?%elem_of_nil]); done. }
  apply NoDup_cons in Hnd as [Hn Hnd].
  assert (n ∉ seen) as Hns by (apply Hseen; by left).
  cbn [edges_from]. rewrite length_app, length_fmap. unfold adj.
  rewrite (IH (n :: seen)); [|done|].
  2:{ intros m Hm [->|?]%elem_of_cons; [done|].
      by apply (Hseen m); [right|]. }
  rewrite (length_filter_omap (neighbour n) (λ nbr, nbr ∉ seen)
             (λ e, e.1 ∉ seen ∧ e.2 ∉ seen ∧ (e.1 = n ∨ e.2 = n))).
  2:{ intros [a b] _. cbn. split.
      - intros (Ha & Hb & [->| ->]).
        + exists b. split; [by apply neighbour_Some; left|done].
        + exists a. split; [by apply neighbour_Some; right|done].
      - intros (y & [[= -> ->]|[= -> ->]]%neighbour_Some & Hy); auto. }
  symmetry. apply length_filter_split. intros [a b] _. cbn.
  rewrite !not_elem_of_cons, !elem_of_cons. split; [|tauto].
  destruct (decide (a = n)), (decide (b = n)); subst; tauto.
Qed.

Lemma length_G_edges G :
  NoDup (keys G) →
  (∀ u v, (u, v) ∈ edges G → u ∈ keys G ∧ v ∈ keys G) →
  length (G_edges G) = number_of_edges G.
Proof.
  intros Hnd Hends. unfold G_edges, number_of_edges.
  rewrite length_edges_from; [|done|by intros n _ ?%elem_of_nil].
  apply length_filter_all. intros [u v] [Hu Hv]%Hends. cbn.
  split_and!; [by intros ?%elem_of_nil..|by left].
Qed.

Lemma elem_of_G_edges G u v :
  (u, v) ∈ G_edges G → has_edge G u v = true.
Proof.
  intros (_ & Hadj%elem_of_adj & _)%elem_of_edges_from.
  by apply has_edge_true.
Qed.

Lemma G_edges_complete G u v :
  (∀ u v, (u, v) ∈ edges G → u ∈ keys G ∧ v ∈ keys G) →
  has_edge G u v = true → (u, v) ∈ G_edges G ∨ (v, u) ∈ G_edges G.
Proof.
  intros Hends H%has_edge_true.
  assert (u ∈ keys G ∧ v ∈ keys G) as [Hu Hv].
  { destruct H as [H|H]; apply Hends in H; tauto. }
  apply edges_from_complete; try done; try (by intros ?%elem_of_nil).
  by apply elem_of_adj.
Qed.

(** ** [graph2torch]: what it returns, and when it cannot *)

Lemma node_attrs_elem_of G nd :
  NoDup (keys G) → nd ∈ nodes G → node_attrs G nd.1 = Some nd.2.
Proof.
  unfold keys, node_attrs. induction (nodes G) as [|[m a] l IH]; intros Hnd H.
  { by apply elem_of_nil in H. }
  cbn in Hnd. apply NoDup_cons in Hnd as [Hm Hnd]. cbn [lookup_attrs].
  apply elem_of_cons in H as [->|H].
  - by rewrite decide_True.
  - rewrite decide_False; [by apply IH|]. intros ->. apply Hm.
    apply list_elem_of_fmap. by exists nd.
Qed.

Lemma ids_nodes G i nd :
  NoDup (keys G) → nodes G !! i = Some nd →
  dict_zip (nodes G).*1 (seq 0 (number_of_nodes G)) nd.1 = Some (0 + i)%nat.
Proof.
  intros Hnd Hi. unfold number_of_nodes.
  rewrite <-(length_fmap fst (nodes G)). apply dict_zip_lookup; [done|].
  by rewrite list_lookup_fmap, Hi.
Qed.

Lemma graph2torch_edges_closed G :
  simple_graph G →
  for_outcome
    (graph2torch_edge (dict_zip (nodes G).*1 (seq 0 (number_of_nodes G))))
    (replicate 2 (replicate (number_of_edges G * 2) 0%Z), 0%nat) (G_edges G)
  = Done
      ([concat ((λ e, [Z.of_nat (node_id G e.1); Z.of_nat (node_id G e.2)])
                  <$> G_edges G);
        concat ((λ e, [Z.of_nat (node_id G e.2); Z.of_nat (node_id G e.1)])
                  <$> G_edges G)],
       (number_of_edges G * 2)%nat).
Proof.
  intros (Hnd & Hends & _).
  pose proof (graph2torch_edges_run
    (dict_zip (nodes G).*1 (seq 0 (number_of_nodes G))) (node_id G)
    (G_edges G) [] [] 0 eq_refl) as He.
  cbn [app length] in He.
  rewrite (length_G_edges G Hnd Hends), Nat.add_0_r in He.
  cbn [replicate Nat.add] in *. rewrite He; [by rewrite !app_nil_r|].
  intros [u v] (Hu & Hadj%elem_of_adj & _)%elem_of_edges_from. cbn.
  assert (v ∈ keys G) by (destruct Hadj as [H|H]; apply Hends in H; tauto).
  by rewrite !ids_node_id.
Qed.

Lemma graph2torch_run G pred :
  simple_graph G → (∀ nd, nd ∈ nodes G → ntype nd.2 ≠ None) →
  fits_int64 pred →
  graph2torch G pred
  = Done
      {| Data.x := (λ nd, feature_row nd.2) <$> nodes G;
         Data.edge_index :=
           [concat ((λ e, [Z.of_nat (node_id G e.1); Z.of_nat (node_id G e.2)])
                      <$> G_edges G);
            concat ((λ e, [Z.of_nat (node_id G e.2); Z.of_nat (node_id G e.1)])
                      <$> G_edges G)];
         Data.y := (λ nd, default 0%Z (pred nd.1)) <$> nodes G;
         Data.mask := (λ nd, bool_decide (is_Some (pred nd.1))) <$> nodes G |}.
Proof.
  intros HG Hty Hfit. unfold graph2torch. cbn zeta.
  pose proof (graph2torch_nodes_run
    (dict_zip (nodes G).*1 (seq 0 (number_of_nodes G))) pred (nodes G) [] 0
    (λ i nd, ids_nodes G i nd (proj1 HG)) Hty Hfit) as Hn.
  cbn [fmap list_fmap app] in Hn. rewrite Nat.add_0_r in Hn.
  change (length (nodes G)) with (number_of_nodes G) in Hn.
  rewrite Hn. cbn [mbind outcome_bind].
  rewrite (graph2torch_edges_closed G HG). cbn [mbind outcome_bind].
  cbn [replicate]. by rewrite !app_nil_r.
Qed.

Lemma typed_nodes G :
  NoDup (keys G) → (∀ n, n ∈ keys G → is_Some (node_type G n)) →
  ∀ nd, nd ∈ nodes G → ntype nd.2 ≠ None.
Proof.
  intros Hnd Hty nd Hin.
  destruct (Hty nd.1) as [t Ht].
  { apply list_elem_of_fmap. by exists nd. }
  unfold node_type in Ht. rewrite (node_attrs_elem_of G nd Hnd Hin) in Ht.
  cbn in Ht. by rewrite Ht.
Qed.

(** X14.  On a simple graph whose nodes all have a type, and with answers
    that fit 64 bits, [graph2torch] returns: row [i] of [x] has a single one,
    in the column of the type of the [i]-th node; [y] holds the answer of
    each node that has one and zero elsewhere, and [mask] marks those nodes;
    [edge_index] lists, for the edges in the order of [G.edges()], the
    positions of the two ends, in one direction and then in the other. *)
Theorem graph2torch_tensors G pred :
  simple_graph G → (∀ n, n ∈ keys G → is_Some (node_type G n)) →
  fits_int64 pred →
  graph2torch G pred
  = Done
      {| Data.x := (λ nd, feature_row nd.2) <$> nodes G;
         Data.edge_index :=
           [concat ((λ e, [Z.of_nat (node_id G e.1); Z.of_nat (node_id G e.2)])
                      <$> G_edges G);
            concat ((λ e, [Z.of_nat (node_id G e.2); Z.of_nat (node_id G e.1)])
                      <$> G_edges G)];
         Data.y := (λ nd, default 0%Z (pred nd.1)) <$> nodes G;
         Data.mask := (λ nd, bool_decide (is_Some (pred nd.1))) <$> nodes G |}.
Proof.
  intros HG Hty Hfit. apply graph2torch_run; [done| |done].
  apply typed_nodes; [apply HG|done].
Qed.

Lemma first_untyped (l : list (key * attrs)) :
  (∃ nd, nd ∈ l ∧ ntype nd.2 = None) →
  ∃ l1 nd l2, l = l1 ++ nd :: l2 ∧
              (∀ x, x ∈ l1 → ntype x.2 ≠ None) ∧ ntype nd.2 = None.
Proof.
  induction l as [|x l IH]; intros (nd & Hin & Hnd).
  { by apply elem_of_nil in Hin. }
  destruct (ntype x.2) as [t|] eqn:Ex.
  - apply elem_of_cons in Hin as [->|Hin]; [by rewrite Ex in Hnd|].
    destruct IH as (l1 & nd' & l2 & -> & Hl1 & Hnd'); [by exists nd|].
    exists (x :: l1), nd', l2. split_and!; [done| |done].
    intros y [->|Hy]%elem_of_cons; [by rewrite Ex|by apply Hl1].
  - exists [], x, l. split_and!; [done| |done]. by intros y ?%elem_of_nil.
Qed.

Lemma graph2torch_node_untyped ids pred s nd i :
  ids nd.1 = Some i → ntype nd.2 = None →
  graph2torch_node ids pred s nd = KeyError.
Proof.
  intros Hi Hn. unfold graph2torch_node. destruct s as [[x y] m].
  by rewrite Hi, Hn.
Qed.

Lemma graph2torch_untyped G pred n :
  NoDup (keys G) → fits_int64 pred →
  n ∈ keys G → node_type G n = None →
  graph2torch G pred = KeyError.
Proof.
  intros Hnd Hfit Hn Hty.
  destruct (first_untyped (nodes G)) as (l1 & nd & l2 & Hl & Hl1 & Hnone).
  { apply list_elem_of_fmap in Hn as (nd & -> & Hin). exists nd.
    split; [done|]. unfold node_type in Hty.
    by rewrite (node_attrs_elem_of G nd Hnd Hin) in Hty. }
  unfold graph2torch. cbn zeta.
  set (ids := dict_zip _ _).
  assert (for_outcome (graph2torch_node ids pred)
    (replicate (number_of_nodes G) (replicate NodeType_len 0%Z),
     replicate (number_of_nodes G) 0%Z,
     replicate (number_of_nodes G) false) (nodes G) = KeyError) as ->; [|done].
  assert (∀ i x, nodes G !! i = Some x → ids x.1 = Some i) as Hids.
  { intros i x Hi. apply (ids_nodes G i x Hnd Hi). }
  assert (number_of_nodes G = (length l1 + S (length l2))%nat) as ->.
  { unfold number_of_nodes. rewrite Hl, length_app. done. }
  rewrite Hl, for_outcome_app.
  pose proof (graph2torch_nodes_run ids pred l1 [] (S (length l2))) as Hrun.
  cbn [fmap list_fmap app length] in Hrun. rewrite Hrun; [|..|done|done].
  2:{ intros i x Hi. apply Hids. rewrite Hl. by apply lookup_app_l_Some. }
  cbn [mbind outcome_bind for_outcome].
  rewrite (graph2torch_node_untyped ids pred _ nd (length l1)); [done| |done].
  apply Hids. rewrite Hl. by apply list_lookup_middle.
Qed.

(** X15.  When some node has no type, [graph2torch] raises [KeyError] (for
    answers that fit 64 bits, so that no earlier node fails otherwise). *)
Theorem graph2torch_untyped_raises G pred n :
  NoDup (keys G) → fits_int64 pred →
  n ∈ keys G → node_type G n = None →
  graph2torch G pred = KeyError.
Proof. apply graph2torch_untyped. Qed.

Lemma zip_concat_pairs {A B} (a b : A → B) es :
  zip (concat ((λ e, [a e; b e]) <$> es)) (concat ((λ e, [b e; a e]) <$> es))
  = concat ((λ e, [(a e, b e); (b e, a e)]) <$> es).
Proof. induction es as [|e es IH]; [done|]. cbn. by rewrite IH. Qed.

Lemma graph2torch_columns G pred d :
  simple_graph G → graph2torch G pred = Done d →
  columns d
  = concat ((λ e, [(Z.of_nat (node_id G e.1), Z.of_nat (node_id G e.2));
                   (Z.of_nat (node_id G e.2), Z.of_nat (node_id G e.1))])
              <$> G_edges G).
Proof.
  intros HG. unfold graph2torch. cbn zeta.
  destruct (for_outcome (graph2torch_node _ _) _ _) as [[[x y] m]| | | |];
    cbn [mbind outcome_bind]; try done.
  rewrite (graph2torch_edges_closed G HG).
  cbn [mbind outcome_bind mret outcome_ret]. intros [= <-].
  unfold columns. cbn [Data.edge_index].
  apply (zip_concat_pairs (λ e, Z.of_nat (node_id G e.1))
           (λ e, Z.of_nat (node_id G e.2))).
Qed.

(** X16.  In the tensors [graph2torch] returns for a simple graph,
    [edge_index] has two columns for each edge of the graph, and its columns
    are exactly the pairs of positions of two nodes that an edge joins: every
    edge is there in both directions, and nothing else is. *)
Theorem graph2torch_edge_index G pred d :
  simple_graph G → graph2torch G pred = Done d →
  length (columns d) = (2 * number_of_edges G)%nat ∧
  ∀ a b, (a, b) ∈ columns d ↔
         ∃ u v, has_edge G u v = true ∧
                a = Z.of_nat (node_id G u) ∧ b = Z.of_nat (node_id G v).
Proof.
  intros HG Hd. rewrite (graph2torch_columns G pred d HG Hd).
  destruct HG as (Hnd & Hends & _). split.
  - rewrite <-(length_G_edges G Hnd Hends).
    induction (G_edges G) as [|e es IH]; [done|]. cbn. lia.
  - intros a b. rewrite elem_of_concat. split.
    + intros (l & Hab & ([u v] & -> & He)%list_elem_of_fmap).
      apply elem_of_G_edges in He. cbn in Hab.
      apply elem_of_cons in Hab as [[= -> ->]|Hab]; [by exists u, v|].
      apply list_elem_of_singleton in Hab as [= -> ->].
      exists v, u. by rewrite has_edge_sym.
    + intros (u & v & Hedge & -> & ->).
      destruct (G_edges_complete G u v Hends Hedge) as [H|H].
      * eexists. split; [|apply list_elem_of_fmap; by exists (u, v)].
        by left.
      * eexists. split; [|apply list_elem_of_fmap; by exists (v, u)].
        right. by left.
Qed.

(** X17.  For a well-formed model, a query [mpls2graph] accepts and an
    answer that fits 64 bits, the body of [graph2torch_worker] returns
    tensors: [x] has the one-hot row of each node of the graph, [mask]
    selects the position of the query node and no other, and [y] holds the
    answer there and zero elsewhere. *)
Theorem graph2torch_worker_tensors net q k0 r G :
  wf_model net → (- 2 ^ 63 ≤ r < 2 ^ 63)%Z →
  mpls2graph net q k0 = Ok G →
  ∃ d, graph2torch_worker net q k0 r = Done d ∧
       Data.x d = (λ nd, feature_row nd.2) <$> nodes G ∧
       (∀ i, Data.mask d !! i = Some true
             ↔ i = node_id G (KEnum NodeType.Query)) ∧
       (∀ i v, Data.y d !! i = Some v →
               v = if decide (i = node_id G (KEnum NodeType.Query))
                   then r else 0%Z) ∧
       length (Data.y d) = number_of_nodes G.
Proof.
  intros Hwf Hr Hrun. unfold graph2torch_worker. rewrite Hrun.
  destruct (mpls2graph_keeps_typed net q k0 G Hwf Hrun) as [Hty Hq].
  assert (simple_graph G) as HG.
  { eapply ext_simple_graph; [by eapply mpls2graph_issued|].
    apply simple_graph_empty. }
  rewrite (proj2 (has_node_true G _) Hq).
  eexists. split; [apply graph2torch_tensors; [done| |]|].
  { intros n Hn. by apply Hty. }
  { intros n p Hp. destruct (decide _); [|done]. by injection Hp as <-. }
  cbn [Data.x Data.y Data.mask]. split_and!; [done| | |].
  - intros i. rewrite list_lookup_fmap. split.
    + destruct (nodes G !! i) as [nd|] eqn:Ei; [|done]. cbn.
      intros [= Hb]. apply bool_decide_eq_true in Hb.
      destruct (decide (nd.1 = _)) as [Hnd|]; [|by destruct Hb].
      symmetry. apply node_id_lookup; [apply HG|].
      unfold keys. by rewrite list_lookup_fmap, Ei, <-Hnd.
    + intros ->. apply list_elem_of_lookup in Hq as (i & Hi).
      rewrite (node_id_lookup G i _ (proj1 HG) Hi).
      unfold keys in Hi. rewrite list_lookup_fmap in Hi.
      destruct (nodes G !! i) as [nd|]; [|done]. cbn in Hi |- *.
      injection Hi as ->. rewrite decide_True by done.
      by rewrite bool_decide_true.
  - intros i v. rewrite list_lookup_fmap.
    destruct (nodes G !! i) as [nd|] eqn:Ei; [|done]. cbn. intros [= <-].
    destruct (decide (nd.1 = _)) as [Hnd|Hnd].
    + rewrite decide_True; [done|]. symmetry.
      apply node_id_lookup; [apply HG|].
      unfold keys. by rewrite list_lookup_fmap, Ei, <-Hnd.
    + rewrite decide_False; [done|]. intros ->. apply Hnd.
      apply list_elem_of_lookup in Hq as (j & Hj).
      rewrite (node_id_lookup G j _ (proj1 HG) Hj) in Ei.
      unfold keys in Hj. rewrite list_lookup_fmap, Ei in Hj.
      by injection Hj.
  - by rewrite length_fmap.
Qed.

(** ** The tensors of the small network *)

Lemma small_graph_run : mpls2graph small_net query_branch 5 = Ok small_graph.
Proof. vm_compute. reflexivity. Qed.

Lemma small_graph_simple : simple_graph small_graph.
Proof.
  eapply ext_simple_graph; [|apply simple_graph_empty].
  apply (mpls2graph_issued small_net query_branch 5), small_graph_run.
Qed.

Lemma small_graph_typed n :
  n ∈ keys small_graph → is_Some (node_type small_graph n).
Proof.
  intros Hn.
  by apply (mpls2graph_keeps_typed _ _ _ _ wf_small_net small_graph_run).
Qed.

Lemma graph2torch_tensors_witness :
  ∃ d, graph2torch small_graph (λ _, None) = Done d ∧
       length (Data.x d) = number_of_nodes small_graph.
Proof.
  eexists. split.
  - apply (graph2torch_tensors small_graph (λ _, None));
      [apply small_graph_simple|apply small_graph_typed|done].
  - cbn [Data.x]. apply length_fmap.
Defined.

Lemma graph2torch_untyped_raises_witness :
  node_type dangling_graph (KStr "x") = None ∧
  graph2torch dangling_graph (λ _, None) = KeyError.
Proof.
  split; [reflexivity|].
  apply (graph2torch_untyped_raises dangling_graph (λ _, None) (KStr "x"));
    [|done| |reflexivity];
    apply (bool_decide_unpack _); vm_compute; exact I.
Defined.

Lemma graph2torch_edge_index_witness :
  ∃ d, graph2torch small_graph (λ _, None) = Done d ∧
       length (columns d) = (2 * number_of_edges small_graph)%nat.
Proof.
  destruct (graph2torch small_graph (λ _, None)) as [d| | | |] eqn:E;
    try (vm_compute in E; discriminate E).
  exists d. split; [reflexivity|].
  exact (proj1 (graph2torch_edge_index small_graph _ d small_graph_simple E)).
Defined.

Lemma graph2torch_worker_tensors_witness :
  ∃ d, graph2torch_worker small_net query_branch 5 1 = Done d ∧
       Data.mask d !! node_id small_graph (KEnum NodeType.Query) = Some true.
Proof.
  destruct (graph2torch_worker_tensors small_net query_branch 5 1 small_graph
              wf_small_net) as (d & Hd & _ & Hmask & _).
  - split; [discriminate|reflexivity].
  - apply small_graph_run.
  - exists d. split; [exact Hd|]. by apply Hmask.
Defined.

(** ** A footprint by the keys of the nodes *)

Section keyed_calls.
Context (net : model.Model) (Φ : op → Prop).
Hypothesis Hnode : ∀ n a, (∀ j, n ≠ KInterface j) → Φ (AddNode n a).
Hypothesis Hiface : ∀ i a,
  i ∈ all_interfaces net → Φ (AddNode (KInterface i) a).
Hypothesis Hedge : ∀ u v, Φ (AddEdge u v).

Local Ltac call :=
  first
    [ apply writes_raise
    | apply writes_ret; exact I
    | apply writes_add_node; [apply Hnode; intros ?; discriminate|exact I]
    | apply writes_add_edge; [apply Hedge|exact I]
    | apply writes_has_node; intros; exact I
    | apply writes_add_edge_from; [intros; apply Hedge|exact I]
    | apply writes_add_edges_from; [intros; apply Hedge|exact I] ].

Local Ltac seq := eapply writes_bind with (R := λ _, True); [|intros ? _].

Lemma keyed_encode_network :
  writes Φ (encode_network net) (λ _, True).
Proof.
  unfold encode_network. seq.
  { apply writes_for_each; [|done]. intros m rtr _ Hrtr.
    unfold encode_router. seq; [call|]. seq; [|call].
    apply writes_for_each; [|done]. intros [] iface _ Hi. seq; [|call].
    apply writes_add_node; [|exact I]. apply Hiface.
    unfold all_interfaces. apply list_elem_of_bind. eauto. }
  seq. { apply writes_for_each; [|done]. intros [] lnk _ _. call. }
  seq.
  { unfold encode_labels. seq; [call|].
    apply writes_for_each; [|done]. intros [] lbl _ _. call. }
  seq; [|call].
  apply writes_for_each; [|done]. intros [] e _ _. unfold encode_table.
  seq; [|call].
  apply writes_for_each; [|done]. intros i dest _ _.
  unfold encode_destination.
  destruct (model.te_groups dest) as [|g gs]; [call|].
  destruct (model.rules g) as [|rule rs]; [call|].
  seq; [|call]. unfold encode_rule.
  seq; [call|]. seq; [call|]. seq; [destruct (decide _); call|].
  seq; [|call].
  apply writes_for_each; [|done]. intros s act _ _. unfold encode_action.
  seq; [destruct act; first [call|seq; call]|]. seq; call.
Qed.

Lemma keyed_ensure_label_nodes st :
  writes Φ (ensure_label_nodes st) (λ _, True).
Proof.
  destruct st as [atoms|]; cbn [ensure_label_nodes]; [|call].
  apply writes_for_each; [|done]. intros [] atom _ _.
  assert (∀ symb, writes Φ
    (present ← G_has_node (KLabel (label_of_symbol symb));
     if (present : bool) then mret tt
     else G_add_node (KLabel (label_of_symbol symb)) NodeType.Label
            ("label:" +:+ model.name (label_of_symbol symb))) (λ _, True))
    as Hsymb.
  { intros symb. eapply writes_bind with (R := λ _, True); [call|].
    intros [|] _; call. }
  destruct atom as [? symb| ? |? [? symb| | |] ?| ?];
    first [apply Hsymb|call].
Qed.

Lemma keyed_atom_label_to_node atom :
  writes Φ (atom_label_to_node atom) (λ _, True).
Proof.
  destruct atom; cbn [atom_label_to_node]; try call.
  - eapply writes_bind with (R := λ _, True); [call|]. intros [] _; [|call].
    seq; [call|]. seq; call.
  - seq; call.
Qed.

Lemma keyed_build_labels_step s atom :
  writes Φ (build_labels_step s atom) (λ _, True).
Proof.
  assert (∀ a, writes Φ (build_labels_plain s a) (λ _, True)) as Hplain.
  { intros a. unfold build_labels_plain.
    seq; [apply keyed_atom_label_to_node|].
    destruct (branch_next s); [|destruct (bool_decide _)]; seq; call. }
  destruct atom as [? ?| ? |id inner q| ?]; cbn [build_labels_step];
    try apply Hplain.
  destruct (is_ASimpleAtom (lastatom s)); [call|].
  assert (∀ t lbl,
    writes Φ (build_labels_any s (AQuantifiedAtom id inner q) t lbl)
      (λ _, True)) as Hany.
  { intros t lbl. unfold build_labels_any. seq; [call|]. seq; call. }
  assert (writes Φ
    (build_labels_branch s (AQuantifiedAtom id inner q) inner) (λ _, True))
    as Hbranch.
  { unfold build_labels_branch. seq; [apply keyed_atom_label_to_node|].
    seq; call. }
  destruct q, inner; first [call|apply Hany|apply Hbranch].
Qed.

Lemma keyed_build_labels_graph_repr l st :
  writes Φ (build_labels_graph_repr l st) (λ _, True).
Proof.
  destruct st as [atoms|]; cbn [build_labels_graph_repr].
  - seq; [|destruct (bool_decide _); call].
    apply writes_for_each; [|done]. intros. apply keyed_build_labels_step.
  - seq; [call|]. seq; call.
Qed.

Lemma keyed_encode_network_atom n2r l atom :
  writes Φ (encode_network_atom n2r l atom) (λ _, True).
Proof.
  assert (∀ v, writes Φ (edges_from_last l v) (λ _, True)) as Hlast.
  { intros v. destruct l; cbn [edges_from_last]; call. }
  destruct atom as [? symb| ? |id inner q| ?]; cbn [encode_network_atom].
  - seq; [call|]. seq.
    { destruct (n2r !! strip symb); [call|]. seq; call. }
    seq; [apply Hlast|]. seq; call.
  - seq; [call|]. seq; [apply Hlast|call].
  - seq; [destruct q, inner; call|]. seq; [apply Hlast|call].
  - call.
Qed.

(** The part of [encode_query] that follows the creation of the query
    node. *)
Lemma keyed_query_patterns n2r q :
  writes Φ
    (last ← build_labels_graph_repr (Node (KEnum NodeType.Query))
              (getConstructing q);
     last ← for_each (encode_network_atom n2r) last (getNetwork q);
     build_labels_graph_repr last (getDestructing q);;
     mret tt) (λ _, True).
Proof.
  seq; [apply keyed_build_labels_graph_repr|].
  seq; [apply writes_for_each; [|done]; intros;
        apply keyed_encode_network_atom|].
  seq; [apply keyed_build_labels_graph_repr|call].
Qed.

Lemma keyed_encode_query n2r q k0 :
  writes Φ (encode_query n2r q k0) (λ _, True).
Proof.
  unfold encode_query. cbn zeta.
  seq; [apply keyed_ensure_label_nodes|].
  seq; [apply keyed_ensure_label_nodes|].
  seq; [|apply keyed_query_patterns].
  apply writes_add_node_attrs; [|exact I]. apply Hnode. intros ?; discriminate.
Qed.

End keyed_calls.

(** ** A link to an interface of no router *)

Lemma node_attrs_touch_new n G :
  n ∉ keys G → node_attrs (touch n G) n = Some no_attrs.
Proof.
  intros Hn. unfold touch, node_attrs.
  destruct (has_node G n) eqn:E; [by apply has_node_true in E|].
  cbn. rewrite lookup_attrs_app.
  destruct (lookup_attrs (nodes G) n) eqn:El.
  - assert (lookup_attrs (nodes G) n = None) as Hnone
      by (by apply lookup_attrs_None).
    congruence.
  - cbn. by rewrite decide_True.
Qed.

Lemma node_attrs_add_edge_new u v G n :
  n ∉ keys G → n = u ∨ n = v →
  node_attrs (add_edge u v G) n = Some no_attrs.
Proof.
  intros Hn Huv. unfold add_edge. cbn zeta.
  transitivity (node_attrs (touch v (touch u G)) n).
  { by destruct (has_edge _ u v). }
  destruct (decide (n = u)) as [->|Hne].
  - rewrite node_attrs_touch_present; [by apply node_attrs_touch_new|].
    apply elem_of_keys_touch. auto.
  - destruct Huv as [->| ->]; [done|]. apply node_attrs_touch_new.
    rewrite elem_of_keys_touch. intros [?|?]; done.
Qed.

(** A node that no [add_node] names has no attributes. *)
Lemma ext_untouched Φ G G' n :
  (∀ a, ¬ Φ (AddNode n a)) → ext Φ G G' →
  (n ∈ keys G → node_attrs G n = Some no_attrs) →
  n ∈ keys G' → node_attrs G' n = Some no_attrs.
Proof.
  intros Hn H HG. induction H as [|G' [m a|u v] Hext IH HΦ]; [done| |].
  - cbn. rewrite elem_of_keys_add_node, node_attrs_add_node.
    destruct (decide (n = m)) as [->|Hne]; [by destruct (Hn a)|].
    intros [?|?]; [auto|done].
  - cbn. intros Hin. destruct (decide (n ∈ keys G')) as [Hk|Hk].
    + rewrite node_attrs_add_edge_present by done. auto.
    + apply node_attrs_add_edge_new; [done|].
      apply elem_of_keys_add_edge in Hin. tauto.
Qed.

Lemma encode_query_query_node n2r q k0 G1 G :
  encode_query n2r q k0 G1 = Ok (tt, G) → KEnum NodeType.Query ∈ keys G.
Proof.
  unfold encode_query. cbn zeta. intros H.
  apply bind_Ok in H as ([] & Ga & _ & H).
  apply bind_Ok in H as ([] & Gb & _ & H).
  apply bind_Ok in H as ([] & Gc & Hadd & H). injection Hadd as <-.
  eapply (ext_keys (λ _, True)).
  - eapply (writes_run _ _ (λ _, True)); [|exact H].
    by apply keyed_query_patterns.
  - apply elem_of_keys_add_node. by right.
Qed.

Lemma has_edge_keys G u v :
  simple_graph G → has_edge G u v = true → u ∈ keys G ∧ v ∈ keys G.
Proof.
  intros (_ & Hends & _) [H|H]%has_edge_true; apply Hends in H; tauto.
Qed.

(** X18.  A link one end of which is an interface of no router of the
    topology leaves, in every graph [mpls2graph] returns, a node for that
    interface without attributes, and the body of [graph2torch_worker] then
    raises [KeyError]. *)
Theorem dangling_link_raises net q k0 r G lnk i :
  mpls2graph net q k0 = Ok G →
  lnk ∈ model.links (model.topology net) →
  i = model.interface (model.lnk_from_ lnk)
  ∨ i = model.interface (model.lnk_to lnk) →
  i ∉ all_interfaces net →
  (- 2 ^ 63 ≤ r < 2 ^ 63)%Z →
  node_attrs G (KInterface i) = Some no_attrs ∧
  graph2torch_worker net q k0 r = KeyError.
Proof.
  intros Hrun Hlnk Hi Hout Hr.
  assert (simple_graph G) as HG.
  { eapply ext_simple_graph; [by eapply mpls2graph_issued|].
    apply simple_graph_empty. }
  destruct (mpls2graph_stages _ _ _ _ Hrun) as (n2r & G1 & Hnet & Hq & HG1).
  assert (KInterface i ∈ keys G) as Hin.
  { destruct (encode_network_stages _ _ _ _ Hnet)
      as (Ga & Gb & Gc & _ & -> & -> & _ & _ & Hbc & Hc1).
    assert (has_edge G
      (KInterface (model.interface (model.lnk_from_ lnk)))
      (KInterface (model.interface (model.lnk_to lnk))) = true) as He.
    { eapply ext_has_edge;
        [exact (ext_trans _ _ _ _ Hbc (ext_trans _ _ _ _ Hc1 HG1))|].
      apply foldl_has_edge. by apply (list_elem_of_fmap_2 link_op). }
    apply (has_edge_keys G _ _ HG) in He. destruct Hi as [->| ->]; tauto. }
  assert (ext (not_node_op (KInterface i)) empty_graph G) as Hext.
  { assert (∀ n a, (∀ j, n ≠ KInterface j) →
              not_node_op (KInterface i) (AddNode n a)) as Hnode
      by (intros n a Hn; apply Hn).
    assert (∀ j a, j ∈ all_interfaces net →
              not_node_op (KInterface i) (AddNode (KInterface j) a)) as Hif
      by (intros j a Hj [= ->]; done).
    assert (∀ u v, not_node_op (KInterface i) (AddEdge u v)) as Hedge
      by done.
    eapply ext_trans.
    - eapply (writes_run _ _ (λ _, True)); [|exact Hnet].
      by apply keyed_encode_network.
    - eapply (writes_run _ _ (λ _, True)); [|exact Hq].
      by apply keyed_encode_query. }
  assert (node_attrs G (KInterface i) = Some no_attrs) as Hattrs.
  { eapply ext_untouched; [|exact Hext| |exact Hin].
    - intros a Ha. by apply Ha.
    - by intros ?%elem_of_nil. }
  split; [done|]. unfold graph2torch_worker. rewrite Hrun.
  rewrite (proj2 (has_node_true G _) (encode_query_query_node _ _ _ _ _ Hq)).
  apply (graph2torch_untyped G _ (KInterface i)); [apply HG| |done|].
  - intros n p Hp. destruct (decide _); [|done]. by injection Hp as <-.
  - unfold node_type. by rewrite Hattrs.
Qed.

Lemma dangling_link_raises_witness :
  stray ∉ all_interfaces dangling_net ∧
  graph2torch_worker dangling_net query_branch 5 1 = KeyError.
Proof.
  assert (stray ∉ all_interfaces dangling_net) as Hout
    by (apply (bool_decide_unpack _); vm_compute; exact I).
  split; [exact Hout|].
  destruct (mpls2graph dangling_net query_branch 5) as [G|e] eqn:E;
    [|vm_compute in E; discriminate E].
  eapply proj2, (dangling_link_raises dangling_net query_branch 5 1 G _ stray
                   E).
  - by apply list_elem_of_singleton.
  - by right.
  - exact Hout.
  - split; [discriminate|reflexivity].
Defined.

(** ** The edges by the kinds of their ends *)

Lemma issued_edge_kind net u v : issued net (AddEdge u v) → edge_kind u v.
Proof.
  inversion 1 as [| | | | | | | | | |? ? Hu|? ? Hu| |? ? Hu Hv]; subst;
    try exact I.
  - by destruct u.
  - by destruct u.
  - destruct u; try done;
      destruct Hv as [Hv|[[l ->]|[r ->]]]; try exact I; by destruct v.
Qed.

(** X19.  In every graph [mpls2graph] returns, the two ends of each edge
    are, in one order or the other, of one of the kinds of [edge_kind]: the
    encoder never joins two routers, two labels or two rules, never joins a
    router or an interface to a label, and a node of the query part is
    joined only to nodes of the query part, to labels and to routers. *)
Theorem edges_by_kind net q k0 G u v :
  mpls2graph net q k0 = Ok G → has_edge G u v = true →
  edge_kind u v ∨ edge_kind v u.
Proof.
  intros Hrun Huv. apply has_edge_true in Huv.
  pose proof (mpls2graph_issued _ _ _ _ Hrun) as Hext.
  destruct Huv as [Huv|Huv]; [left|right];
    (destruct (ext_edge_origin _ _ _ _ _ Hext Huv) as [H|H];
       [by apply elem_of_nil in H|by eapply issued_edge_kind]).
Qed.

Lemma edges_by_kind_witness :
  has_edge small_graph (KRouter R1) (KInterface R1_i0) = true ∧
  (edge_kind (KRouter R1) (KInterface R1_i0)
   ∨ edge_kind (KInterface R1_i0) (KRouter R1)).
Proof.
  split; [reflexivity|].
  apply (edges_by_kind small_net query_branch 5 small_graph);
    [exact small_graph_run|reflexivity].
Defined.

(** ** The operations of the two parts *)

Lemma writes_net_encode_network net :
  writes net_op (encode_network net) (λ _, True).
Proof.
  assert (∀ n t lbl, net_key n → key_type n t →
    writes net_op (G_add_node n t lbl) (λ _, True)) as Hnode.
  { intros n t lbl Hn Ht. apply writes_add_node; [|exact I].
    split; [done|]. by exists t. }
  assert (∀ u v, net_key u → net_key v →
    writes net_op (G_add_edge u v) (λ _, True)) as Hedge.
  { intros u v Hu Hv. by apply writes_add_edge. }
  unfold encode_network.
  eapply writes_bind with (R := λ _, True).
  { apply writes_for_each; [|done]. intros m rtr _ _. unfold encode_router.
    eapply writes_bind with (R := λ _, True); [by apply Hnode|]. intros _ _.
    eapply writes_bind with (R := λ _, True);
      [|intros; by apply writes_ret].
    apply writes_for_each; [|done]. intros [] iface _ _.
    eapply writes_bind with (R := λ _, True); [by apply Hnode|]. intros _ _.
    by apply Hedge. }
  intros n2r _. eapply writes_bind with (R := λ _, True).
  { apply writes_for_each; [|done]. intros [] lnk _ _. by apply Hedge. }
  intros _ _. eapply writes_bind with (R := λ _, True).
  { unfold encode_labels.
    eapply writes_bind with (R := λ _, True); [by apply Hnode|]. intros _ _.
    apply writes_for_each; [|done]. intros [] lbl _ _. by apply Hnode. }
  intros _ _.
  eapply writes_bind with (R := λ _, True); [|intros; by apply writes_ret].
  apply writes_for_each; [|done]. intros [] e _ _. unfold encode_table.
  eapply writes_bind with (R := λ _, True); [|intros; by apply writes_ret].
  apply writes_for_each; [|done]. intros i dest _ _.
  unfold encode_destination.
  destruct (model.te_groups dest) as [|g gs]; [apply writes_raise|].
  destruct (model.rules g) as [|rule rs]; [apply writes_raise|].
  eapply writes_bind with (R := λ _, True); [|intros; by apply writes_ret].
  unfold encode_rule.
  eapply writes_bind with (R := λ _, True); [by apply Hnode|]. intros _ _.
  eapply writes_bind with (R := λ _, True); [by apply Hedge|]. intros _ _.
  eapply writes_bind with (R := λ _, True).
  { destruct (decide _); [by apply writes_ret|by apply Hedge]. }
  intros _ _. eapply writes_bind with (R := λ s, net_key s.1).
  { apply writes_for_each; [|done]. intros s act Hs _. unfold encode_action.
    eapply writes_bind with (R := λ _, True).
    { destruct act as [? l|? l|?|?]; [..|apply writes_raise].
      - eapply writes_bind with (R := λ _, True); [by apply Hnode|].
        intros _ _. by apply Hedge.
      - eapply writes_bind with (R := λ _, True); [by apply Hnode|].
        intros _ _. by apply Hedge.
      - by apply Hnode. }
    intros _ _. eapply writes_bind with (R := λ _, True); [by apply Hedge|].
    intros _ _. by apply writes_ret. }
  intros s Hs. by apply Hedge.
Qed.

Section pattern_calls.

Local Ltac node :=
  apply writes_add_node; [|exact I];
  (split; [exact I|]); eexists; (split; [reflexivity|]); cbn; auto.

Local Ltac call :=
  first
    [ apply writes_raise
    | apply writes_ret; exact I
    | node
    | apply writes_add_edge; [exact I|exact I]
    | apply writes_has_node; intros; exact I
    | apply writes_add_edge_from; [intros; exact I|exact I]
    | apply writes_add_edges_from; [intros; exact I|exact I] ].

Local Ltac seq := eapply writes_bind with (R := λ _, True); [|intros ? _].

Lemma pattern_atom_label_to_node atom :
  writes pattern_op (atom_label_to_node atom) (λ _, True).
Proof.
  destruct atom; cbn [atom_label_to_node]; try call.
  - eapply writes_bind with (R := λ _, True); [call|]. intros [] _; [|call].
    seq; [call|]. seq; call.
  - seq; call.
Qed.

Lemma pattern_build_labels_step s atom :
  writes pattern_op (build_labels_step s atom) (λ _, True).
Proof.
  assert (∀ a, writes pattern_op (build_labels_plain s a) (λ _, True))
    as Hplain.
  { intros a. unfold build_labels_plain.
    seq; [apply pattern_atom_label_to_node|].
    destruct (branch_next s); [|destruct (bool_decide _)]; seq; call. }
  destruct atom as [? ?| ? |id inner q| ?]; cbn [build_labels_step];
    try apply Hplain.
  destruct (is_ASimpleAtom (lastatom s)); [call|].
  assert (writes pattern_op
    (build_labels_branch s (AQuantifiedAtom id inner q) inner) (λ _, True))
    as Hbranch.
  { unfold build_labels_branch. seq; [apply pattern_atom_label_to_node|].
    seq; call. }
  destruct q, inner; try call; try apply Hbranch;
    unfold build_labels_any; (seq; [call|]); seq; call.
Qed.

Lemma pattern_build_labels_graph_repr l st :
  writes pattern_op (build_labels_graph_repr l st) (λ _, True).
Proof.
  destruct st as [atoms|]; cbn [build_labels_graph_repr].
  - seq; [|destruct (bool_decide _); call].
    apply writes_for_each; [|done]. intros. apply pattern_build_labels_step.
  - seq; [call|]. seq; call.
Qed.

Lemma pattern_encode_network_atom n2r l atom :
  writes pattern_op (encode_network_atom n2r l atom) (λ _, True).
Proof.
  assert (∀ v, writes pattern_op (edges_from_last l v) (λ _, True)) as Hlast.
  { intros v. destruct l; cbn [edges_from_last]; call. }
  destruct atom as [? symb| ? |id inner q| ?]; cbn [encode_network_atom].
  - seq; [call|]. seq.
    { destruct (n2r !! strip symb); [call|]. seq; call. }
    seq; [apply Hlast|]. seq; call.
  - seq; [call|]. seq; [apply Hlast|call].
  - seq; [destruct q, inner; call|]. seq; [apply Hlast|call].
  - call.
Qed.

Lemma pattern_query_patterns n2r q :
  writes pattern_op
    (last ← build_labels_graph_repr (Node (KEnum NodeType.Query))
              (getConstructing q);
     last ← for_each (encode_network_atom n2r) last (getNetwork q);
     build_labels_graph_repr last (getDestructing q);;
     mret tt) (λ _, True).
Proof.
  seq; [apply pattern_build_labels_graph_repr|].
  seq; [apply writes_for_each; [|done]; intros;
        apply pattern_encode_network_atom|].
  seq; [apply pattern_build_labels_graph_repr|call].
Qed.

End pattern_calls.

(** ** The query part after the network part *)

Lemma encode_query_stages n2r q k0 G1 G :
  encode_query n2r q k0 G1 = Ok (tt, G) →
  ∃ Ga Gb,
    ensure_label_nodes (getConstructing q) G1 = Ok (tt, Ga) ∧
    ensure_label_nodes (getDestructing q) Ga = Ok (tt, Gb) ∧
    ext pattern_op (add_node (KEnum NodeType.Query) (query_attrs k0) Gb) G.
Proof.
  unfold encode_query. cbn zeta. intros H.
  apply bind_Ok in H as ([] & Ga & Ha & H).
  apply bind_Ok in H as ([] & Gb & Hb & H).
  apply bind_Ok in H as ([] & Gc & Hadd & H). injection Hadd as <-.
  exists Ga, Gb. split_and!; [done..|].
  eapply (writes_run _ _ (λ _, True)); [|exact H].
  apply pattern_query_patterns.
Qed.

Lemma ensure_label_nodes_ext st G G' :
  ensure_label_nodes st G = Ok (tt, G') → ext label_op G G'.
Proof.
  intros H. destruct (ensure_label_nodes_Ok st G) as (G2 & H2 & Hext & _).
  rewrite H in H2. by injection H2 as <-.
Qed.

(** X20.  In every graph [mpls2graph] returns, the type of a node follows
    the kind of its key: routers, interfaces, labels and rules have the
    type of their name; an action has the type of its class; the node of a
    plain atom is a [QueryAtom], that of an "any" atom a [Label] or an
    [Any], that of a quantified atom a [ZeroOrMore] or a [OneOrMore]; a
    string is a [Router], or a [Label] when it is "empty"; the enumeration
    member is the [Query]. *)
Theorem node_types_by_key net q k0 G n t :
  mpls2graph net q k0 = Ok G → node_type G n = Some t → key_type n t.
Proof.
  intros (n2r & G1 & Hnet & Hq)%mpls2graph_Ok Ht.
  apply encode_query_stages in Hq as (Ga & Gb & Ha & Hb & Hext).
  apply (ext_type_origin _ _ _ _ _ Hext) in Ht
    as [Ht|(a & [_ (t' & Ha' & Hk)] & Hta)]; [|congruence].
  rewrite node_type_add_node in Ht.
  destruct (decide (n = KEnum NodeType.Query)) as [->|_];
    [by injection Ht as <-|].
  apply (ext_type_origin _ _ _ _ _ (ensure_label_nodes_ext _ _ _ Hb)) in Ht
    as [Ht|(a & (l & a' & [= -> <-] & Hl) & Hta)]; [|cbn; congruence].
  apply (ext_type_origin _ _ _ _ _ (ensure_label_nodes_ext _ _ _ Ha)) in Ht
    as [Ht|(a & (l & a' & [= -> <-] & Hl) & Hta)]; [|cbn; congruence].
  pose proof (writes_run _ _ _ _ _ _ (writes_net_encode_network net) Hnet)
    as [_ Hext1].
  apply (ext_type_origin _ _ _ _ _ Hext1) in Ht
    as [Ht|(a & [_ (t' & Ha' & Hk)] & Hta)]; [|congruence].
  by rewrite node_type_empty in Ht.
Qed.

Lemma node_types_by_key_witness :
  node_type small_graph (KAtom atom_a) = Some NodeType.QueryAtom ∧
  key_type (KAtom atom_a) NodeType.QueryAtom.
Proof.
  split; [reflexivity|].
  apply (node_types_by_key small_net query_branch 5 small_graph);
    [exact small_graph_run|reflexivity].
Defined.

Lemma update_node_absent n a (l : list (key * attrs)) :
  n ∉ l.*1 → update_node n a <$> l = l.
Proof.
  induction l as [|p l IH]; [done|]. cbn. intros [Hp Hl]%not_elem_of_cons.
  rewrite IH by done. unfold update_node. by rewrite decide_False.
Qed.

Lemma add_node_prefix n a G0 G :
  n ∉ keys G0 → nodes G0 `prefix_of` nodes G →
  nodes G0 `prefix_of` nodes (add_node n a G).
Proof.
  intros Hn [k Hk]. unfold add_node. destruct (has_node G n); cbn.
  - exists (update_node n a <$> k).
    by rewrite Hk, fmap_app, update_node_absent.
  - exists (k ++ [(n, a)]). by rewrite Hk, app_assoc.
Qed.

Lemma touch_prefix n G0 G :
  nodes G0 `prefix_of` nodes G → nodes G0 `prefix_of` nodes (touch n G).
Proof.
  intros Hp. unfold touch. destruct (has_node G n); [done|]. cbn.
  by apply prefix_app_r.
Qed.

Lemma add_edge_prefix u v G0 G :
  nodes G0 `prefix_of` nodes G →
  nodes G0 `prefix_of` nodes (add_edge u v G).
Proof.
  intros Hp. unfold add_edge. cbn zeta.
  assert (nodes G0 `prefix_of` nodes (touch v (touch u G)))
    by (by do 2 apply touch_prefix).
  by destruct (has_edge _ u v).
Qed.

Lemma ext_nodes_prefix Φ G0 G G' :
  (∀ n a, Φ (AddNode n a) → n ∉ keys G0) → ext Φ G G' →
  nodes G0 `prefix_of` nodes G → nodes G0 `prefix_of` nodes G'.
Proof.
  intros HΦ H Hp. induction H as [|G' [n a|u v] _ IH Ho]; [done| |]; cbn.
  - apply add_node_prefix; [by eapply HΦ|done].
  - by apply add_edge_prefix.
Qed.

Lemma encode_network_net_keys net n2r G1 n :
  encode_network net empty_graph = Ok (n2r, G1) → n ∈ keys G1 → net_key n.
Proof.
  intros Hnet Hn.
  pose proof (writes_run _ _ _ _ _ _ (writes_net_encode_network net) Hnet)
    as [_ Hext].
  apply (ext_key_origin _ _ _ _ Hext) in Hn
    as [Hn|[(a & [Hk _])|[(v & [Hk _])|(u & [_ Hk])]]];
    [by apply elem_of_nil in Hn|done..].
Qed.

(** X21.  The query part only appends nodes: in the graph [mpls2graph]
    returns, the nodes of the network part come first, in the same order and
    with the same attributes as in the graph of the network alone.  So a node
    of the network has the same position and the same attributes whatever
    the query is. *)
Theorem query_part_appends net q k0 G :
  mpls2graph net q k0 = Ok G →
  ∃ n2r G1, encode_network net empty_graph = Ok (n2r, G1) ∧
            nodes G1 `prefix_of` nodes G ∧
            ∀ n, n ∈ keys G1 →
                 node_id G n = node_id G1 n ∧
                 node_attrs G n = node_attrs G1 n.
Proof.
  intros Hrun.
  destruct (mpls2graph_stages _ _ _ _ Hrun) as (n2r & G1 & Hnet & Hq & HG1).
  assert (nodes G1 `prefix_of` nodes G) as Hpre.
  { apply encode_query_stages in Hq as (Ga & Gb & Ha & Hb & Hext).
    apply ensure_label_nodes_frame in Ha as (_ & Hpa & _).
    apply ensure_label_nodes_frame in Hb as (_ & Hpb & _).
    eapply (ext_nodes_prefix pattern_op); [|exact Hext|].
    - intros n a [Hn _] Hin.
      apply (encode_network_net_keys _ _ _ _ Hnet) in Hin. by destruct n.
    - apply add_node_prefix.
      + intros Hin. by apply (encode_network_net_keys _ _ _ _ Hnet) in Hin.
      + by etrans. }
  exists n2r, G1. split_and!; [done..|].
  pose proof (mpls2graph_simple_graph _ _ _ _ Hrun) as [HG _].
  assert (NoDup (keys G1)) as HG1'.
  { destruct Hpre as [k Hk]. unfold keys in HG |- *.
    rewrite Hk, fmap_app in HG. by apply NoDup_app in HG as [? _]. }
  intros n Hn. split.
  - apply list_elem_of_lookup in Hn as [i Hi].
    rewrite (node_id_lookup G1 i n HG1' Hi).
    apply node_id_lookup; [done|]. destruct Hpre as [k Hk].
    unfold keys in Hi |- *. rewrite Hk, fmap_app.
    by apply lookup_app_l_Some.
  - destruct Hpre as [k Hk]. unfold node_attrs. rewrite Hk, lookup_attrs_app.
    destruct (lookup_attrs (nodes G1) n) eqn:E; [done|].
    by apply lookup_attrs_None in E.
Qed.

Lemma query_part_appends_witness :
  ∃ n2r G1, encode_network small_net empty_graph = Ok (n2r, G1) ∧
            nodes G1 `prefix_of` nodes small_graph.
Proof.
  destruct (query_part_appends small_net query_branch 5 small_graph
              small_graph_run) as (n2r & G1 & Hnet & Hn & _).
  exists n2r, G1. split; [exact Hnet|exact Hn].
Defined.
